(** * chemkin_io.parser.reaction: extraction of rate data from CHEMKIN
      reaction entries

    The module under study builds regular expressions with the combinators
    of [autoparse.pattern] (imported as [app]) and runs them with
    [autoparse.find] (imported as [apf]), a thin layer over Python's [re].
    The development has four layers:

    - [re]:   a backtracking matcher with the priorities of Python's [re]
              (ordered alternation, greedy repetition, numbered groups,
              negative lookahead), and [search] / [finditer] on top of it;
    - [app]:  the pattern combinators and constants;
    - [apf]:  [has_match], [first_capture], [all_captures], [remove], [split];
    - the functions of [reaction.py] themselves, followed by the theorems. *)

From Stdlib Require Import String Ascii List Bool Arith ZArith QArith Lia.
Import ListNotations.
Close Scope Q_scope.
Close Scope Z_scope.
Open Scope nat_scope.
Open Scope string_scope.
Open Scope list_scope.

(** [s1 +++ s2]: concatenation of strings ([++] is kept for lists). *)
Infix "+++" := String.append (right associativity, at level 60).

(** The text ['\n']. *)
Definition newline : string := String (ascii_of_nat 10) EmptyString.

(** ** Python values and exceptions *)

(** The exceptions the modelled code can raise. *)
Inductive exn : Type :=
| TypeError
| ValueError
| IndexError
| AttributeError.

(** A computation that returns or raises. *)
Inductive result (A : Type) : Type :=
| Ok (a : A)
| Raise (e : exn).
Arguments Ok {A} a.
Arguments Raise {A} e.

Definition bind {A B} (m : result A) (f : A -> result B) : result B :=
  match m with
  | Ok a => f a
  | Raise e => Raise e
  end.

Notation "x <- m ;; k" := (bind m (fun x => k))
  (at level 61, m at next level, right associativity).

(** [[f(x) for x in l]]: the first raising element aborts the comprehension. *)
Fixpoint mapM {A B} (f : A -> result B) (l : list A) : result (list B) :=
  match l with
  | [] => Ok []
  | x :: t => y <- f x ;; ys <- mapM f t ;; Ok (y :: ys)
  end.

(** A [for] loop threading an accumulator, aborted by the first exception. *)
Fixpoint foldM {A S} (f : S -> A -> result S) (l : list A) (acc : S)
  : result S :=
  match l with
  | [] => Ok acc
  | x :: t => acc' <- f acc x ;; foldM f t acc'
  end.

(** What [first_capture] returns: [None], a [str], or the tuple
    [match.groups()], whose items are [str] or [None] (an [option string]). *)
Inductive pyval : Type :=
| PNone
| PStr (s : string)
| PTuple (l : list (option string)).

(** An item of [re.findall]: a [str] or a tuple of [str]. *)
Inductive fitem : Type :=
| FStr (s : string)
| FTup (l : list string).

(** ** Python's [re]: a backtracking matcher *)

Module re.

Inductive regex : Type :=
| Eps                         (* the empty pattern *)
| Cls (f : ascii -> bool)     (* one character of a class *)
| Seq (r1 r2 : regex)         (* r1r2 *)
| Alt (r1 r2 : regex)         (* r1|r2, left first *)
| Star (r : regex)            (* (?:r)*, greedy *)
| Plus (r : regex)            (* (?:r)+, greedy *)
| Cap (r : regex)             (* (r), a numbered group *)
| NotFollowedBy (r : regex)   (* (?!r) *)
| StringStart.                (* \A *)

(** Number of capturing groups; groups are numbered by their opening
    parenthesis, left to right. *)
Fixpoint ngroups (r : regex) : nat :=
  match r with
  | Eps | Cls _ | StringStart => 0
  | Seq r1 r2 | Alt r1 r2 => ngroups r1 + ngroups r2
  | Star r | Plus r | NotFollowedBy r => ngroups r
  | Cap r => S (ngroups r)
  end.

(** Group contents, [None] for a group that did not take part. *)
Definition caps : Type := list (option string).

Fixpoint set_cap (i : nat) (v : string) (c : caps) : caps :=
  match c, i with
  | [], _ => []
  | _ :: t, O => Some v :: t
  | x :: t, S j => x :: set_cap j v t
  end.

(** The first [k] characters of [s]. *)
Fixpoint take (k : nat) (s : string) : string :=
  match k, s with
  | S j, String a t => String a (take j t)
  | _, _ => ""
  end.

(** The text consumed between the suffix [s] and its suffix [s']. *)
Definition consumed (s s' : string) : string :=
  take (String.length s - String.length s') s.

(** Greedy repetition of [body], then [k].  Another iteration is tried
    first, and only after an iteration that consumed input; [k] is tried
    when it fails.  Each iteration shortens the text, so a [fuel] above
    its length is never exhausted. *)
Fixpoint rep {R : Type}
  (body : string -> caps -> (string -> caps -> option R) -> option R)
  (k : string -> caps -> option R) (fuel : nat) (s : string) (c : caps)
  : option R :=
  match fuel with
  | O => k s c
  | S fuel' =>
      match body s c
              (fun s1 c1 =>
                 if Nat.ltb (String.length s1) (String.length s)
                 then rep body k fuel' s1 c1 else None) with
      | Some x => Some x
      | None => k s c
      end
  end.

(** [m n r i s c k]: match [r] at the head of [s], a suffix of a subject
    of length [n]; [i] is the number of the next group, [c] the groups so
    far; [k] is the rest of the match.  Alternatives are tried in the
    order of Python's engine and the first success is returned. *)
Fixpoint m {R : Type} (n : nat) (r : regex) (i : nat) (s : string)
  (c : caps) (k : string -> caps -> option R) {struct r} : option R :=
  match r with
  | Eps => k s c
  | Cls f =>
      match s with
      | String a t => if f a then k t c else None
      | EmptyString => None
      end
  | Seq r1 r2 =>
      m n r1 i s c (fun s1 c1 => m n r2 (i + ngroups r1) s1 c1 k)
  | Alt r1 r2 =>
      match m n r1 i s c k with
      | Some x => Some x
      | None => m n r2 (i + ngroups r1) s c k
      end
  | Star r1 => rep (m n r1 i) k (S (String.length s)) s c
  | Plus r1 =>
      m n r1 i s c
        (fun s1 c1 => rep (m n r1 i) k (S (String.length s1)) s1 c1)
  | Cap r1 =>
      m n r1 (S i) s c (fun s1 c1 => k s1 (set_cap i (consumed s s1) c1))
  | NotFollowedBy r1 =>
      match m n r1 i s c (fun _ _ => Some tt) with
      | Some _ => None
      | None => k s c
      end
  | StringStart => if Nat.eqb (String.length s) n then k s c else None
  end.

(** One match: the text before it, the matched text, the text after it,
    and the groups. *)
Record found : Type := mkFound
  { f_before : string; f_match : string; f_after : string; f_caps : caps }.

Definition match_at (n : nat) (r : regex) (s : string)
  : option (string * caps) :=
  m n r 0 s (repeat None (ngroups r)) (fun s' c' => Some (s', c')).

(** The leftmost match in [s], a suffix of a subject of length [n]. *)
Fixpoint find (n : nat) (r : regex) (s : string) : option found :=
  match match_at n r s with
  | Some (s', c') => Some (mkFound "" (consumed s s') s' c')
  | None =>
      match s with
      | EmptyString => None
      | String a t =>
          match find n r t with
          | Some f =>
              Some (mkFound (String a (f_before f)) (f_match f)
                      (f_after f) (f_caps f))
          | None => None
          end
      end
  end.

(** [re.search]. *)
Definition search (r : regex) (s : string) : option found :=
  find (String.length s) r s.

(** The successive non-overlapping matches, left to right, each with the
    text that separates it from the one before, and the text after the
    last one.  After an empty match the scan moves on by one character
    (no pattern of [reaction.py] matches the empty string). *)
Fixpoint scan (fuel : nat) (n : nat) (r : regex) (s : string)
  : list found * string :=
  match fuel with
  | O => ([], s)
  | S fuel' =>
      match find n r s with
      | None => ([], s)
      | Some f =>
          match f_match f, f_after f with
          | EmptyString, EmptyString => ([f], "")
          | EmptyString, String a t =>
              let '(fs, tl) := scan fuel' n r t in
              match fs with
              | [] => ([f], String a tl)
              | g :: gs =>
                  (f :: mkFound (String a (f_before g)) (f_match g)
                          (f_after g) (f_caps g) :: gs, tl)
              end
          | _, rest =>
              let '(fs, tl) := scan fuel' n r rest in (f :: fs, tl)
          end
      end
  end.

(** [re.finditer]. *)
Definition finditer (r : regex) (s : string) : list found * string :=
  scan (S (String.length s)) (String.length s) r s.

(** [match.groups()]. *)
Definition groups (f : found) : list (option string) := f_caps f.

(** One item of [re.findall]: the match when the pattern has no group,
    the group when it has one, else the tuple of groups; a group that
    did not take part gives the empty string. *)
Definition findall_item (r : regex) (f : found) : fitem :=
  let strs := map (fun g => match g with Some s => s | None => "" end)
                  (f_caps f) in
  match ngroups r with
  | 0 => FStr (f_match f)
  | 1 => FStr (hd "" strs)
  | _ => FTup strs
  end.

Definition findall (r : regex) (s : string) : list fitem :=
  map (findall_item r) (fst (finditer r s)).

(** [re.sub(r, repl, s)] for a replacement without group references. *)
Definition sub (r : regex) (repl : string) (s : string) : string :=
  let '(fs, tl) := finditer r s in
  fold_right (fun f acc => f_before f +++ repl +++ acc) tl fs.

(** [re.split(r, s)] for a pattern without groups. *)
Definition split (r : regex) (s : string) : list string :=
  let '(fs, tl) := finditer r s in
  map f_before fs ++ [tl].

End re.

Infix "+>" := re.Seq (right associativity, at level 55).

(** ** Character classes *)

Definition code (a : ascii) : nat := nat_of_ascii a.

Definition in_range (lo hi : nat) (a : ascii) : bool :=
  Nat.leb lo (code a) && Nat.leb (code a) hi.

(** [\s]: the characters for which [str.isspace] holds, among the first 256
    code points. *)
Definition is_space (a : ascii) : bool :=
  in_range 9 13 a || in_range 28 32 a || Nat.eqb (code a) 133
  || Nat.eqb (code a) 160.

(** [[ \t]] *)
Definition is_linespace (a : ascii) : bool :=
  Nat.eqb (code a) 32 || Nat.eqb (code a) 9.

(** [[A-Za-z]] *)
Definition is_letter (a : ascii) : bool :=
  in_range 65 90 a || in_range 97 122 a.

(** [[0-9]] *)
Definition is_digit (a : ascii) : bool := in_range 48 57 a.

Definition one_of (chars : string) (a : ascii) : bool :=
  existsb (Ascii.eqb a) (list_ascii_of_string chars).

(** ** autoparse.pattern

    [autoparse] is a package of its own.  Its combinators write the text of
    a regular expression: [maybe(p)] is [(?:p)?], [zero_or_more(p)] is
    [(?:p)*], [one_or_more(p)] is [(?:p)+], [one_of_these] joins its
    patterns with [|] inside [(?:...)], [capturing(p)] is [(p)] and
    [not_followed_by(p)] is [(?!p)].  Here they build the syntax tree of that
    text, and the constants are those of the package: [SPACE] is [\s] and
    [LINESPACE] is [[ \t]], [SPACES] and [LINESPACES] are one or more of
    them. *)

Module app.
Import re.

(** [re.escape]: the text itself, character by character.  A pattern
    given as plain text (['TROE'], ['M']) reads the same way. *)
Fixpoint escape (s : string) : regex :=
  match s with
  | EmptyString => Eps
  | String a EmptyString => Cls (Ascii.eqb a)
  | String a t => Cls (Ascii.eqb a) +> escape t
  end.

Definition maybe (p : regex) : regex := Alt p Eps.
Definition zero_or_more (p : regex) : regex := Star p.
Definition one_or_more (p : regex) : regex := Plus p.
Definition capturing (p : regex) : regex := Cap p.
Definition not_followed_by (p : regex) : regex := NotFollowedBy p.

Fixpoint one_of_these (ps : list regex) : regex :=
  match ps with
  | [] => Eps
  | [p] => p
  | p :: t => Alt p (one_of_these t)
  end.

Definition STRING_START : regex := StringStart.
Definition SPACE : regex := Cls is_space.
Definition SPACES : regex := one_or_more SPACE.
Definition LINESPACE : regex := Cls is_linespace.
Definition LINESPACES : regex := one_or_more LINESPACE.
Definition NONSPACE : regex := Cls (fun a => negb (is_space a)).
Definition LETTER : regex := Cls is_letter.
Definition DIGIT : regex := Cls is_digit.
Definition PLUS : regex := escape "+".
Definition MINUS : regex := escape "-".
Definition PERIOD : regex := escape ".".
Definition UNDERSCORE : regex := escape "_".
Definition SIGN : regex := one_of_these [PLUS; MINUS].

Definition UNSIGNED_INTEGER : regex := one_or_more DIGIT.
Definition UNSIGNED_FLOAT : regex :=
  one_of_these
    [zero_or_more DIGIT +> PERIOD +> one_or_more DIGIT;
     one_or_more DIGIT +> PERIOD +> zero_or_more DIGIT].
Definition INTEGER : regex := maybe SIGN +> UNSIGNED_INTEGER.
Definition FLOAT : regex := maybe SIGN +> UNSIGNED_FLOAT.
Definition EXPONENTIAL_INTEGER : regex :=
  INTEGER +> one_of_these [escape "E"; escape "e"] +> INTEGER.
Definition EXPONENTIAL_FLOAT : regex :=
  FLOAT +> one_of_these [escape "E"; escape "e"] +> INTEGER.
Definition NUMBER : regex :=
  one_of_these [EXPONENTIAL_FLOAT; EXPONENTIAL_INTEGER; FLOAT; INTEGER].

(** [series(p, sep)]: [p] then any number of [sep p]. *)
Definition series (p sep : regex) : regex := p +> zero_or_more (sep +> p).

(** [padded(p)]: [p] with optional spaces and tabs on both sides. *)
Definition padded (p : regex) : regex :=
  zero_or_more LINESPACE +> p +> zero_or_more LINESPACE.

End app.

(** ** autoparse.find

    The functions of [autoparse.find] call [re.search], [re.findall],
    [re.sub] and [re.split]. *)

Module apf.

Definition has_match (p : re.regex) (s : string) : bool :=
  match re.search p s with
  | Some _ => true
  | None => false
  end.

(** The group of the first match when the pattern has one group, the
    tuple of its groups otherwise; [None] without a match. *)
Definition first_capture (p : re.regex) (s : string) : pyval :=
  match re.search p s with
  | None => PNone
  | Some f =>
      if Nat.eqb (re.ngroups p) 1
      then match hd None (re.groups f) with
           | Some g => PStr g
           | None => PNone
           end
      else PTuple (re.groups f)
  end.

Definition all_captures (p : re.regex) (s : string) : list fitem :=
  re.findall p s.

(** [re.sub] needs a string. *)
Definition remove (p : re.regex) (v : pyval) : result string :=
  match v with
  | PStr s => Ok (re.sub p "" s)
  | _ => Raise TypeError
  end.

Definition split (p : re.regex) (s : string) : list string :=
  re.split p s.

End apf.

(** ** Python built-ins used by the module *)

(** [str.strip()] *)
Fixpoint lstrip (s : string) : string :=
  match s with
  | String a t => if is_space a then lstrip t else s
  | EmptyString => EmptyString
  end.

Fixpoint rstrip (s : string) : string :=
  match s with
  | String a t =>
      match rstrip t with
      | EmptyString => if is_space a then EmptyString else String a EmptyString
      | t' => String a t'
      end
  | EmptyString => EmptyString
  end.

Definition strip (s : string) : string := rstrip (lstrip s).

(** [str.split()]: the maximal runs of non-whitespace characters.  [cur] is
    the run being read, reversed. *)
Definition flush (cur : list ascii) (acc : list string) : list string :=
  match cur with
  | [] => acc
  | _ => string_of_list_ascii (rev cur) :: acc
  end.

Fixpoint split_ws (s : string) (cur : list ascii) : list string :=
  match s with
  | EmptyString => flush cur []
  | String a t =>
      if is_space a then flush cur (split_ws t [])
      else split_ws t (a :: cur)
  end.

Definition str_split (s : string) : list string := split_ws s [].

(** [str.splitlines()]: the line boundaries among the first 256 code points
    are LF, VT, FF, CR (CR LF counts once), FS, GS, RS and NEL; no empty last
    line after a final boundary. *)
Definition is_linebreak (a : ascii) : bool :=
  in_range 10 13 a || in_range 28 30 a || Nat.eqb (code a) 133.

Fixpoint lines_from (s : string) (cur : list ascii) : list string :=
  match s with
  | EmptyString => flush cur []
  | String a t =>
      if is_linebreak a then
        string_of_list_ascii (rev cur) ::
          match t with
          | String b t' =>
              if Nat.eqb (code a) 13 && Nat.eqb (code b) 10
              then lines_from t' [] else lines_from t []
          | EmptyString => []
          end
      else lines_from t (a :: cur)
  end.

Definition splitlines (s : string) : list string := lines_from s [].

(** Decimal digits read from the head of [s]: the accumulated value, the
    number of digits read, and the rest. *)
Fixpoint read_digits (s : string) (acc : Z) (cnt : nat) : Z * nat * string :=
  match s with
  | String a t =>
      if is_digit a
      then read_digits t (10 * acc + Z.of_nat (code a - 48)) (S cnt)
      else (acc, cnt, s)
  | EmptyString => (acc, cnt, s)
  end.

(** An optional sign: [true] for a minus. *)
Definition read_sign (s : string) : bool * string :=
  match s with
  | String a t =>
      if Ascii.eqb a "-" then (true, t)
      else if Ascii.eqb a "+" then (false, t)
      else (false, s)
  | EmptyString => (false, s)
  end.

Definition signed (neg : bool) (z : Z) : Z := if neg then (- z)%Z else z.

(** [m * 10^e] as a reduced fraction. *)
Definition scale10 (mant e : Z) : Q :=
  if (0 <=? e)%Z then Qred (inject_Z (mant * 10 ^ e))
  else Qred (Qmake mant (Z.to_pos (10 ^ (- e)))).

(** The value of a decimal literal [[sign] digits [. digits] [e [sign]
    digits]] with a digit before or after the point; [None] for any other
    text.  (The words [inf] and [nan] and digit-group underscores, which
    [float] also reads, are not produced by any pattern of the module.) *)
Definition decimal_value (s : string) : option Q :=
  let '(neg, s1) := read_sign s in
  let '(ip, ni, s2) := read_digits s1 0%Z 0 in
  let '(mant, nf, s3) :=
    match s2 with
    | String a t => if Ascii.eqb a "." then read_digits t ip 0 else (ip, 0, s2)
    | EmptyString => (ip, 0, s2)
    end in
  if Nat.eqb (ni + nf) 0 then None
  else
    match s3 with
    | EmptyString => Some (scale10 (signed neg mant) (- Z.of_nat nf))
    | String a t =>
        if Ascii.eqb a "e" || Ascii.eqb a "E" then
          let '(eneg, t1) := read_sign t in
          match read_digits t1 0%Z 0 with
          | (_, O, _) => None
          | (ev, _, EmptyString) =>
              Some (scale10 (signed neg mant) (signed eneg ev - Z.of_nat nf))
          | _ => None
          end
        else None
    end.

(** [int(s)] on a string: an optionally signed run of digits, surrounding
    whitespace ignored. *)
Definition int_of_str (s : string) : result Z :=
  let '(neg, s1) := read_sign (strip s) in
  match read_digits s1 0%Z 0 with
  | (_, O, _) => Raise ValueError
  | (v, _, EmptyString) => Ok (signed neg v)
  | _ => Raise ValueError
  end.

(** [int(v)] on a [str] or [None]. *)
Definition py_int (v : option string) : result Z :=
  match v with
  | None => Raise TypeError
  | Some s => int_of_str s
  end.

(** Iterating over a capture: the items of a tuple, the characters of a
    string; [None] is not iterable. *)
Definition chars (s : string) : list string :=
  map (fun a => String a EmptyString) (list_ascii_of_string s).

Definition py_iter (v : pyval) : result (list (option string)) :=
  match v with
  | PNone => Raise TypeError
  | PStr s => Ok (map Some (chars s))
  | PTuple l => Ok l
  end.

(** [item[i]], [item[i:]] and iteration on an item of [findall]. *)
Definition fitem_index (v : fitem) (i : nat) : result string :=
  match nth_error (match v with FStr s => chars s | FTup l => l end) i with
  | Some x => Ok x
  | None => Raise IndexError
  end.

Definition fitem_slice_from (v : fitem) (i : nat) : fitem :=
  match v with
  | FStr s => FStr (string_of_list_ascii (skipn i (list_ascii_of_string s)))
  | FTup l => FTup (skipn i l)
  end.

Definition fitem_iter (v : fitem) : list string :=
  match v with
  | FStr s => chars s
  | FTup l => l
  end.

(** [item.split()]: a tuple has no such method. *)
Definition fitem_split (v : fitem) : result (list string) :=
  match v with
  | FStr s => Ok (str_split s)
  | FTup _ => Raise AttributeError
  end.

(** Insertion-ordered dictionaries. *)
Section Dict.
Context {K V : Type} (K_eq_dec : forall x y : K, {x = y} + {x <> y}).

Definition dict : Type := list (K * V).

Fixpoint dict_get (k : K) (d : dict) : option V :=
  match d with
  | [] => None
  | (k', v) :: t => if K_eq_dec k k' then Some v else dict_get k t
  end.

(** [d[k] = v]: in place for a key already there, else at the end. *)
Fixpoint dict_set (k : K) (v : V) (d : dict) : dict :=
  match d with
  | [] => [(k, v)]
  | (k', v') :: t =>
      if K_eq_dec k k' then (k', v) :: t else (k', v') :: dict_set k v t
  end.

Definition dict_keys (d : dict) : list K := map fst d.
End Dict.
Arguments dict K V : clear implicits.

(** ** chemkin_io/parser/reaction.py *)

Import app.

(** Patterns for the data sections of the reaction block. *)
Definition CHEMKIN_ARROW : re.regex :=
  maybe (escape "<") +> escape "=" +> maybe (escape ">").
Definition CHEMKIN_PLUS_EM : re.regex := PLUS +> escape "M".
Definition CHEMKIN_PAREN_PLUS_EM : re.regex :=
  escape "(" +> PLUS +> escape "M" +> escape ")".

Definition SPECIES_NAME_PATTERN : re.regex :=
  re.Cls (fun a => negb (is_space a || one_of "=+-" a)) +>
  zero_or_more (one_of_these
    [LETTER; DIGIT; escape "(+)"; re.Cls (one_of "#,()-");
     escape "["; escape "]"]) +>
  zero_or_more PLUS.
Definition SPECIES_NAMES_PATTERN : re.regex :=
  series (padded SPECIES_NAME_PATTERN) (padded PLUS).

Definition REACTION_PATTERN : re.regex :=
  SPECIES_NAMES_PATTERN +> padded CHEMKIN_ARROW +> SPECIES_NAMES_PATTERN.
Definition COEFF_PATTERN : re.regex :=
  NUMBER +> LINESPACES +> NUMBER +> LINESPACES +> NUMBER.

Definition _first_line_pattern (rct_ptt prd_ptt coeff_ptt : re.regex)
  : re.regex :=
  rct_ptt +> padded CHEMKIN_ARROW +> prd_ptt +> LINESPACES +> coeff_ptt.

(** The inner function of [_split_reagent_string].  Unpacking [None], the
    capture of a token the pattern does not match, is a [TypeError].  The
    pattern has two groups and both take part in every match, so a match
    gives a pair of strings; the last branch is never taken. *)
Definition _interpret_reagent_count (rgt_cnt_str : string)
  : result (list string) :=
  let _pattern := STRING_START +> capturing (maybe DIGIT) +>
                  capturing (one_or_more NONSPACE) in
  match apf.first_capture _pattern rgt_cnt_str with
  | PNone => Raise TypeError
  | PTuple [Some cnt; Some rgt] =>
      cnt <- (if String.eqb cnt "" then Ok 1%Z else int_of_str cnt) ;;
      let rgts := repeat rgt (Z.to_nat cnt) in
      Ok rgts
  | _ => Raise ValueError
  end.

Definition _split_reagent_string (rgt_str : pyval) : result (list string) :=
  rgt_str <- apf.remove LINESPACES rgt_str ;;
  rgt_str <- apf.remove CHEMKIN_PAREN_PLUS_EM (PStr rgt_str) ;;
  rgt_str <- apf.remove CHEMKIN_PLUS_EM (PStr rgt_str) ;;
  let pattern := PLUS +> not_followed_by PLUS in
  let rgt_cnt_strs := apf.split pattern rgt_str in
  rgts <- mapM _interpret_reagent_count rgt_cnt_strs ;;
  Ok (concat rgts).

Definition reactants_pattern : re.regex :=
  _first_line_pattern (capturing SPECIES_NAMES_PATTERN)
    SPECIES_NAMES_PATTERN COEFF_PATTERN.

Definition reactant_names (rxn_dstr : string) : result (list string) :=
  let str := apf.first_capture reactants_pattern rxn_dstr in
  let names := _split_reagent_string str in
  names.

Definition products_pattern : re.regex :=
  _first_line_pattern SPECIES_NAMES_PATTERN
    (capturing SPECIES_NAMES_PATTERN) COEFF_PATTERN.

Definition product_names (rxn_dstr : string) : result (list string) :=
  let str := apf.first_capture products_pattern rxn_dstr in
  let names := _split_reagent_string str in
  names.

Definition high_p_pattern : re.regex :=
  _first_line_pattern SPECIES_NAMES_PATTERN SPECIES_NAMES_PATTERN
    (capturing COEFF_PATTERN).

Definition low_p_pattern : re.regex :=
  escape "LOW" +>
  zero_or_more SPACE +> escape "/" +>
  SPACES +> capturing NUMBER +>
  SPACES +> capturing NUMBER +>
  SPACES +> capturing NUMBER +>
  zero_or_more SPACE +> escape "/".

Definition troe_pattern1 : re.regex :=
  escape "TROE" +>
  zero_or_more SPACE +> escape "/" +>
  SPACES +> capturing NUMBER +>
  SPACES +> capturing NUMBER +>
  SPACES +> capturing NUMBER +>
  SPACES +> maybe (capturing NUMBER) +>
  zero_or_more SPACE +> escape "/".

Definition troe_pattern2 : re.regex :=
  escape "TROE" +>
  zero_or_more SPACE +> escape "/" +>
  SPACES +> capturing NUMBER +>
  SPACES +> capturing NUMBER +>
  SPACES +> capturing NUMBER +>
  zero_or_more SPACE +> escape "/".

Definition temp_pattern : re.regex :=
  escape "TCHEB" +> zero_or_more SPACE +> escape "/" +>
  SPACES +> capturing FLOAT +>
  SPACES +> capturing FLOAT +>
  zero_or_more SPACE +> escape "/".

Definition pressure_pattern : re.regex :=
  escape "PCHEB" +> zero_or_more SPACE +> escape "/" +>
  SPACES +> capturing FLOAT +>
  SPACES +> capturing FLOAT +>
  zero_or_more SPACE +> escape "/".

Definition alpha_dimension_pattern : re.regex :=
  escape "CHEB" +> zero_or_more SPACE +> escape "/" +>
  SPACES +> capturing INTEGER +>
  SPACES +> capturing INTEGER +>
  zero_or_more SPACE +> escape "/".

Definition alpha_elements_pattern : re.regex :=
  escape "CHEB" +> zero_or_more SPACE +> escape "/" +>
  series (capturing (SPACES +> capturing EXPONENTIAL_FLOAT)) SPACES +>
  zero_or_more SPACE +> escape "/".

Definition plog_pattern : re.regex :=
  escape "PLOG" +>
  zero_or_more SPACE +> escape "/" +>
  zero_or_more SPACE +> capturing NUMBER +>
  one_or_more SPACE +> capturing NUMBER +>
  one_or_more SPACE +> capturing NUMBER +>
  one_or_more SPACE +> capturing NUMBER +>
  zero_or_more SPACE +> escape "/".

(** In [buffer_enhance_factors]. *)
Definition first_str : re.regex :=
  _first_line_pattern SPECIES_NAMES_PATTERN SPECIES_NAMES_PATTERN
    COEFF_PATTERN.
Definition bad_strings : list re.regex :=
  [escape "DUP"; escape "LOW"; escape "TROE"; escape "CHEB"; escape "PLOG";
   first_str].
Definition species_char : re.regex :=
  one_of_these [LETTER; DIGIT; escape "("; escape ")"; UNDERSCORE].
Definition species_name : re.regex := one_or_more species_char.
Definition factor_pattern : re.regex :=
  capturing species_name +>
  escape "/" +> maybe SPACE +>
  capturing NUMBER +>
  escape "/".

(** The Chebyshev record built by [chebyshev_parameters]. *)
Record cheb_params (F : Type) : Type := mkCheb
  { t_limits : list F;
    p_limits : list F;
    alpha_dim : list Z;
    alpha_elm : list (list F) }.
Arguments mkCheb {F}.
Arguments t_limits {F}.
Arguments p_limits {F}.
Arguments alpha_dim {F}.
Arguments alpha_elm {F}.

(** The key of [data_dct]: the reactant and the product names. *)
Definition rxn_key : Type := (list string * list string)%type.

Definition rxn_key_eq_dec (x y : rxn_key) : {x = y} + {x <> y}.
Proof.
  decide equality; apply (list_eq_dec string_dec).
Defined.

Section Reaction.

(** Floats are the values [rnd q] of a type [F] with decidable equality,
    [rnd] standing for the rounding of the rational [q] a literal denotes
    to the nearest float.  Nothing below depends on how it rounds. *)
Context {F : Type} (rnd : Q -> F)
        (F_eq_dec : forall x y : F, {x = y} + {x <> y}).

(** [autoparse.cast], applied to each word of a coefficient line. *)
Context {V : Type} (ap_cast : string -> V).

(** [chemkin_io.parser.util.headlined_sections]. *)
Variable headlined_sections : string -> re.regex -> list string.

(** [float(s)] on a string, surrounding whitespace ignored. *)
Definition float_of_str (s : string) : result F :=
  match decimal_value (strip s) with
  | Some q => Ok (rnd q)
  | None => Raise ValueError
  end.

(** [float(v)] on a [str] or [None]. *)
Definition py_float (v : option string) : result F :=
  match v with
  | None => Raise TypeError
  | Some s => float_of_str s
  end.

Definition data_strings (block_str : string) : list string :=
  headlined_sections (strip block_str) CHEMKIN_ARROW.

(** The loop body of [data_dct]. *)
Definition data_dct_step (rxn_dct : dict rxn_key string) (str : string)
  : result (dict rxn_key string) :=
  rct_names <- reactant_names str ;;
  prd_names <- product_names str ;;
  let key := (rct_names, prd_names) in
  match dict_get rxn_key_eq_dec key rxn_dct with
  | None => Ok (dict_set rxn_key_eq_dec key str rxn_dct)
  | Some old =>
      Ok (dict_set rxn_key_eq_dec key (old +++ newline +++ str) rxn_dct)
  end.

(** [data_dct(block_str)], with [data_entry='strings']. *)
Definition data_dct (block_str : string) : result (dict rxn_key string) :=
  let rxn_dstr_lst := data_strings block_str in
  foldM data_dct_step rxn_dstr_lst [].

Definition high_p_parameters (rxn_dstr : string)
  : result (option (list (list V))) :=
  let string_lst := apf.all_captures high_p_pattern rxn_dstr in
  match string_lst with
  | [] => Ok None
  | _ =>
      params <- mapM (fun str =>
                        words <- fitem_split str ;;
                        Ok (map ap_cast words)) string_lst ;;
      Ok (Some params)
  end.

Definition low_p_parameters (rxn_dstr : string)
  : result (option (list (list F))) :=
  let cap1 := apf.first_capture low_p_pattern rxn_dstr in
  match cap1 with
  | PNone => Ok None
  | _ =>
      vals <- py_iter cap1 ;;
      params <- mapM py_float vals ;;
      Ok (Some [params])
  end.

(** The result lists floats; the 3-parameter branch appends [None]. *)
Definition troe_parameters (rxn_dstr : string)
  : result (option (list (option F))) :=
  let cap1 := apf.first_capture troe_pattern1 rxn_dstr in
  let cap2 := apf.first_capture troe_pattern2 rxn_dstr in
  match cap1 with
  | PNone =>
      match cap2 with
      | PNone => Ok None
      | _ =>
          vals <- py_iter cap2 ;;
          params <- mapM py_float vals ;;
          Ok (Some (map Some params ++ [None]))
      end
  | _ =>
      vals <- py_iter cap1 ;;
      params <- mapM py_float vals ;;
      Ok (Some (map Some params))
  end.

Definition chebyshev_parameters (rxn_dstr : string)
  : result (option (cheb_params F)) :=
  let cheb_temps := apf.first_capture temp_pattern rxn_dstr in
  let cheb_pressures := apf.first_capture pressure_pattern rxn_dstr in
  let alpha_dims := apf.first_capture alpha_dimension_pattern rxn_dstr in
  let alpha_elm := apf.all_captures alpha_elements_pattern rxn_dstr in
  match cheb_temps, cheb_pressures, alpha_dims, alpha_elm with
  | PNone, _, _, _ | _, PNone, _, _ | _, _, PNone, _ | _, _, _, [] =>
      Ok None
  | _, _, _, _ =>
      ts <- (vals <- py_iter cheb_temps ;; mapM py_float vals) ;;
      ps <- (vals <- py_iter cheb_pressures ;; mapM py_float vals) ;;
      ds <- (vals <- py_iter alpha_dims ;; mapM py_int vals) ;;
      es <- mapM (fun row => mapM float_of_str (fitem_iter row)) alpha_elm ;;
      Ok (Some (mkCheb ts ps ds es))
  end.

(** The loop body of [plog_parameters]. *)
Definition plog_step (params_dct : dict F (list (list F))) (params : fitem)
  : result (dict F (list (list F))) :=
  pressure <- (p <- fitem_index params 0 ;; float_of_str p) ;;
  vals <- mapM float_of_str (fitem_iter (fitem_slice_from params 1)) ;;
  match dict_get F_eq_dec pressure params_dct with
  | None => Ok (dict_set F_eq_dec pressure [vals] params_dct)
  | Some old => Ok (dict_set F_eq_dec pressure (old ++ [vals]) params_dct)
  end.

Definition plog_parameters (rxn_dstr : string)
  : result (option (dict F (list (list F)))) :=
  let params_lst := apf.all_captures plog_pattern rxn_dstr in
  match params_lst with
  | [] => Ok None
  | _ =>
      params_dct <- foldM plog_step params_lst [] ;;
      Ok (Some params_dct)
  end.

(** [factors[bath[0]] = float(bath[1])] *)
Definition bath_step (factors : dict string F) (bath : fitem)
  : result (dict string F) :=
  name <- fitem_index bath 0 ;;
  val <- (v <- fitem_index bath 1 ;; float_of_str v) ;;
  Ok (dict_set string_dec name val factors).

(** The body of the loop over the lines: a line on which no string of
    [bad_strings] matches and that holds pairs starts a new dictionary. *)
Definition line_step (factors : option (dict string F)) (line : string)
  : result (option (dict string F)) :=
  if negb (existsb (fun str => apf.has_match str line) bad_strings)
  then
    let baths := apf.all_captures factor_pattern line in
    match baths with
    | [] => Ok factors
    | _ =>
        factors <- foldM bath_step baths [] ;;
        Ok (Some factors)
    end
  else Ok factors.

Definition buffer_enhance_factors (rxn_dstr : string)
  : result (option (dict string F)) :=
  let factors := None in
  if apf.has_match (escape "LOW") rxn_dstr
     || apf.has_match (escape "TROE") rxn_dstr
  then foldM line_step (splitlines rxn_dstr) factors
  else Ok factors.

End Reaction.

(** ** chemkin_io/parser/reaction.py: [data_block] and [ratek_fit_info] *)

(** One item of [data_block]: the 8-tuple of what the extractors return for
    an entry, in the order of the call to [zip]. *)
Record rxn_data (F V : Type) : Type := mkRxnData
  { rd_reactants : list string;
    rd_products : list string;
    rd_high_p : option (list (list V));
    rd_low_p : option (list (list F));
    rd_troe : option (list (option F));
    rd_chebyshev : option (cheb_params F);
    rd_plog : option (dict F (list (list F)));
    rd_buffer : option (dict string F) }.
Arguments mkRxnData {F V}.
Arguments rd_reactants {F V}.
Arguments rd_products {F V}.
Arguments rd_high_p {F V}.
Arguments rd_low_p {F V}.
Arguments rd_troe {F V}.
Arguments rd_chebyshev {F V}.
Arguments rd_plog {F V}.
Arguments rd_buffer {F V}.

(** In [ratek_fit_info]. *)
Definition trange_ptt : re.regex :=
  escape "TempRange: " +>
  capturing INTEGER +> escape "-" +> capturing INTEGER +>
  escape " K".
Definition mean_ptt : re.regex :=
  escape "MeanAbsErr:" +> SPACES +>
  capturing FLOAT +> escape "%" +>
  escape ",".
Definition max_ptt : re.regex :=
  escape "MaxErr:" +> SPACES +>
  capturing FLOAT +> escape "%" +>
  escape ",".

(** What [inf_dct] would map a pressure to: a temperature range and two
    errors. *)
Definition fit_info (F : Type) : Type := ((Z * Z) * F * F)%type.

Section ReactionRest.

Context {F : Type} (rnd : Q -> F)
        (F_eq_dec : forall x y : F, {x = y} + {x <> y}).
Context {V : Type} (ap_cast : string -> V).
Variable headlined_sections : string -> re.regex -> list string.

(** What [zip] pulls out of its eight [map] iterators for one entry: the
    iterators are lazy and are advanced one after the other, so the
    extractors run on an entry in the order of the arguments, and on the
    next entry after that. *)
Definition data_block_item (rxn_dstr : string) : result (rxn_data F V) :=
  rct <- reactant_names rxn_dstr ;;
  prd <- product_names rxn_dstr ;;
  high <- high_p_parameters ap_cast rxn_dstr ;;
  low <- low_p_parameters rnd rxn_dstr ;;
  troe <- troe_parameters rnd rxn_dstr ;;
  cheb <- chebyshev_parameters rnd rxn_dstr ;;
  plog <- plog_parameters rnd F_eq_dec rxn_dstr ;;
  buf <- buffer_enhance_factors rnd rxn_dstr ;;
  Ok (mkRxnData rct prd high low troe cheb plog buf).

Definition data_block (block_str : string) : result (list (rxn_data F V)) :=
  let rxn_dstr_lst := data_strings headlined_sections block_str in
  let rxn_dat_lst := mapM data_block_item rxn_dstr_lst in
  rxn_dat_lst.

(** [float(val)] on an item of [findall]. *)
Definition fitem_float (val : fitem) : result F :=
  match val with
  | FStr s => float_of_str rnd s
  | FTup _ => Raise TypeError
  end.

(** The body of the first loop: [temp1, temp2 = cap] needs two items, and
    [trange_vals.apppend] is not an attribute of a list; the attribute is
    looked up before the arguments of the call are evaluated. *)
Definition trange_step (trange_vals : list (Z * Z)) (cap : fitem)
  : result (list (Z * Z)) :=
  match fitem_iter cap with
  | [temp1; temp2] => Raise AttributeError
  | _ => Raise ValueError
  end.

(** The body of the last loop: [for idx, pressure in max_vals] unpacks a
    float, which is not iterable; what follows the unpacking is never
    reached. *)
Definition inf_step (inf_dct : dict F (fit_info F)) (item : F)
  : result (dict F (fit_info F)) :=
  Raise TypeError.

Definition ratek_fit_info (rxn_dstr : string)
  : result (dict F (fit_info F)) :=
  let trange_caps := apf.all_captures trange_ptt rxn_dstr in
  let mean_caps := apf.all_captures mean_ptt rxn_dstr in
  let max_caps := apf.all_captures max_ptt rxn_dstr in
  trange_vals <- foldM trange_step trange_caps [] ;;
  mean_vals <- mapM fitem_float mean_caps ;;
  max_vals <- mapM fitem_float max_caps ;;
  let inf_dct := [] in
  inf_dct <- foldM inf_step max_vals inf_dct ;;
  Ok inf_dct.

End ReactionRest.

(** ** Notions used in the statements *)

(** Every character of [s] satisfies [P]. *)
Fixpoint all_chars (P : ascii -> bool) (s : string) : bool :=
  match s with
  | EmptyString => true
  | String a t => P a && all_chars P t
  end.

(** Every character class of [r] that can consume input lies within [P]. *)
Fixpoint cls_ok (P : ascii -> bool) (r : re.regex) : Prop :=
  match r with
  | re.Cls f => forall a, f a = true -> P a = true
  | re.Seq r1 r2 | re.Alt r1 r2 => cls_ok P r1 /\ cls_ok P r2
  | re.Star r1 | re.Plus r1 | re.Cap r1 => cls_ok P r1
  | re.Eps | re.NotFollowedBy _ | re.StringStart => True
  end.

(** The same, decided by running through the 256 characters. *)
Definition all_ascii : list ascii := map ascii_of_nat (seq 0 256).

Fixpoint cls_okb (P : ascii -> bool) (r : re.regex) : bool :=
  match r with
  | re.Cls f => forallb (fun a => implb (f a) (P a)) all_ascii
  | re.Seq r1 r2 | re.Alt r1 r2 => cls_okb P r1 && cls_okb P r2
  | re.Star r1 | re.Plus r1 | re.Cap r1 => cls_okb P r1
  | re.Eps | re.NotFollowedBy _ | re.StringStart => true
  end.

Definition no_linebreak (a : ascii) : bool := negb (is_linebreak a).

(** The subject put together again from the matches of a scan. *)
Definition rebuild (fs : list re.found) (tl : string) : string :=
  fold_right (fun f acc => re.f_before f +++ re.f_match f +++ acc) tl fs.

(** The text of group 1 of a match, as [findall] reports it. *)
Definition group1 (f : re.found) : string :=
  match hd None (re.f_caps f) with
  | Some g => g
  | None => ""
  end.

(** A successful run from [s]: a prefix [w] of [P]-characters was consumed
    and the continuation succeeded on the rest. *)
Definition sound_run (P : ascii -> bool) {R} (s : string)
  (k : string -> re.caps -> option R) (x : R) : Prop :=
  exists w s' c', s = w +++ s' /\ all_chars P w = true /\ k s' c' = Some x.

(** A rounding to evaluate examples with: the rational itself. *)
Definition exact (q : Q) : Q := q.

Definition Q_eq_dec (x y : Q) : {x = y} + {x <> y}.
Proof.
  decide equality; [apply Pos.eq_dec | apply Z.eq_dec].
Defined.

(** The four blocks [chebyshev_parameters] looks for. *)
Definition cheb_all_present (s : string) : Prop :=
  apf.first_capture temp_pattern s <> PNone
  /\ apf.first_capture pressure_pattern s <> PNone
  /\ apf.first_capture alpha_dimension_pattern s <> PNone
  /\ apf.all_captures alpha_elements_pattern s <> [].

(** Grouping by key, as the loops of [plog_parameters] and [data_dct] do:
    a new key starts with [init a], a key already there goes on with
    [add old a]. *)
Section Grouping.
Context {K A V : Type} (K_eq_dec : forall x y : K, {x = y} + {x <> y})
        (init : A -> V) (add : V -> A -> V).

Definition group_step (d : dict K V) (ka : K * A) : dict K V :=
  match dict_get K_eq_dec (fst ka) d with
  | None => dict_set K_eq_dec (fst ka) (init (snd ka)) d
  | Some old => dict_set K_eq_dec (fst ka) (add old (snd ka)) d
  end.

Definition group_all (l : list (K * A)) (d : dict K V) : dict K V :=
  fold_left group_step l d.

(** The items of key [k], in the order of the list. *)
Definition items_at (k : K) (l : list (K * A)) : list A :=
  map snd (filter (fun ka => if K_eq_dec k (fst ka) then true else false) l).

(** What the items of a key add up to, from [acc]. *)
Definition gathered (acc : option V) (items : list A) : option V :=
  fold_left (fun acc a => Some match acc with
                               | None => init a
                               | Some old => add old a
                               end) items acc.

(** The distinct keys of [l] not in [seen], by first occurrence. *)
Fixpoint first_seen (seen : list K) (l : list K) : list K :=
  match l with
  | [] => []
  | k :: t =>
      if in_dec K_eq_dec k seen then first_seen seen t
      else k :: first_seen (seen ++ [k]) t
  end.
End Grouping.

(** [s1 '\n' s2 '\n' ... sn] *)
Fixpoint join_lines (l : list string) : string :=
  match l with
  | [] => ""
  | [x] => x
  | x :: t => x +++ newline +++ join_lines t
  end.

(** One block captured by [plog_parameters]: its pressure and its values. *)
Definition plog_block {F : Type} (rnd : Q -> F) (params : fitem)
  : result (F * list F) :=
  pressure <- (p <- fitem_index params 0 ;; float_of_str rnd p) ;;
  vals <- mapM (float_of_str rnd) (fitem_iter (fitem_slice_from params 1)) ;;
  Ok (pressure, vals).

(** The key [data_dct] files an entry under. *)
Definition rxn_key_of (str : string) : result rxn_key :=
  rct_names <- reactant_names str ;;
  prd_names <- product_names str ;;
  Ok (rct_names, prd_names).

(** One pair captured by [buffer_enhance_factors]. *)
Definition bath_pair {F : Type} (rnd : Q -> F) (bath : fitem)
  : result (string * F) :=
  name <- fitem_index bath 0 ;;
  val <- (v <- fitem_index bath 1 ;; float_of_str rnd v) ;;
  Ok (name, val).

(** The pairs the loop of [buffer_enhance_factors] reads on a line: none on
    a line that one of [bad_strings] matches. *)
Definition line_baths (line : string) : list fitem :=
  if negb (existsb (fun str => apf.has_match str line) bad_strings)
  then apf.all_captures factor_pattern line
  else [].

(** Example entries with a LOW block and efficiency factors on more than
    one line. *)
Definition two_factor_lines_entry : string :=
  "A+B(+M)=C(+M) 1 0 0" +++ newline +++ " LOW / 1 2 3 /" +++ newline +++
  " H2/2.0/ AR/0.7/" +++ newline +++ " O2/3.0/".

Definition falloff_entry : string :=
  "A+B(+M)=C(+M) 1 0 0" +++ newline +++ " LOW / 1 2 3 /" +++ newline +++
  " H2/2.0/ AR/0.7/" +++ newline +++ " O2/3.0/ O2/ 4/ N2/1.5/" +++
  newline +++ " DUP".

(** Example entries with Chebyshev blocks: a complete one, and one whose
    PCHEB block is missing. *)
Definition cheb_entry : string :=
  "A=B 1 2 3" +++ newline +++ " TCHEB / 300.0 2000.0 /" +++ newline +++
  " PCHEB / 0.01 100.0 /" +++ newline +++ " CHEB / 2 2 /" +++ newline +++
  " CHEB / 1.0E+00  2.0E+00 /" +++ newline +++ " CHEB / 3.0E+00  4.0E+00 /".

Definition cheb_entry_without_pcheb : string :=
  "A=B 1 2 3" +++ newline +++ " TCHEB / 300.0 2000.0 /" +++ newline +++
  " CHEB / 2 2 /" +++ newline +++
  " CHEB / 1.0E+00  2.0E+00 /" +++ newline +++ " CHEB / 3.0E+00  4.0E+00 /".

(** Reagent strings, for the statement about [_split_reagent_string]. *)






Definition nonspace (a : ascii) : bool := negb (is_space a).

Definition starts_with (P : ascii -> bool) (s : string) : bool :=
  match s with
  | String a _ => P a
  | EmptyString => false
  end.









(** [r] without its groups. *)
Fixpoint erase (r : re.regex) : re.regex :=
  match r with
  | re.Cap r1 => erase r1
  | re.Seq r1 r2 => re.Seq (erase r1) (erase r2)
  | re.Alt r1 r2 => re.Alt (erase r1) (erase r2)
  | re.Star r1 => re.Star (erase r1)
  | re.Plus r1 => re.Plus (erase r1)
  | re.NotFollowedBy r1 => re.NotFollowedBy (erase r1)
  | re.Eps | re.Cls _ | re.StringStart => r
  end.

(** Two continuations that fail on the same texts. *)
Definition same_failures {R R'} (k : string -> re.caps -> option R)
  (k' : string -> re.caps -> option R') : Prop :=
  forall s c c', k s c = None <-> k' s c' = None.

(** Two continuations that agree on the texts no longer than [s]. *)
Definition agree_upto {R} (s : string) (k1 k2 : string -> re.caps -> option R)
  : Prop :=
  forall s1 c1, String.length s1 <= String.length s -> k1 s1 c1 = k2 s1 c1.

(** The texts a pattern can consume; a lookahead and an anchor consume
    nothing. *)
Inductive lang : re.regex -> string -> Prop :=
| lang_eps : lang re.Eps ""
| lang_cls f a : f a = true -> lang (re.Cls f) (String a "")
| lang_seq r1 r2 w1 w2 :
    lang r1 w1 -> lang r2 w2 -> lang (re.Seq r1 r2) (w1 +++ w2)
| lang_alt_l r1 r2 w : lang r1 w -> lang (re.Alt r1 r2) w
| lang_alt_r r1 r2 w : lang r2 w -> lang (re.Alt r1 r2) w
| lang_star_nil r : lang (re.Star r) ""
| lang_star_cons r w1 w2 :
    lang r w1 -> lang (re.Star r) w2 -> lang (re.Star r) (w1 +++ w2)
| lang_plus r w1 w2 :
    lang r w1 -> lang (re.Star r) w2 -> lang (re.Plus r) (w1 +++ w2)
| lang_cap r w : lang r w -> lang (re.Cap r) w
| lang_not_followed_by r : lang (re.NotFollowedBy r) ""
| lang_string_start : lang re.StringStart "".

(** [false] for a pattern that consumes at least one character. *)
Fixpoint nullable (r : re.regex) : bool :=
  match r with
  | re.Cls _ => false
  | re.Seq r1 r2 => nullable r1 && nullable r2
  | re.Alt r1 r2 => nullable r1 || nullable r2
  | re.Plus r1 | re.Cap r1 => nullable r1
  | re.Eps | re.Star _ | re.NotFollowedBy _ | re.StringStart => true
  end.

(** A successful run from [s] with groups [c]: a text of the pattern was
    consumed, the groups are as many as before, and the continuation
    succeeded. *)
Definition lang_run (r : re.regex) {R} (s : string) (c : re.caps)
  (k : string -> re.caps -> option R) (x : R) : Prop :=
  exists w s' c',
    s = w +++ s' /\ lang r w /\ length c' = length c /\ k s' c' = Some x.

(** The group of number [j] holds a text of [body]. *)
Definition cap_holds (j : nat) (body : re.regex) (c : re.caps) : Prop :=
  exists w, nth_error c j = Some (Some w) /\ lang body w.

(** The groups that take part in every match of a pattern, each with its
    position among the groups of the pattern and its body: the groups met
    on the way through sequences and groups, outside alternatives,
    repetitions and lookaheads. *)
Fixpoint sure_caps (r : re.regex) : list (nat * re.regex) :=
  match r with
  | re.Cap body =>
      (0, body) :: map (fun jb => (S (fst jb), snd jb)) (sure_caps body)
  | re.Seq r1 r2 =>
      sure_caps r1
      ++ map (fun jb => (re.ngroups r1 + fst jb, snd jb)) (sure_caps r2)
  | _ => []
  end.

(** The groups [c'] are as many as [c] and the same outside the numbers
    from [i] to [j - 1]. *)
Definition frame (i j : nat) (c c' : re.caps) : Prop :=
  length c' = length c
  /\ forall p, p < i \/ j <= p -> nth_error c' p = nth_error c p.

(** The groups of [l], numbered from [i], hold texts of their bodies. *)
Definition caps_hold (i : nat) (l : list (nat * re.regex)) (c : re.caps)
  : Prop :=
  Forall (fun jb => cap_holds (i + fst jb) (snd jb) c) l.

(** A successful run of a pattern whose groups are numbered from [i]. *)
Definition groups_run (r : re.regex) (i : nat) {R} (s : string)
  (c : re.caps) (k : string -> re.caps -> option R) (x : R) : Prop :=
  exists w s' c',
    s = w +++ s' /\ lang r w /\ frame i (i + re.ngroups r) c c'
    /\ caps_hold i (sure_caps r) c' /\ k s' c' = Some x.

(** The texts of the patterns for numbers: an optional sign, digits with an
    optional point and more digits, an optional exponent.  [nf] is the
    number of digits after the point. *)
Definition is_exp_char (a : ascii) : bool :=
  Ascii.eqb a "e" || Ascii.eqb a "E".

Definition sign_text (sg : string) : Prop :=
  sg = "" \/ sg = "+" \/ sg = "-".

Definition frac_text (fr : string) (nf : nat) : Prop :=
  (fr = "" /\ nf = 0)
  \/ exists d,
       fr = String "." d /\ all_chars is_digit d = true
       /\ nf = String.length d.

Definition exp_text (ex : string) : Prop :=
  ex = ""
  \/ exists a sg d,
       ex = String a (sg +++ d) /\ is_exp_char a = true /\ sign_text sg
       /\ all_chars is_digit d = true /\ d <> "".

Definition number_text (w : string) : Prop :=
  exists sg d fr nf ex,
    w = sg +++ d +++ fr +++ ex
    /\ sign_text sg /\ all_chars is_digit d = true /\ frac_text fr nf
    /\ exp_text ex /\ String.length d + nf <> 0.

(** All the groups of a pattern, each with its position among the groups
    of the pattern and its body. *)
Fixpoint all_caps (r : re.regex) : list (nat * re.regex) :=
  match r with
  | re.Cap body =>
      (0, body) :: map (fun jb => (S (fst jb), snd jb)) (all_caps body)
  | re.Seq r1 r2 | re.Alt r1 r2 =>
      all_caps r1
      ++ map (fun jb => (re.ngroups r1 + fst jb, snd jb)) (all_caps r2)
  | re.Star r1 | re.Plus r1 | re.NotFollowedBy r1 => all_caps r1
  | re.Eps | re.Cls _ | re.StringStart => []
  end.

(** Every group that is set holds a text of a body that [G] gives it. *)
Definition caps_valid (G : list (nat * re.regex)) (c : re.caps) : Prop :=
  forall p w,
    nth_error c p = Some (Some w) -> exists body, In (p, body) G /\ lang body w.

(** Two nested groups as in [(\s+(x))]: the outer group holds the text of
    the inner one after whitespace. *)
Definition padded_pair (x y : option string) : Prop :=
  exists l w,
    x = Some (l +++ w) /\ y = Some w
    /\ all_chars is_space l = true /\ lang EXPONENTIAL_FLOAT w.

(** The groups of a match of [alpha_elements_pattern]: the pair of the
    first coefficient, and the pair of the last repetition, if any. *)
Definition cheb_row_caps (c : re.caps) : Prop :=
  exists x0 x1 x2 x3,
    c = [x0; x1; x2; x3]
    /\ padded_pair x0 x1
    /\ ((x2 = None /\ x3 = None) \/ padded_pair x2 x3).

(** The key of a record of [data_block]. *)
Definition rd_key {F V : Type} (r : rxn_data F V) : rxn_key :=
  (rd_reactants r, rd_products r).

(** A stand-in for [headlined_sections] to evaluate examples with: the
    lines of the block. *)
Definition by_lines (s : string) (headline : re.regex) : list string :=
  splitlines s.

(** Example blocks: two entries with one key and one with another, and a
    block whose second entry has no coefficients. *)
Definition three_entry_block : string :=
  "H+O2=OH+O 1.0E+10 0.5 100." +++ newline +++
  "2OH=H2O+O 3 4 5" +++ newline +++ "H+O2=OH+O 2.0E+10 0.7 200.".

Definition unmatched_entry_block : string :=
  "H+O2=OH+O 1.0E+10 0.5 100." +++ newline +++ "2OH=H2O+O" +++ newline +++
  "H+O2=OH+O 2.0E+10 0.7 200.".

(** A Chebyshev entry whose coefficient line holds one coefficient. *)
Definition single_coefficient_entry : string :=
  "A=B 1 2 3" +++ newline +++ " TCHEB / 300.0 2000.0 /" +++ newline +++
  " PCHEB / 0.01 100.0 /" +++ newline +++ " CHEB / 1 1 /" +++ newline +++
  " CHEB / 1.0E+00 /".

(** Another stand-in: the block as a single entry. *)
Definition one_entry (s : string) (headline : re.regex) : list string := [s].

(** The coefficients of a CHEB line, each with the whitespace before it,
    and the line: the keyword, a slash, the coefficients, a slash. *)
Fixpoint coeff_run (cs : list (string * string)) : string :=
  match cs with
  | [] => ""
  | lc :: t => fst lc +++ snd lc +++ coeff_run t
  end.

Definition cheb_line (sp0 : string) (cs : list (string * string))
  (sp1 : string) : string :=
  "CHEB" +++ sp0 +++ "/" +++ coeff_run cs +++ sp1 +++ "/".

(** A coefficient: whitespace, then a text of the pattern for floats with
    an exponent. *)
Definition coeff_ok (lc : string * string) : Prop :=
  fst lc <> "" /\ all_chars is_space (fst lc) = true
  /\ lang EXPONENTIAL_FLOAT (snd lc).

(** The groups of a match on a line with the coefficients [cs]: the first
    coefficient with its whitespace and alone, then nothing when it is
    the only one, and otherwise the last coefficient after some of its
    whitespace and alone. *)
Definition cheb_line_caps (cs : list (string * string)) (c : re.caps)
  : Prop :=
  exists l1 c1 t x2 x3,
    cs = (l1, c1) :: t
    /\ c = [Some (l1 +++ c1); Some c1; x2; x3]
    /\ (t = [] -> x2 = None /\ x3 = None)
    /\ (t <> [] ->
        exists pad,
          all_chars is_space pad = true
          /\ x2 = Some (pad +++ last (map snd t) "")
          /\ x3 = Some (last (map snd t) "")).

(** An entry whose coefficient line holds three coefficients. *)
Definition three_coefficient_entry : string :=
  "A=B 1 2 3" +++ newline +++ " TCHEB / 300.0 2000.0 /" +++ newline +++
  " PCHEB / 0.01 100.0 /" +++ newline +++ " CHEB / 3 1 /" +++ newline +++
  " CHEB / 1.0E+00  2.0E+00  5.0E+00 /".


(** * Properties *)

(** ** Strings *)

Lemma append_nil_r s : s +++ "" = s.
Proof. induction s; simpl; congruence. Qed.

Lemma append_assoc s1 s2 s3 : (s1 +++ s2) +++ s3 = s1 +++ s2 +++ s3.
Proof. induction s1; simpl; congruence. Qed.

Lemma length_append s1 s2 :
  String.length (s1 +++ s2) = String.length s1 + String.length s2.
Proof. induction s1; simpl; congruence. Qed.

Lemma all_chars_append P s1 s2 :
  all_chars P (s1 +++ s2) = all_chars P s1 && all_chars P s2.
Proof.
  induction s1; simpl; [reflexivity|]. rewrite IHs1. apply andb_assoc.
Qed.

Lemma take_append w s : re.take (String.length w) (w +++ s) = w.
Proof. induction w; simpl; [destruct s; reflexivity | congruence]. Qed.

Lemma consumed_append w s : re.consumed (w +++ s) s = w.
Proof.
  unfold re.consumed. rewrite length_append.
  replace (String.length w + String.length s - String.length s)
    with (String.length w) by lia.
  apply take_append.
Qed.

(** ** The matcher consumes a prefix made of the characters of its classes *)

Section Sound.
Variable P : ascii -> bool.

Local Abbreviation sound_run := (sound_run P).

Lemma rep_sound {R}
  (body : string -> re.caps -> (string -> re.caps -> option R) -> option R)
  (k : string -> re.caps -> option R) :
  (forall s c k' x, body s c k' = Some x -> sound_run s k' x) ->
  forall fuel s c x, re.rep body k fuel s c = Some x -> sound_run s k x.
Proof.
  intros Hb. induction fuel as [|fuel IH]; intros s c x H; simpl in H.
  - exists "", s, c. auto.
  - destruct (body s c _) as [y|] eqn:E.
    + inversion H; subst y; clear H.
      apply Hb in E. destruct E as (w1 & s1 & c1 & -> & Hw1 & Hk).
      destruct (Nat.ltb _ _); [|discriminate].
      apply IH in Hk. destruct Hk as (w2 & s2 & c2 & -> & Hw2 & Hk).
      exists (w1 +++ w2), s2, c2.
      rewrite append_assoc, all_chars_append, Hw1, Hw2. auto.
    + exists "", s, c. auto.
Qed.

Lemma m_sound r : cls_ok P r ->
  forall R n i s c (k : string -> re.caps -> option R) x,
    re.m n r i s c k = Some x -> sound_run s k x.
Proof.
  induction r as [|f|r1 IH1 r2 IH2|r1 IH1 r2 IH2|r1 IH1|r1 IH1|r1 IH1|r1 IH1|];
    intros Hok R n i s c k x H; cbn [re.m cls_ok] in *.
  - exists "", s, c. auto.
  - destruct s as [|a t]; [discriminate|].
    destruct (f a) eqn:Ef; [|discriminate].
    exists (String a ""), t, c. simpl. rewrite (Hok a Ef). auto.
  - destruct Hok as [Hok1 Hok2].
    apply (IH1 Hok1) in H. destruct H as (w1 & s1 & c1 & -> & Hw1 & H).
    apply (IH2 Hok2) in H. destruct H as (w2 & s2 & c2 & -> & Hw2 & H).
    exists (w1 +++ w2), s2, c2.
    rewrite append_assoc, all_chars_append, Hw1, Hw2. auto.
  - destruct Hok as [Hok1 Hok2].
    destruct (re.m n r1 i s c k) as [y|] eqn:E.
    + inversion H; subst y. eapply IH1; eauto.
    + eapply IH2; eauto.
  - eapply rep_sound; [|exact H]. intros; eapply IH1; eauto.
  - apply (IH1 Hok) in H. destruct H as (w1 & s1 & c1 & -> & Hw1 & H).
    eapply rep_sound in H; [|intros; eapply IH1; eauto].
    destruct H as (w2 & s2 & c2 & -> & Hw2 & H).
    exists (w1 +++ w2), s2, c2.
    rewrite append_assoc, all_chars_append, Hw1, Hw2. auto.
  - apply (IH1 Hok) in H. destruct H as (w1 & s1 & c1 & -> & Hw1 & H).
    exists w1, s1, (re.set_cap i (re.consumed (w1 +++ s1) s1) c1). auto.
  - destruct (re.m n r1 i s c _); [discriminate|]. exists "", s, c. auto.
  - destruct (Nat.eqb _ _); [|discriminate]. exists "", s, c. auto.
Qed.

Lemma match_at_sound r : cls_ok P r -> forall n s s' c',
  re.match_at n r s = Some (s', c') ->
  s = re.consumed s s' +++ s' /\ all_chars P (re.consumed s s') = true.
Proof.
  intros Hok n s s' c' E.
  apply (m_sound r Hok) in E. destruct E as (w & s1 & c1 & Hs & Hw & Hk).
  inversion Hk; subst s1 c1 s. rewrite consumed_append. auto.
Qed.

(** A match splits the subject in three and is made of [P]-characters. *)
Lemma find_sound r : cls_ok P r -> forall n s f,
  re.find n r s = Some f ->
  s = re.f_before f +++ re.f_match f +++ re.f_after f
  /\ all_chars P (re.f_match f) = true.
Proof.
  intros Hok n. induction s as [|a t IH]; intros f H; simpl in H.
  - destruct (re.match_at n r "") as [[s' c']|] eqn:E; [|discriminate].
    inversion H; subst f; clear H. simpl.
    apply (match_at_sound r Hok) in E. exact E.
  - destruct (re.match_at n r (String a t)) as [[s' c']|] eqn:E.
    + inversion H; subst f; clear H. simpl.
      apply (match_at_sound r Hok) in E. exact E.
    + destruct (re.find n r t) as [g|] eqn:G; [|discriminate].
      inversion H; subst f; clear H. simpl.
      destruct (IH g eq_refl) as [<- Hm]. auto.
Qed.

(** The matches of a scan come in the order of the text and do not
    overlap: the subject is the separating texts and the matches, put end
    to end. *)
Lemma scan_sound r : cls_ok P r -> forall fuel n s fs tl,
  re.scan fuel n r s = (fs, tl) ->
  s = rebuild fs tl
  /\ Forall (fun f => all_chars P (re.f_match f) = true) fs.
Proof.
  intros Hok. induction fuel as [|fuel IH]; intros n s fs tl H; simpl in H.
  - inversion H; subst. simpl. auto.
  - destruct (re.find n r s) as [f|] eqn:E.
    2:{ inversion H; subst. simpl. auto. }
    destruct (find_sound r Hok _ _ _ E) as [Hs Hm].
    destruct (re.f_match f) as [|b w] eqn:Ew.
    + destruct (re.f_after f) as [|a t] eqn:Ea.
      * inversion H; subst fs tl; clear H. simpl. rewrite Ew. simpl.
        split; [exact Hs|].
        constructor; [rewrite Ew; reflexivity|constructor].
      * destruct (re.scan fuel n r t) as [gs tl'] eqn:G.
        destruct (IH _ _ _ _ G) as [Ht Hall].
        destruct gs as [|g gs].
        -- inversion H; subst fs tl; clear H. simpl in *. rewrite Ew. simpl.
           subst t. split; [exact Hs|].
           constructor; [rewrite Ew; reflexivity|constructor].
        -- inversion H; subst fs tl; clear H. simpl in *. rewrite Ew. simpl.
           subst t. split; [exact Hs|].
           inversion Hall; subst.
           constructor; [rewrite Ew; reflexivity|].
           constructor; simpl; assumption.
    + destruct (re.scan fuel n r (re.f_after f)) as [gs tl'] eqn:G.
      destruct (IH _ _ _ _ G) as [Ht Hall].
      inversion H; subst fs tl; clear H. simpl. rewrite <- Ht.
      split; [rewrite Ew; exact Hs|].
      constructor; [rewrite Ew; exact Hm|exact Hall].
Qed.
End Sound.

Lemma in_all_ascii a : In a all_ascii.
Proof.
  unfold all_ascii. rewrite <- (ascii_nat_embedding a).
  apply in_map, in_seq. pose proof (nat_ascii_bounded a). lia.
Qed.

Lemma cls_okb_ok P r : cls_okb P r = true -> cls_ok P r.
Proof.
  induction r; cbn [cls_okb cls_ok]; intros H; auto.
  - intros a Ha. rewrite forallb_forall in H.
    specialize (H a (in_all_ascii a)). rewrite Ha in H. exact H.
  - apply andb_true_iff in H. destruct H; auto.
  - apply andb_true_iff in H. destruct H; auto.
Qed.

(** ** The fuel of the loops is never exhausted *)

(** A matcher calls its continuation on texts no longer than its own, so
    two continuations that agree on those give the same result. *)
Lemma rep_ext {R}
  (body : string -> re.caps -> (string -> re.caps -> option R) -> option R) :
  (forall s c k1 k2, agree_upto s k1 k2 -> body s c k1 = body s c k2) ->
  forall fuel s c k1 k2,
    agree_upto s k1 k2 -> re.rep body k1 fuel s c = re.rep body k2 fuel s c.
Proof.
  intros Hb. induction fuel as [|fuel IH]; intros s c k1 k2 Hk; cbn [re.rep].
  - apply Hk. lia.
  - rewrite (Hk s c) by lia.
    rewrite (Hb s c _ (fun s1 c1 =>
                         if Nat.ltb (String.length s1) (String.length s)
                         then re.rep body k2 fuel s1 c1 else None));
      [reflexivity|].
    intros s1 c1 Hl. destruct (Nat.ltb _ _); [|reflexivity].
    apply IH. intros s2 c2 Hl2. apply Hk. lia.
Qed.

Lemma m_ext r : forall R n i s c (k1 k2 : string -> re.caps -> option R),
  agree_upto s k1 k2 -> re.m n r i s c k1 = re.m n r i s c k2.
Proof.
  induction r as [|f|r1 IH1 r2 IH2|r1 IH1 r2 IH2|r1 IH1|r1 IH1|r1 IH1|r1 IH1|];
    intros R n i s c k1 k2 Hk; cbn [re.m].
  - apply Hk. lia.
  - destruct s as [|a t]; [reflexivity|].
    destruct (f a); [|reflexivity]. apply Hk. simpl. lia.
  - apply IH1. intros s1 c1 Hl. apply IH2.
    intros s2 c2 Hl2. apply Hk. lia.
  - rewrite (IH1 _ _ _ _ _ k1 k2 Hk), (IH2 _ _ _ _ _ k1 k2 Hk). reflexivity.
  - apply rep_ext; [|exact Hk]. intros; apply IH1; assumption.
  - apply IH1. intros s1 c1 Hl.
    apply rep_ext; [intros; apply IH1; assumption|].
    intros s2 c2 Hl2. apply Hk. lia.
  - apply IH1. intros s1 c1 Hl. apply Hk. exact Hl.
  - rewrite (Hk s c) by lia. reflexivity.
  - rewrite (Hk s c) by lia. reflexivity.
Qed.

(** With more fuel than characters left, the loop of a repetition gives the
    same result whatever the fuel. *)
Lemma rep_fuel_irrelevant {R} n r i (k : string -> re.caps -> option R) :
  forall fuel fuel' s c,
    String.length s < fuel -> String.length s < fuel' ->
    re.rep (re.m n r i) k fuel s c = re.rep (re.m n r i) k fuel' s c.
Proof.
  induction fuel as [|fuel IH]; intros fuel' s c H H'; [lia|].
  destruct fuel' as [|fuel']; [lia|]. cbn [re.rep].
  rewrite (m_ext r _ n i s c _
             (fun s1 c1 =>
                if Nat.ltb (String.length s1) (String.length s)
                then re.rep (re.m n r i) k fuel' s1 c1 else None));
    [reflexivity|].
  intros s1 c1 Hl. destruct (Nat.ltb _ _) eqn:E; [|reflexivity].
  apply Nat.ltb_lt in E. apply IH; lia.
Qed.

Lemma cls_ok_any r : cls_ok (fun _ => true) r.
Proof. induction r; cbn [cls_ok]; auto. Qed.

Lemma find_lengths n r s f :
  re.find n r s = Some f ->
  String.length s
  = String.length (re.f_before f) + String.length (re.f_match f)
    + String.length (re.f_after f).
Proof.
  intros H. apply (find_sound _ r (cls_ok_any r)) in H. destruct H as [H _].
  rewrite H at 1. rewrite !length_append. lia.
Qed.

(** So does the scan for the successive matches. *)
Lemma scan_fuel_irrelevant n r :
  forall fuel fuel' s,
    String.length s < fuel -> String.length s < fuel' ->
    re.scan fuel n r s = re.scan fuel' n r s.
Proof.
  induction fuel as [|fuel IH]; intros fuel' s H H'; [lia|].
  destruct fuel' as [|fuel']; [lia|]. cbn [re.scan].
  destruct (re.find n r s) as [f|] eqn:E; [|reflexivity].
  pose proof (find_lengths _ _ _ _ E) as Hl.
  destruct (re.f_match f) as [|b w] eqn:Em.
  - destruct (re.f_after f) as [|a t] eqn:Ea; [reflexivity|].
    simpl in Hl. rewrite (IH fuel' t) by lia. reflexivity.
  - simpl in Hl. rewrite (IH fuel' (re.f_after f)) by lia. reflexivity.
Qed.

(** ** The first-line pattern *)

Lemma first_line_patterns_ok p :
  In p [reactants_pattern; products_pattern; high_p_pattern; first_str] ->
  cls_ok no_linebreak p.
Proof.
  intros H. apply cls_okb_ok.
  repeat (destruct H as [<-|H]; [vm_compute; reflexivity|]). destruct H.
Qed.

Lemma is_linespace_spec a :
  is_linespace a = true <-> a = " "%char \/ a = ascii_of_nat 9.
Proof.
  split.
  - intros H. rewrite <- (ascii_nat_embedding a). unfold is_linespace, code in H.
    apply orb_true_iff in H. destruct H as [H|H]; apply Nat.eqb_eq in H;
      rewrite H; [left|right]; reflexivity.
  - intros [->| ->]; reflexivity.
Qed.

(** C4, as the code has it: in the composed pattern the products are
    followed by one or more spaces or tabs, not by a line break, and then by
    the coefficients; a match of the pattern of any of the extractors
    contains no line break, so the equation and its three coefficients are
    on one line. *)
Theorem first_line_pattern_one_line :
  (forall rct_ptt prd_ptt coeff_ptt,
      _first_line_pattern rct_ptt prd_ptt coeff_ptt
      = rct_ptt +> padded CHEMKIN_ARROW +> prd_ptt +>
        re.Plus (re.Cls is_linespace) +> coeff_ptt)
  /\ (forall a, is_linespace a = true <-> a = " "%char \/ a = ascii_of_nat 9)
  /\ (forall p s f,
         In p [reactants_pattern; products_pattern; high_p_pattern; first_str] ->
         re.search p s = Some f ->
         all_chars no_linebreak (re.f_match f) = true).
Proof.
  split; [reflexivity|]. split; [exact is_linespace_spec|].
  intros p s f Hp H.
  exact (proj2 (find_sound no_linebreak p (first_line_patterns_ok p Hp) _ _ _ H)).
Qed.

Lemma first_line_pattern_one_line_witness :
  In high_p_pattern [reactants_pattern; products_pattern; high_p_pattern; first_str]
  /\ re.search high_p_pattern ("  H+O2=OH+O  1.0E+10 0.0 0.0" +++ newline +++ " DUP")
     = Some (re.mkFound "" "  H+O2=OH+O  1.0E+10 0.0 0.0" (newline +++ " DUP")
               [Some "1.0E+10 0.0 0.0"])
  /\ all_chars no_linebreak "  H+O2=OH+O  1.0E+10 0.0 0.0" = true.
Proof.
  split; [simpl; auto|]. split; [vm_compute; reflexivity|].
  apply (proj2 (proj2 first_line_pattern_one_line) high_p_pattern
           ("  H+O2=OH+O  1.0E+10 0.0 0.0" +++ newline +++ " DUP")
           (re.mkFound "" "  H+O2=OH+O  1.0E+10 0.0 0.0" (newline +++ " DUP")
               [Some "1.0E+10 0.0 0.0"])).
  - simpl; auto.
  - vm_compute; reflexivity.
Defined.

(** C4, as stated, fails: an entry whose coefficients are on the line after
    the equation is not matched, while the same text with a space in place
    of the line break is. *)
Lemma first_line_pattern_rejects_line_break :
  apf.has_match first_str ("H+O2=OH+O" +++ newline +++ "1.0E+10 0.0 0.0") = false
  /\ apf.has_match first_str ("H+O2=OH+O" +++ " " +++ "1.0E+10 0.0 0.0") = true
  /\ high_p_parameters (fun w => w)
       ("H+O2=OH+O" +++ newline +++ "1.0E+10 0.0 0.0") = Ok None.
Proof. vm_compute. auto. Qed.

(** ** High-pressure parameters *)

Lemma findall_item_one_group r f :
  re.ngroups r = 1 -> re.findall_item r f = FStr (group1 f).
Proof.
  intros H. unfold re.findall_item, group1. rewrite H.
  destruct (re.f_caps f) as [|[g|] t]; reflexivity.
Qed.

(** C9: [high_p_parameters] reports every match of the first-line pattern,
    not only the first: the matches split the entry from left to right
    without overlap, the result holds the coefficient group of each of them
    in that order, and it is [None] exactly when there is no match.  An
    entry with two first-line-shaped lines yields both triples. *)
Theorem high_p_parameters_collects_all :
  forall (V : Type) (ap_cast : string -> V) (s : string),
    let fs := fst (re.finditer high_p_pattern s) in
    let tl := snd (re.finditer high_p_pattern s) in
    s = rebuild fs tl
    /\ high_p_parameters ap_cast s
       = Ok (match fs with
             | [] => None
             | _ => Some (map (fun f => map ap_cast (str_split (group1 f))) fs)
             end)
    /\ (high_p_parameters ap_cast s = Ok None <-> fs = [])
    /\ high_p_parameters ap_cast
         ("A=B 1 2 3" +++ newline +++ "C=D 4.0 5.0 6.0")
       = Ok (Some [[ap_cast "1"; ap_cast "2"; ap_cast "3"];
                   [ap_cast "4.0"; ap_cast "5.0"; ap_cast "6.0"]]).
Proof.
  intros V ap_cast s fs tl.
  assert (Hs : s = rebuild fs tl).
  { unfold fs, tl, re.finditer.
    destruct (re.scan _ _ _ _) as [gs t] eqn:E. simpl.
    apply (scan_sound (fun _ => true) high_p_pattern) in E; [tauto|].
    apply cls_okb_ok. vm_compute. reflexivity. }
  assert (Hp : high_p_parameters ap_cast s
               = Ok (match fs with
                     | [] => None
                     | _ => Some (map (fun f => map ap_cast (str_split (group1 f)))
                                      fs)
                     end)).
  { unfold high_p_parameters, apf.all_captures, re.findall. fold fs.
    rewrite (map_ext _ (fun f => FStr (group1 f)))
      by (intros; apply findall_item_one_group; reflexivity).
    assert (Hm : forall l,
               mapM (fun str => words <- fitem_split str ;; Ok (map ap_cast words))
                    (map (fun f => FStr (group1 f)) l)
               = Ok (map (fun f => map ap_cast (str_split (group1 f))) l)).
    { induction l as [|g l IH]; simpl; [reflexivity|].
      simpl in IH. rewrite IH. reflexivity. }
    destruct fs as [|f gs]; [reflexivity|].
    specialize (Hm (f :: gs)). cbn [map] in *. rewrite Hm. reflexivity. }
  split; [exact Hs|]. split; [exact Hp|]. split.
  - rewrite Hp. destruct fs; split; intros H; try reflexivity; discriminate.
  - vm_compute. reflexivity.
Qed.

(** ** Troe parameters *)

(** C5, as the code has it: the captures of both forms are taken and the
    4-parameter one is looked at first.  Without a 4-parameter match, a
    3-parameter match gives its three floats and an explicit [None]; a
    4-parameter match with its fourth number gives four floats; no match of
    either form gives [None].  Both patterns want whitespace between the
    opening slash and the first number: ["TROE/ 0.5 100 1000/"] yields
    (0.5, 100.0, 1000.0, None) and ["TROE/ 0.5 100 1000 2000/"] yields
    (0.5, 100.0, 1000.0, 2000.0). *)
Theorem troe_parameters_four_then_three :
  forall (F : Type) (rnd : Q -> F) (s : string),
    (apf.first_capture troe_pattern1 s = PNone ->
     apf.first_capture troe_pattern2 s = PNone ->
     troe_parameters rnd s = Ok None)
    /\ (forall a b c,
           apf.first_capture troe_pattern1 s = PNone ->
           apf.first_capture troe_pattern2 s = PTuple [Some a; Some b; Some c] ->
           troe_parameters rnd s
           = (x <- float_of_str rnd a ;; y <- float_of_str rnd b ;;
              z <- float_of_str rnd c ;;
              Ok (Some [Some x; Some y; Some z; None])))
    /\ (forall a b c d,
           apf.first_capture troe_pattern1 s
           = PTuple [Some a; Some b; Some c; Some d] ->
           troe_parameters rnd s
           = (x <- float_of_str rnd a ;; y <- float_of_str rnd b ;;
              z <- float_of_str rnd c ;; t <- float_of_str rnd d ;;
              Ok (Some [Some x; Some y; Some z; Some t])))
    /\ troe_parameters rnd "TROE/ 0.5 100 1000/"
       = Ok (Some [Some (rnd (1 # 2)%Q); Some (rnd 100%Q); Some (rnd 1000%Q);
                   None])
    /\ troe_parameters rnd "TROE/ 0.5 100 1000 2000/"
       = Ok (Some [Some (rnd (1 # 2)%Q); Some (rnd 100%Q); Some (rnd 1000%Q);
                   Some (rnd 2000%Q)]).
Proof.
  intros F rnd s. split; [|split; [|split; [|split]]].
  - intros H1 H2. unfold troe_parameters. rewrite H1, H2. reflexivity.
  - intros a b c H1 H2. unfold troe_parameters. rewrite H1, H2. simpl.
    destruct (float_of_str rnd a); simpl; [|reflexivity].
    destruct (float_of_str rnd b); simpl; [|reflexivity].
    destruct (float_of_str rnd c); reflexivity.
  - intros a b c d H1. unfold troe_parameters. rewrite H1. simpl.
    destruct (float_of_str rnd a); simpl; [|reflexivity].
    destruct (float_of_str rnd b); simpl; [|reflexivity].
    destruct (float_of_str rnd c); simpl; [|reflexivity].
    destruct (float_of_str rnd d); reflexivity.
  - vm_compute. reflexivity.
  - vm_compute. reflexivity.
Qed.

Lemma troe_parameters_four_then_three_witness :
  (apf.first_capture troe_pattern1 "A+B=C 1 0 0" = PNone
   /\ apf.first_capture troe_pattern2 "A+B=C 1 0 0" = PNone
   /\ troe_parameters exact "A+B=C 1 0 0" = Ok None)
  /\ (apf.first_capture troe_pattern1 "A+B(+M)=C(+M) 1 0 0 TROE / 0.6 90 2000/"
      = PNone
      /\ apf.first_capture troe_pattern2
           "A+B(+M)=C(+M) 1 0 0 TROE / 0.6 90 2000/"
         = PTuple [Some "0.6"; Some "90"; Some "2000"]
      /\ troe_parameters exact "A+B(+M)=C(+M) 1 0 0 TROE / 0.6 90 2000/"
         = (x <- float_of_str exact "0.6" ;; y <- float_of_str exact "90" ;;
            z <- float_of_str exact "2000" ;;
            Ok (Some [Some x; Some y; Some z; None])))
  /\ (apf.first_capture troe_pattern1 "TROE / 0.6 90 2000 5000 /"
      = PTuple [Some "0.6"; Some "90"; Some "2000"; Some "5000"]
      /\ troe_parameters exact "TROE / 0.6 90 2000 5000 /"
         = (x <- float_of_str exact "0.6" ;; y <- float_of_str exact "90" ;;
            z <- float_of_str exact "2000" ;; t <- float_of_str exact "5000" ;;
            Ok (Some [Some x; Some y; Some z; Some t]))).
Proof.
  split; [|split].
  - split; [vm_compute; reflexivity|]. split; [vm_compute; reflexivity|].
    apply (proj1 (troe_parameters_four_then_three Q exact "A+B=C 1 0 0"));
      vm_compute; reflexivity.
  - split; [vm_compute; reflexivity|]. split; [vm_compute; reflexivity|].
    apply (proj1 (proj2 (troe_parameters_four_then_three Q exact
                           "A+B(+M)=C(+M) 1 0 0 TROE / 0.6 90 2000/"))
             "0.6" "90" "2000"); vm_compute; reflexivity.
  - split; [vm_compute; reflexivity|].
    apply (proj1 (proj2 (proj2 (troe_parameters_four_then_three Q exact
                                  "TROE / 0.6 90 2000 5000 /")))
             "0.6" "90" "2000" "5000"); vm_compute; reflexivity.
Defined.

(** C5, as stated, fails: the examples as the claim writes them, with the
    first number right after the slash, match neither form. *)
Lemma troe_parameters_examples_unmatched :
  troe_parameters exact "TROE/0.5 100 1000/" = Ok None
  /\ troe_parameters exact "TROE/0.5 100 1000 2000/" = Ok None
  /\ troe_parameters exact "TROE/0.5 100 1000/"
     <> Ok (Some [Some (1 # 2)%Q; Some 100%Q; Some 1000%Q; None])
  /\ troe_parameters exact "TROE/0.5 100 1000 2000/"
     <> Ok (Some [Some (1 # 2)%Q; Some 100%Q; Some 1000%Q; Some 2000%Q]).
Proof.
  split; [vm_compute; reflexivity|]. split; [vm_compute; reflexivity|].
  split; vm_compute; discriminate.
Qed.

(** C10: a TROE block with three numbers and whitespace before the closing
    slash is matched by the 4-parameter pattern with its fourth group left
    out; [troe_parameters] takes that branch and converts the missing group
    with [float], a [TypeError], although the 3-parameter pattern matches
    the same text and its branch would give (0.5, 100.0, 1000.0, None). *)
Theorem troe_parameters_absent_fourth_group :
  forall (F : Type) (rnd : Q -> F),
  exists entry : string,
    entry = "TROE/ 0.5 100 1000 /"
    /\ apf.first_capture troe_pattern1 entry
       = PTuple [Some "0.5"; Some "100"; Some "1000"; None]
    /\ troe_parameters rnd entry = Raise TypeError
    /\ apf.first_capture troe_pattern2 entry
       = PTuple [Some "0.5"; Some "100"; Some "1000"]
    /\ (vals <- py_iter (apf.first_capture troe_pattern2 entry) ;;
        params <- mapM (py_float rnd) vals ;;
        Ok (Some (map Some params ++ [None])))
       = Ok (Some [Some (rnd (1 # 2)%Q); Some (rnd 100%Q); Some (rnd 1000%Q);
                   None]).
Proof.
  intros F rnd. exists "TROE/ 0.5 100 1000 /".
  split; [reflexivity|]. split; [vm_compute; reflexivity|].
  split; [vm_compute; reflexivity|]. split; vm_compute; reflexivity.
Qed.

(** The same block without whitespace after the opening slash is matched by
    neither pattern. *)
Remark troe_no_space_after_slash :
  apf.first_capture troe_pattern1 "TROE/0.5 100 1000 /" = PNone
  /\ apf.first_capture troe_pattern2 "TROE/0.5 100 1000 /" = PNone.
Proof. split; vm_compute; reflexivity. Qed.

(** ** Groups do not change what a pattern matches *)

Lemma first_success_none {A B} (x : option A) (y : option B) (x' : option A)
  (y' : option B) :
  (x = None <-> y = None) -> (x' = None <-> y' = None) ->
  (match x with Some v => Some v | None => x' end = None
   <-> match y with Some v => Some v | None => y' end = None).
Proof.
  intros H H'. destruct x, y; cbn; try tauto.
  - destruct H as [_ H]. discriminate (H eq_refl).
  - destruct H as [H _]. discriminate (H eq_refl).
Qed.

Lemma rep_same_failures {R R'}
  (body : string -> re.caps -> (string -> re.caps -> option R) -> option R)
  (body' : string -> re.caps -> (string -> re.caps -> option R') -> option R')
  (k : string -> re.caps -> option R) (k' : string -> re.caps -> option R') :
  (forall k1 k1', same_failures k1 k1' ->
                  forall s c c', body s c k1 = None <-> body' s c' k1' = None) ->
  same_failures k k' ->
  forall fuel, same_failures (re.rep body k fuel) (re.rep body' k' fuel).
Proof.
  intros Hb Hk. induction fuel as [|fuel IH]; intros s c c'.
  - apply Hk.
  - cbn [re.rep]. apply first_success_none; [|apply Hk].
    apply Hb. intros s1 c1 c1'.
    destruct (Nat.ltb _ _); [apply IH | tauto].
Qed.

Lemma m_erase r : forall R R' n i i' (k : string -> re.caps -> option R)
                         (k' : string -> re.caps -> option R'),
  same_failures k k' ->
  forall s c c',
    re.m n r i s c k = None <-> re.m n (erase r) i' s c' k' = None.
Proof.
  induction r as [|f|r1 IH1 r2 IH2|r1 IH1 r2 IH2|r1 IH1|r1 IH1|r1 IH1|r1 IH1|];
    intros R R' n i i' k k' Hk s c c'; cbn [re.m erase].
  - apply Hk.
  - destruct s as [|a t]; [tauto|]. destruct (f a); [apply Hk | tauto].
  - apply IH1. intros s1 c1 c1'. apply IH2. exact Hk.
  - apply first_success_none; [apply IH1 | apply IH2]; exact Hk.
  - apply rep_same_failures; [|exact Hk].
    intros k1 k1' H1 s1 c1 c1'. apply IH1. exact H1.
  - apply IH1. intros s1 c1 c1'. apply rep_same_failures; [|exact Hk].
    intros k1 k1' H1 s2 c2 c2'. apply IH1. exact H1.
  - apply IH1. intros s1 c1 c1'. apply Hk.
  - assert (H : re.m n r1 i s c (fun _ _ => Some tt) = None
                <-> re.m n (erase r1) i' s c' (fun _ _ => Some tt) = None).
    { apply IH1. intros s1 c1 c1'. split; intros E; discriminate E. }
    destruct (re.m n r1 i s c _), (re.m n (erase r1) i' s c' _).
    + tauto.
    + destruct H as [_ H]. discriminate (H eq_refl).
    + destruct H as [H _]. discriminate (H eq_refl).
    + apply Hk.
  - destruct (Nat.eqb _ _); [apply Hk | tauto].
Qed.

Lemma match_at_erase n r s :
  re.match_at n r s = None <-> re.match_at n (erase r) s = None.
Proof.
  unfold re.match_at. apply m_erase. intros s1 c1 c1'. split; intros E; discriminate E.
Qed.

Lemma find_erase n r : forall s,
  re.find n r s = None <-> re.find n (erase r) s = None.
Proof.
  induction s as [|a t IH]; cbn [re.find].
  - pose proof (match_at_erase n r "") as Hm.
    destruct (re.match_at n r "") as [[? ?]|],
      (re.match_at n (erase r) "") as [[? ?]|]; try tauto.
    + split; intros E; discriminate E.
    + destruct Hm as [_ H]. discriminate (H eq_refl).
    + destruct Hm as [H _]. discriminate (H eq_refl).
  - pose proof (match_at_erase n r (String a t)) as Hm.
    destruct (re.match_at n r (String a t)) as [[? ?]|],
      (re.match_at n (erase r) (String a t)) as [[? ?]|].
    + split; intros E; discriminate E.
    + destruct Hm as [_ H]. discriminate (H eq_refl).
    + destruct Hm as [H _]. discriminate (H eq_refl).
    + destruct (re.find n r t), (re.find n (erase r) t); try tauto.
      * split; intros E; discriminate E.
      * destruct IH as [_ H]. discriminate (H eq_refl).
      * destruct IH as [H _]. discriminate (H eq_refl).
Qed.

(** A pattern and the same pattern without its groups match the same
    subjects. *)
Lemma has_match_erase r s :
  apf.has_match r s = apf.has_match (erase r) s.
Proof.
  unfold apf.has_match, re.search.
  pose proof (find_erase (String.length s) r s) as H.
  destruct (re.find _ r s), (re.find _ (erase r) s); try reflexivity.
  - destruct H as [_ H]. discriminate (H eq_refl).
  - destruct H as [H _]. discriminate (H eq_refl).
Qed.

(** The three extractors of the first line differ by their group only. *)
Lemma first_line_patterns_erased :
  erase reactants_pattern = first_str
  /\ erase products_pattern = first_str
  /\ erase high_p_pattern = first_str.
Proof. repeat split. Qed.

(** ** Entries the first-line pattern does not match *)

Lemma search_none_of_no_match p s :
  apf.has_match p s = false -> re.search p s = None.
Proof.
  unfold apf.has_match. destruct (re.search p s); [discriminate | reflexivity].
Qed.

Lemma first_capture_no_match p s :
  erase p = first_str -> apf.has_match first_str s = false ->
  apf.first_capture p s = PNone.
Proof.
  intros Hp H. unfold apf.first_capture.
  rewrite search_none_of_no_match; [reflexivity|].
  rewrite has_match_erase, Hp. exact H.
Qed.

(** C2 says that an entry the first-line pattern does not match yields no
    names.  The code does otherwise: the absent capture [None] is handed to
    [_split_reagent_string], whose first substitution raises [TypeError],
    for the reactants and for the products alike; [high_p_parameters], on
    the same pattern and the same entry, returns [None]. *)
Theorem names_of_unmatched_entry :
  forall (V : Type) (ap_cast : string -> V) (s : string),
    apf.has_match first_str s = false ->
    reactant_names s = Raise TypeError
    /\ product_names s = Raise TypeError
    /\ high_p_parameters ap_cast s = Ok None.
Proof.
  intros V ap_cast s H. split; [|split].
  - unfold reactant_names.
    rewrite (first_capture_no_match _ _ (proj1 first_line_patterns_erased) H).
    reflexivity.
  - unfold product_names.
    rewrite (first_capture_no_match _ _
               (proj1 (proj2 first_line_patterns_erased)) H).
    reflexivity.
  - unfold high_p_parameters, apf.all_captures, re.findall, re.finditer.
    cbn [re.scan]. fold (re.search high_p_pattern s).
    rewrite search_none_of_no_match; [reflexivity|].
    rewrite has_match_erase.
    rewrite (proj2 (proj2 first_line_patterns_erased)). exact H.
Qed.

Lemma names_of_unmatched_entry_witness :
  apf.has_match first_str "H+O2=>OH+O" = false
  /\ reactant_names "H+O2=>OH+O" = Raise TypeError
  /\ product_names "H+O2=>OH+O" = Raise TypeError
  /\ high_p_parameters (fun w : string => w) "H+O2=>OH+O" = Ok None.
Proof.
  split; [vm_compute; reflexivity|].
  apply (names_of_unmatched_entry string (fun w => w) "H+O2=>OH+O").
  vm_compute. reflexivity.
Defined.

(** ** Chebyshev parameters *)

(** C7: when the TCHEB block, the PCHEB block, the dimension block or every
    coefficient row is missing, the result is [None], whatever the other
    blocks hold; a record is returned only when all four are there. *)
Theorem chebyshev_parameters_all_or_nothing :
  forall (F : Type) (rnd : Q -> F) (s : string),
    (apf.first_capture temp_pattern s = PNone
     \/ apf.first_capture pressure_pattern s = PNone
     \/ apf.first_capture alpha_dimension_pattern s = PNone
     \/ apf.all_captures alpha_elements_pattern s = [] ->
     chebyshev_parameters rnd s = Ok None)
    /\ (forall p, chebyshev_parameters rnd s = Ok (Some p) ->
                  cheb_all_present s).
Proof.
  intros F rnd s. unfold chebyshev_parameters, cheb_all_present.
  destruct (apf.first_capture temp_pattern s) eqn:E1;
    destruct (apf.first_capture pressure_pattern s) eqn:E2;
    destruct (apf.first_capture alpha_dimension_pattern s) eqn:E3;
    destruct (apf.all_captures alpha_elements_pattern s) eqn:E4;
    (split;
     [ intros [H|[H|[H|H]]]; try discriminate; reflexivity
     | intros p H; try discriminate; repeat split; discriminate ]).
Qed.
Lemma chebyshev_parameters_all_or_nothing_witness :
  ((apf.first_capture temp_pattern cheb_entry_without_pcheb
    = PTuple [Some "300.0"; Some "2000.0"]
    /\ apf.first_capture pressure_pattern cheb_entry_without_pcheb = PNone)
   /\ chebyshev_parameters exact cheb_entry_without_pcheb = Ok None)
  /\ (chebyshev_parameters exact cheb_entry
      = Ok (Some (mkCheb [300%Q; 2000%Q] [(1 # 100)%Q; 100%Q] [2%Z; 2%Z]
                    [[1%Q; 1%Q; 2%Q; 2%Q]; [3%Q; 3%Q; 4%Q; 4%Q]]))
      /\ cheb_all_present cheb_entry).
Proof.
  assert (H1 : apf.first_capture pressure_pattern cheb_entry_without_pcheb
               = PNone) by (vm_compute; reflexivity).
  assert (H2 : chebyshev_parameters exact cheb_entry
               = Ok (Some (mkCheb [300%Q; 2000%Q] [(1 # 100)%Q; 100%Q]
                             [2%Z; 2%Z]
                             [[1%Q; 1%Q; 2%Q; 2%Q]; [3%Q; 3%Q; 4%Q; 4%Q]])))
    by (vm_compute; reflexivity).
  split.
  - split; [split; [vm_compute; reflexivity | exact H1]|].
    apply (proj1 (chebyshev_parameters_all_or_nothing Q exact
                    cheb_entry_without_pcheb)).
    right; left. exact H1.
  - split; [exact H2|].
    exact (proj2 (chebyshev_parameters_all_or_nothing Q exact cheb_entry)
             _ H2).
Defined.

(** ** Dictionaries and grouping *)

Section DictFacts.
Context {K V : Type} (K_eq_dec : forall x y : K, {x = y} + {x <> y}).

Lemma dict_get_set_same k (v : V) d :
  dict_get K_eq_dec k (dict_set K_eq_dec k v d) = Some v.
Proof.
  induction d as [|[k' v'] t IH]; simpl.
  - destruct (K_eq_dec k k); congruence.
  - destruct (K_eq_dec k k') as [->|N]; simpl.
    + destruct (K_eq_dec k' k'); congruence.
    + destruct (K_eq_dec k k'); congruence.
Qed.

Lemma dict_get_set_other k k' (v : V) d :
  k <> k' -> dict_get K_eq_dec k (dict_set K_eq_dec k' v d)
             = dict_get K_eq_dec k d.
Proof.
  intros N. induction d as [|[k0 v0] t IH]; simpl.
  - destruct (K_eq_dec k k'); congruence.
  - destruct (K_eq_dec k' k0) as [->|N0]; simpl.
    + destruct (K_eq_dec k k0); congruence.
    + destruct (K_eq_dec k k0); congruence.
Qed.

Lemma dict_get_none k (d : dict K V) :
  dict_get K_eq_dec k d = None <-> ~ In k (dict_keys d).
Proof.
  induction d as [|[k' v'] t IH]; simpl; [tauto|].
  destruct (K_eq_dec k k') as [->|N].
  - split; [discriminate | intros H; exfalso; apply H; auto].
  - rewrite IH. split; intros H; [intros [E|I]; [congruence|tauto] | tauto].
Qed.

Lemma dict_keys_set k (v : V) d :
  dict_keys (dict_set K_eq_dec k v d)
  = match dict_get K_eq_dec k d with
    | Some _ => dict_keys d
    | None => dict_keys d ++ [k]
    end.
Proof.
  unfold dict_keys.
  induction d as [|[k' v'] t IH]; cbn [dict_set dict_get map fst app];
    [reflexivity|].
  destruct (K_eq_dec k k') as [->|N]; cbn [map fst]; [reflexivity|].
  rewrite IH. destruct (dict_get K_eq_dec k t); reflexivity.
Qed.
End DictFacts.

Section GroupingFacts.
Context {K A V : Type} (K_eq_dec : forall x y : K, {x = y} + {x <> y})
        (init : A -> V) (add : V -> A -> V).

Local Abbreviation gstep := (group_step K_eq_dec init add).
Local Abbreviation gall := (group_all K_eq_dec init add).
Local Abbreviation gath := (gathered init add).

Lemma group_step_get k d ka :
  dict_get K_eq_dec k (gstep d ka)
  = if K_eq_dec k (fst ka)
    then gath (dict_get K_eq_dec k d) [snd ka]
    else dict_get K_eq_dec k d.
Proof.
  unfold group_step. destruct (K_eq_dec k (fst ka)) as [->|N].
  - simpl. destruct (dict_get K_eq_dec (fst ka) d);
      apply dict_get_set_same.
  - destruct (dict_get K_eq_dec (fst ka) d);
      apply dict_get_set_other; assumption.
Qed.

(** What is filed under a key: its items, added up in their order. *)
Lemma group_all_get k l : forall d,
  dict_get K_eq_dec k (gall l d)
  = gath (dict_get K_eq_dec k d) (items_at K_eq_dec k l).
Proof.
  induction l as [|ka t IH]; intros d; [reflexivity|].
  unfold group_all in *. simpl fold_left. rewrite IH, group_step_get.
  unfold items_at. simpl filter.
  destruct (K_eq_dec k (fst ka)); reflexivity.
Qed.

(** The keys stay in the order in which they were first met. *)
Lemma group_all_keys l : forall d,
  dict_keys (gall l d)
  = dict_keys d ++ first_seen K_eq_dec (dict_keys d) (map fst l).
Proof.
  induction l as [|ka t IH]; intros d; simpl.
  - rewrite app_nil_r. reflexivity.
  - unfold group_all in *. simpl fold_left. rewrite IH.
    assert (Hk : dict_keys (gstep d ka)
                 = match dict_get K_eq_dec (fst ka) d with
                   | Some _ => dict_keys d
                   | None => dict_keys d ++ [fst ka]
                   end).
    { unfold group_step.
      destruct (dict_get K_eq_dec (fst ka) d) eqn:E;
        rewrite dict_keys_set, E; reflexivity. }
    rewrite Hk.
    destruct (dict_get K_eq_dec (fst ka) d) as [old|] eqn:E.
    + destruct (in_dec K_eq_dec (fst ka) (dict_keys d)) as [I|N];
        [reflexivity|].
      apply (dict_get_none K_eq_dec) in N. congruence.
    + destruct (in_dec K_eq_dec (fst ka) (dict_keys d)) as [I|N].
      * apply (dict_get_none K_eq_dec) in E. contradiction.
      * rewrite <- app_assoc. reflexivity.
Qed.

(** A loop that converts each item and files it, as one conversion of
    all the items and one grouping. *)
Lemma foldM_group {X} (conv : X -> result (K * A))
  (step : dict K V -> X -> result (dict K V)) :
  (forall d x, step d x = (ka <- conv x ;; Ok (gstep d ka))) ->
  forall l d blocks,
    mapM conv l = Ok blocks -> foldM step l d = Ok (gall blocks d).
Proof.
  intros Hstep. induction l as [|x t IH]; intros d blocks H; simpl in *.
  - inversion H. reflexivity.
  - rewrite Hstep. destruct (conv x) as [ka|]; simpl in *; [|discriminate].
    destruct (mapM conv t) as [bs|]; simpl in *; [|discriminate].
    inversion H; subst blocks. apply (IH (gstep d ka) bs eq_refl).
Qed.
End GroupingFacts.

Lemma mapM_length {A B} (f : A -> result B) l : forall l',
  mapM f l = Ok l' -> length l' = length l.
Proof.
  induction l as [|x t IH]; intros l' H; simpl in H.
  - inversion H. reflexivity.
  - destruct (f x); simpl in H; [|discriminate].
    destruct (mapM f t) eqn:E; simpl in H; [|discriminate].
    inversion H; subst. simpl. f_equal. apply IH. reflexivity.
Qed.

(** Lists of values under one key grow at the end. *)
Lemma gathered_append {A} (items : list A) : forall acc,
  gathered (fun v => [v]) (fun old v => old ++ [v]) acc items
  = match acc, items with
    | None, [] => None
    | None, _ => Some items
    | Some old, _ => Some (old ++ items)
    end.
Proof.
  induction items as [|a t IH]; intros acc; simpl.
  - destruct acc; [rewrite app_nil_r|]; reflexivity.
  - change (fold_left _ t ?x) with
      (gathered (fun v : A => [v]) (fun old v => old ++ [v]) x t).
    rewrite IH. destruct acc; simpl; [rewrite <- app_assoc|]; reflexivity.
Qed.

(** ** PLOG parameters *)

Lemma plog_step_group {F} (rnd : Q -> F) F_eq_dec d params :
  plog_step rnd F_eq_dec d params
  = (ka <- plog_block rnd params ;;
     Ok (group_step F_eq_dec (fun v => [v]) (fun old v => old ++ [v]) d ka)).
Proof.
  unfold plog_step, plog_block, group_step.
  destruct (fitem_index params 0) as [p|]; simpl; [|reflexivity].
  destruct (float_of_str rnd p) as [pressure|]; simpl; [|reflexivity].
  destruct (mapM _ _) as [vals|]; simpl; [|reflexivity].
  destruct (dict_get F_eq_dec pressure d); reflexivity.
Qed.

(** C6: [plog_parameters] returns [None] when no PLOG block matches.
    Otherwise, [blocks] being the (pressure, triple) pairs of the matched
    blocks in the order of the text, the mapping has the distinct pressures
    as keys, in the order of their first block, and under each pressure the
    triples of all its blocks, in the order of the text.  Two blocks at
    pressure 1.0 give one key with a two-element list. *)
Theorem plog_parameters_groups_by_pressure :
  forall (F : Type) (rnd : Q -> F)
         (F_eq_dec : forall x y : F, {x = y} + {x <> y}) (s : string),
    (apf.all_captures plog_pattern s = [] ->
     plog_parameters rnd F_eq_dec s = Ok None)
    /\ (forall blocks,
           apf.all_captures plog_pattern s <> [] ->
           mapM (plog_block rnd) (apf.all_captures plog_pattern s) = Ok blocks ->
           exists d,
             plog_parameters rnd F_eq_dec s = Ok (Some d)
             /\ dict_keys d = first_seen F_eq_dec [] (map fst blocks)
             /\ forall p,
                 dict_get F_eq_dec p d
                 = match items_at F_eq_dec p blocks with
                   | [] => None
                   | triples => Some triples
                   end)
    /\ plog_parameters rnd F_eq_dec
         ("PLOG/1.0 1.0E+10 0.5 100.0/" +++ newline +++
          "PLOG/1.0 2.0E+10 0.7 200.0/")
       = Ok (Some [(rnd 1%Q,
                    [[rnd 10000000000%Q; rnd (1 # 2)%Q; rnd 100%Q];
                     [rnd 20000000000%Q; rnd (7 # 10)%Q; rnd 200%Q]])]).
Proof.
  intros F rnd F_eq_dec s. split; [|split].
  - intros H. unfold plog_parameters. rewrite H. reflexivity.
  - intros blocks Hne Hb.
    exists (group_all F_eq_dec (fun v => [v]) (fun old v => old ++ [v]) blocks []).
    split; [|split].
    + unfold plog_parameters.
      destruct (apf.all_captures plog_pattern s) as [|x t] eqn:E;
        [congruence|].
      rewrite (foldM_group F_eq_dec _ _ (plog_block rnd) _
                 (plog_step_group rnd F_eq_dec) _ _ _ Hb).
      reflexivity.
    + rewrite group_all_keys. reflexivity.
    + intros p. rewrite group_all_get, gathered_append. simpl.
      destruct (items_at F_eq_dec p blocks); reflexivity.
  - vm_compute. destruct (F_eq_dec _ _) as [_|N]; [reflexivity|].
    exfalso. apply N. reflexivity.
Qed.

Lemma plog_parameters_groups_by_pressure_witness :
  (apf.all_captures plog_pattern "A=B 1 2 3" = []
   /\ plog_parameters exact Q_eq_dec "A=B 1 2 3" = Ok None)
  /\ (apf.all_captures plog_pattern
        ("PLOG / 1. 1 2 3 /" +++ newline +++ "PLOG / 10. 4 5 6 /" +++ newline +++
         "PLOG / 1. 7 8 9 /") <> []
      /\ mapM (plog_block exact)
           (apf.all_captures plog_pattern
              ("PLOG / 1. 1 2 3 /" +++ newline +++ "PLOG / 10. 4 5 6 /" +++
               newline +++ "PLOG / 1. 7 8 9 /"))
         = Ok [(1%Q, [1%Q; 2%Q; 3%Q]); (10%Q, [4%Q; 5%Q; 6%Q]);
               (1%Q, [7%Q; 8%Q; 9%Q])]
      /\ exists d,
          plog_parameters exact Q_eq_dec
            ("PLOG / 1. 1 2 3 /" +++ newline +++ "PLOG / 10. 4 5 6 /" +++
             newline +++ "PLOG / 1. 7 8 9 /") = Ok (Some d)
          /\ dict_keys d
             = first_seen Q_eq_dec []
                 (map fst [(1%Q, [1%Q; 2%Q; 3%Q]); (10%Q, [4%Q; 5%Q; 6%Q]);
                           (1%Q, [7%Q; 8%Q; 9%Q])])
          /\ forall p,
              dict_get Q_eq_dec p d
              = match items_at Q_eq_dec p
                        [(1%Q, [1%Q; 2%Q; 3%Q]); (10%Q, [4%Q; 5%Q; 6%Q]);
                         (1%Q, [7%Q; 8%Q; 9%Q])] with
                | [] => None
                | triples => Some triples
                end).
Proof.
  split.
  - split; [vm_compute; reflexivity|].
    apply (proj1 (plog_parameters_groups_by_pressure Q exact Q_eq_dec "A=B 1 2 3")).
    vm_compute. reflexivity.
  - split; [vm_compute; discriminate|]. split; [vm_compute; reflexivity|].
    apply (proj1 (proj2 (plog_parameters_groups_by_pressure Q exact Q_eq_dec
                           ("PLOG / 1. 1 2 3 /" +++ newline +++
                            "PLOG / 10. 4 5 6 /" +++ newline +++
                            "PLOG / 1. 7 8 9 /")))).
    + vm_compute. discriminate.
    + vm_compute. reflexivity.
Defined.

(** ** Keyed aggregation of the entries *)

Lemma data_dct_step_group d str :
  data_dct_step d str
  = (k <- rxn_key_of str ;;
     Ok (group_step rxn_key_eq_dec (fun e => e)
           (fun old e => old +++ newline +++ e) d (k, str))).
Proof.
  unfold data_dct_step, rxn_key_of, group_step.
  destruct (reactant_names str) as [r|]; simpl; [|reflexivity].
  destruct (product_names str) as [p|]; simpl; [|reflexivity].
  destruct (dict_get rxn_key_eq_dec (r, p) d); reflexivity.
Qed.

(** The raw texts filed under one key are joined by newlines. *)
Lemma gathered_join (items : list string) : forall old,
  gathered (fun e => e) (fun old e => old +++ newline +++ e) (Some old) items
  = Some (join_lines (old :: items)).
Proof.
  induction items as [|e t IH]; intros old; [reflexivity|].
  change (gathered _ _ (Some old) (e :: t))
    with (gathered (fun e => e) (fun old e => old +++ newline +++ e)
            (Some (old +++ newline +++ e)) t).
  rewrite IH. f_equal.
  change (join_lines (old :: e :: t))
    with (old +++ newline +++ join_lines (e :: t)).
  destruct t as [|e' t]; [reflexivity|].
  change (join_lines ((old +++ newline +++ e) :: e' :: t))
    with ((old +++ newline +++ e) +++ newline +++ join_lines (e' :: t)).
  change (join_lines (e :: e' :: t))
    with (e +++ newline +++ join_lines (e' :: t)).
  rewrite !append_assoc. reflexivity.
Qed.

Lemma mapM_pair_with {A B} (f : A -> result B) l : forall l',
  mapM f l = Ok l' ->
  mapM (fun x => k <- f x ;; Ok (k, x)) l = Ok (combine l' l).
Proof.
  induction l as [|x t IH]; intros l' H; simpl in *.
  - inversion H. reflexivity.
  - destruct (f x); simpl in *; [|discriminate].
    destruct (mapM f t) as [ks|]; simpl in *; [|discriminate].
    inversion H; subst l'. rewrite (IH ks eq_refl). reflexivity.
Qed.

Lemma map_fst_combine {A B} (l : list A) : forall l' : list B,
  length l = length l' -> map fst (combine l l') = l.
Proof.
  induction l as [|k t IH]; intros [|e es] H; simpl in *;
    try discriminate; [reflexivity|].
  f_equal. apply IH. congruence.
Qed.



(** ** Buffer enhancement factors *)

Lemma foldM_app {A S} (f : S -> A -> result S) l1 l2 : forall acc,
  foldM f (l1 ++ l2) acc = (acc' <- foldM f l1 acc ;; foldM f l2 acc').
Proof.
  induction l1 as [|x t IH]; intros acc; simpl; [reflexivity|].
  destruct (f acc x); simpl; [apply IH | reflexivity].
Qed.

Lemma line_step_baths {F} (rnd : Q -> F) st line :
  line_step rnd st line
  = match line_baths line with
    | [] => Ok st
    | baths => factors <- foldM (bath_step rnd) baths [] ;; Ok (Some factors)
    end.
Proof.
  unfold line_step, line_baths.
  destruct (negb _); [|reflexivity].
  destruct (apf.all_captures factor_pattern line); reflexivity.
Qed.

(** Lines without pairs leave the factors as they are. *)
Lemma foldM_line_step_idle {F} (rnd : Q -> F) lines : forall st,
  Forall (fun l => line_baths l = []) lines ->
  foldM (line_step rnd) lines st = Ok st.
Proof.
  induction lines as [|l t IH]; intros st H; [reflexivity|].
  inversion H; subst. simpl. rewrite line_step_baths, H2. simpl. apply IH.
  assumption.
Qed.

Lemma bath_step_group {F} (rnd : Q -> F) d bath :
  bath_step rnd d bath
  = (ka <- bath_pair rnd bath ;;
     Ok (group_step string_dec (fun v => v) (fun _ v => v) d ka)).
Proof.
  unfold bath_step, bath_pair, group_step.
  destruct (fitem_index bath 0) as [name|]; simpl; [|reflexivity].
  destruct (fitem_index bath 1) as [v|]; simpl; [|reflexivity].
  destruct (float_of_str rnd v) as [val|]; simpl; [|reflexivity].
  destruct (dict_get string_dec name d); reflexivity.
Qed.

Lemma last_cons_default {A} (l : list A) : forall x d,
  last (x :: l) d = last l x.
Proof.
  induction l as [|y t IH]; intros x d; [reflexivity|].
  change (last (x :: y :: t) d) with (last (y :: t) d).
  rewrite !IH. reflexivity.
Qed.

(** Under one name, the last value stays. *)
Lemma gathered_last {A} (items : list A) : forall acc,
  gathered (fun v => v) (fun _ v => v) acc items = last (map Some items) acc.
Proof.
  induction items as [|a t IH]; intros acc; [reflexivity|].
  change (gathered _ _ acc (a :: t))
    with (gathered (fun v : A => v) (fun _ v => v)
            (Some match acc with None => a | Some _ => a end) t).
  rewrite IH. cbn [map]. rewrite last_cons_default. destruct acc; reflexivity.
Qed.

(** C3, as the code has it: every line on which no string of [bad_strings]
    matches is scanned for pairs, but a line that holds pairs starts a new
    mapping, so that nothing read on the lines before it is kept.  The
    result holds the pairs of the last such line only: its distinct species
    in the order of the line, each with the factor of its last pair. *)
Theorem buffer_enhance_factors_last_line :
  forall (F : Type) (rnd : Q -> F) (s : string)
         (before : list string) (line : string) (after : list string)
         (st : option (dict string F)) (pairs : list (string * F)),
    apf.has_match (escape "LOW") s || apf.has_match (escape "TROE") s = true ->
    splitlines s = before ++ line :: after ->
    foldM (line_step rnd) before None = Ok st ->
    line_baths line <> [] ->
    Forall (fun l => line_baths l = []) after ->
    mapM (bath_pair rnd) (line_baths line) = Ok pairs ->
    exists d,
      buffer_enhance_factors rnd s = Ok (Some d)
      /\ dict_keys d = first_seen string_dec [] (map fst pairs)
      /\ forall name,
          dict_get string_dec name d
          = last (map Some (items_at string_dec name pairs)) None.
Proof.
  intros F rnd s before line after st pairs Hkw Hl Hb Hne Ha Hp.
  exists (group_all string_dec (fun v => v) (fun _ v => v) pairs []).
  split; [|split].
  - unfold buffer_enhance_factors. rewrite Hkw, Hl, foldM_app, Hb.
    cbn [bind foldM]. rewrite line_step_baths.
    destruct (line_baths line) as [|b bs] eqn:E; [congruence|].
    rewrite (foldM_group string_dec _ _ (bath_pair rnd) _
               (bath_step_group rnd) _ _ _ Hp).
    cbn [bind]. apply foldM_line_step_idle. exact Ha.
  - rewrite group_all_keys. reflexivity.
  - intros name. rewrite group_all_get. apply gathered_last.
Qed.

Lemma buffer_enhance_factors_last_line_witness :
  apf.has_match (escape "LOW") falloff_entry
  || apf.has_match (escape "TROE") falloff_entry = true
  /\ splitlines falloff_entry
     = ["A+B(+M)=C(+M) 1 0 0"; " LOW / 1 2 3 /"; " H2/2.0/ AR/0.7/"]
       ++ " O2/3.0/ O2/ 4/ N2/1.5/" :: [" DUP"]
  /\ foldM (line_step exact)
       ["A+B(+M)=C(+M) 1 0 0"; " LOW / 1 2 3 /"; " H2/2.0/ AR/0.7/"] None
     = Ok (Some [("H2", 2%Q); ("AR", (7 # 10)%Q)])
  /\ line_baths " O2/3.0/ O2/ 4/ N2/1.5/" <> []
  /\ Forall (fun l => line_baths l = []) [" DUP"]
  /\ mapM (bath_pair exact) (line_baths " O2/3.0/ O2/ 4/ N2/1.5/")
     = Ok [("O2", 3%Q); ("O2", 4%Q); ("N2", (3 # 2)%Q)]
  /\ exists d,
      buffer_enhance_factors exact falloff_entry = Ok (Some d)
      /\ dict_keys d
         = first_seen string_dec []
             (map fst [("O2", 3%Q); ("O2", 4%Q); ("N2", (3 # 2)%Q)])
      /\ forall name,
          dict_get string_dec name d
          = last (map Some (items_at string_dec name
                              [("O2", 3%Q); ("O2", 4%Q); ("N2", (3 # 2)%Q)]))
                 None.
Proof.
  assert (H1 : apf.has_match (escape "LOW") falloff_entry
               || apf.has_match (escape "TROE") falloff_entry = true)
    by (vm_compute; reflexivity).
  assert (H2 : splitlines falloff_entry
               = ["A+B(+M)=C(+M) 1 0 0"; " LOW / 1 2 3 /"; " H2/2.0/ AR/0.7/"]
                 ++ " O2/3.0/ O2/ 4/ N2/1.5/" :: [" DUP"])
    by (vm_compute; reflexivity).
  assert (H3 : foldM (line_step exact)
                 ["A+B(+M)=C(+M) 1 0 0"; " LOW / 1 2 3 /"; " H2/2.0/ AR/0.7/"]
                 None
               = Ok (Some [("H2", 2%Q); ("AR", (7 # 10)%Q)]))
    by (vm_compute; reflexivity).
  assert (H4 : line_baths " O2/3.0/ O2/ 4/ N2/1.5/" <> [])
    by (vm_compute; discriminate).
  assert (H5 : Forall (fun l => line_baths l = []) [" DUP"])
    by (repeat constructor).
  assert (H6 : mapM (bath_pair exact) (line_baths " O2/3.0/ O2/ 4/ N2/1.5/")
               = Ok [("O2", 3%Q); ("O2", 4%Q); ("N2", (3 # 2)%Q)])
    by (vm_compute; reflexivity).
  repeat (split; [assumption|]).
  exact (buffer_enhance_factors_last_line Q exact falloff_entry _ _ _ _ _
           H1 H2 H3 H4 H5 H6).
Defined.

(** C3, as stated, fails: with pairs on two lines, the pairs of the first
    of them are not in the result. *)
Lemma buffer_enhance_factors_drops_earlier_lines :
  line_baths " H2/2.0/ AR/0.7/" = [FTup ["H2"; "2.0"]; FTup ["AR"; "0.7"]]
  /\ line_baths " O2/3.0/" = [FTup ["O2"; "3.0"]]
  /\ buffer_enhance_factors exact two_factor_lines_entry
     = Ok (Some [("O2", 3%Q)])
  /\ buffer_enhance_factors exact two_factor_lines_entry
     <> Ok (Some [("H2", 2%Q); ("AR", (7 # 10)%Q); ("O2", 3%Q)]).
Proof.
  split; [vm_compute; reflexivity|]. split; [vm_compute; reflexivity|].
  split; [vm_compute; reflexivity|]. vm_compute. discriminate.
Qed.

(** ** Species names *)

(** *** Substitution and splitting by particular patterns *)








































Lemma int_of_digit d :
  is_digit d = true ->
  int_of_str (String d "") = Ok (Z.of_nat (code d - 48)).
Proof.
  destruct d as [[] [] [] [] [] [] [] []]; intros H;
    try discriminate H; reflexivity.
Qed.

Lemma digit_not_empty d : String.eqb (String d "") "" = false.
Proof. reflexivity. Qed.



Lemma all_chars_weaken (P Q : ascii -> bool) s :
  (forall a, P a = true -> Q a = true) ->
  all_chars P s = true -> all_chars Q s = true.
Proof.
  intros H. induction s as [|a t IH]; [reflexivity|]. cbn [all_chars].
  intros Hs. apply andb_true_iff in Hs. destruct Hs as [Ha Ht].
  rewrite (H a Ha), (IH Ht). reflexivity.
Qed.









(** * Further properties of the module *)

(** ** What a match consumes and what its groups hold *)

Lemma set_cap_length i v c : length (re.set_cap i v c) = length c.
Proof.
  revert i. induction c as [|x t IH]; intros [|i]; simpl; auto.
Qed.

Lemma nth_error_set_cap i v c :
  i < length c -> nth_error (re.set_cap i v c) i = Some (Some v).
Proof.
  revert i. induction c as [|x t IH]; intros [|i] H; simpl in *;
    try lia; [reflexivity|]. apply IH. lia.
Qed.

Lemma rep_lang {R} r
  (body : string -> re.caps -> (string -> re.caps -> option R) -> option R)
  (k : string -> re.caps -> option R) :
  (forall s c k' x, body s c k' = Some x -> lang_run r s c k' x) ->
  forall fuel s c x,
    re.rep body k fuel s c = Some x -> lang_run (re.Star r) s c k x.
Proof.
  intros Hb. induction fuel as [|fuel IH]; intros s c x H; cbn [re.rep] in H.
  - exists "", s, c. repeat split; [constructor | exact H].
  - destruct (body s c _) as [y|] eqn:E.
    + inversion H; subst y; clear H.
      apply Hb in E. destruct E as (w1 & s1 & c1 & -> & Hw1 & Hl1 & Hk).
      destruct (Nat.ltb _ _); [|discriminate].
      apply IH in Hk. destruct Hk as (w2 & s2 & c2 & -> & Hw2 & Hl2 & Hk).
      exists (w1 +++ w2), s2, c2. rewrite append_assoc.
      repeat split; [constructor; assumption | congruence | exact Hk].
    + exists "", s, c. repeat split; [constructor | exact H].
Qed.

(** A successful match consumed a text of the pattern and kept the number
    of groups. *)
Lemma m_lang r : forall R n i s c (k : string -> re.caps -> option R) x,
  re.m n r i s c k = Some x -> lang_run r s c k x.
Proof.
  induction r as [|f|r1 IH1 r2 IH2|r1 IH1 r2 IH2|r1 IH1|r1 IH1|r1 IH1|r1 IH1|];
    intros R n i s c k x H; cbn [re.m] in H.
  - exists "", s, c. repeat split; [constructor | exact H].
  - destruct s as [|a t]; [discriminate|].
    destruct (f a) eqn:Ef; [|discriminate].
    exists (String a ""), t, c. repeat split; [constructor; exact Ef | exact H].
  - apply IH1 in H. destruct H as (w1 & s1 & c1 & -> & Hw1 & Hl1 & H).
    apply IH2 in H. destruct H as (w2 & s2 & c2 & -> & Hw2 & Hl2 & H).
    exists (w1 +++ w2), s2, c2. rewrite append_assoc.
    repeat split; [constructor; assumption | congruence | exact H].
  - destruct (re.m n r1 i s c k) as [y|] eqn:E.
    + inversion H; subst y. apply IH1 in E.
      destruct E as (w & s' & c' & Hs & Hw & Hl & Hk).
      exists w, s', c'. repeat split; auto. apply lang_alt_l. exact Hw.
    + apply IH2 in H. destruct H as (w & s' & c' & Hs & Hw & Hl & Hk).
      exists w, s', c'. repeat split; auto. apply lang_alt_r. exact Hw.
  - eapply rep_lang; [|exact H]. intros; eapply IH1; eauto.
  - apply IH1 in H. destruct H as (w1 & s1 & c1 & -> & Hw1 & Hl1 & H).
    eapply (rep_lang r1) in H; [|intros; eapply IH1; eauto].
    destruct H as (w2 & s2 & c2 & -> & Hw2 & Hl2 & H).
    exists (w1 +++ w2), s2, c2. rewrite append_assoc.
    repeat split; [constructor; assumption | congruence | exact H].
  - apply IH1 in H. destruct H as (w1 & s1 & c1 & -> & Hw1 & Hl1 & H).
    exists w1, s1, (re.set_cap i (re.consumed (w1 +++ s1) s1) c1).
    repeat split; [constructor; exact Hw1 | | exact H].
    rewrite set_cap_length. exact Hl1.
  - destruct (re.m n r1 i s c _); [discriminate|].
    exists "", s, c. repeat split; [constructor | exact H].
  - destruct (Nat.eqb _ _); [|discriminate].
    exists "", s, c. repeat split; [constructor | exact H].
Qed.

(** Lifting a fact on the groups of a match to [find], to the scan, and to
    the items of [findall]. *)
Lemma find_caps n r (P : re.caps -> Prop) :
  (forall s s' c', re.match_at n r s = Some (s', c') -> P c') ->
  forall s f, re.find n r s = Some f -> P (re.f_caps f).
Proof.
  intros Hm. induction s as [|a t IH]; intros f H; cbn [re.find] in H.
  - destruct (re.match_at n r "") as [[s' c']|] eqn:E; [|discriminate].
    inversion H; subst f. eapply Hm; eauto.
  - destruct (re.match_at n r (String a t)) as [[s' c']|] eqn:E.
    + inversion H; subst f. eapply Hm; eauto.
    + destruct (re.find n r t) as [g|] eqn:G; [|discriminate].
      inversion H; subst f. apply (IH g eq_refl).
Qed.

Lemma scan_caps n r (P : re.caps -> Prop) :
  (forall s s' c', re.match_at n r s = Some (s', c') -> P c') ->
  forall fuel s fs tl,
    re.scan fuel n r s = (fs, tl) -> Forall (fun f => P (re.f_caps f)) fs.
Proof.
  intros Hm. induction fuel as [|fuel IH]; intros s fs tl H; cbn [re.scan] in H.
  - inversion H. constructor.
  - destruct (re.find n r s) as [f|] eqn:E; [|inversion H; constructor].
    pose proof (find_caps n r P Hm _ _ E) as Hf.
    destruct (re.f_match f) as [|b w].
    + destruct (re.f_after f) as [|a t].
      * inversion H. repeat constructor. exact Hf.
      * destruct (re.scan fuel n r t) as [gs tl'] eqn:G.
        specialize (IH _ _ _ G). destruct gs as [|g gs].
        -- inversion H. repeat constructor. exact Hf.
        -- inversion H; subst fs tl. inversion IH; subst.
           constructor; [exact Hf|]. constructor; assumption.
    + destruct (re.scan fuel n r (re.f_after f)) as [gs tl'] eqn:G.
      specialize (IH _ _ _ G). inversion H; subst fs tl.
      constructor; assumption.
Qed.

(** A match has as many groups as its pattern. *)
Lemma match_at_caps_length n r s s' c' :
  re.match_at n r s = Some (s', c') -> length c' = re.ngroups r.
Proof.
  unfold re.match_at. intros H. apply m_lang in H.
  destruct H as (w & s1 & c1 & _ & _ & Hl & H). inversion H; subst.
  rewrite Hl. apply repeat_length.
Qed.

Lemma finditer_caps r (P : re.caps -> Prop) s :
  (forall n s0 s' c', re.match_at n r s0 = Some (s', c') -> P c') ->
  Forall (fun f => P (re.f_caps f)) (fst (re.finditer r s)).
Proof.
  intros Hm. unfold re.finditer.
  destruct (re.scan _ _ r s) as [fs tl] eqn:E. simpl.
  eapply scan_caps; [|exact E]. intros; eapply Hm; eauto.
Qed.

(** With two groups or more, the items of [findall] are tuples with one
    string for each group. *)
Lemma all_captures_tuples r s :
  2 <= re.ngroups r ->
  Forall (fun it => exists l, it = FTup l /\ length l = re.ngroups r)
         (apf.all_captures r s).
Proof.
  intros Hn. unfold apf.all_captures, re.findall.
  pose proof (finditer_caps r (fun c => length c = re.ngroups r) s
                (fun n s0 s' c' => match_at_caps_length n r s0 s' c')) as H.
  induction H as [|f fs Hf _ IH]; cbn [map]; constructor; [|exact IH].
  unfold re.findall_item.
  destruct (re.ngroups r) as [|[|k]] eqn:E; try lia.
  eexists. split; [reflexivity|]. rewrite length_map. exact Hf.
Qed.

(** With one group, they are strings. *)
Lemma all_captures_strings r s :
  re.ngroups r = 1 ->
  apf.all_captures r s
  = map (fun f => FStr (group1 f)) (fst (re.finditer r s)).
Proof.
  intros H. unfold apf.all_captures, re.findall. apply map_ext.
  intros f. apply findall_item_one_group. exact H.
Qed.

(** A text of a pattern is made of the characters of its classes, and is
    not empty unless the pattern allows it. *)
Lemma lang_chars P r w : cls_ok P r -> lang r w -> all_chars P w = true.
Proof.
  intros Hok H. induction H; cbn [cls_ok] in Hok; try reflexivity.
  - simpl. rewrite (Hok a H). reflexivity.
  - destruct Hok. rewrite all_chars_append, IHlang1, IHlang2; auto.
  - destruct Hok. auto.
  - destruct Hok. auto.
  - rewrite all_chars_append, IHlang1, IHlang2; auto.
  - rewrite all_chars_append, IHlang1, IHlang2; auto.
  - auto.
Qed.

Lemma append_empty w1 w2 : w1 +++ w2 = "" -> w1 = "" /\ w2 = "".
Proof. destruct w1; simpl; [auto | discriminate]. Qed.

Lemma lang_nonempty r w : nullable r = false -> lang r w -> w <> "".
Proof.
  intros Hn H. induction H; cbn [nullable] in Hn; try discriminate.
  - intros E. apply append_empty in E. destruct E as [E1 E2].
    apply andb_false_iff in Hn. destruct Hn as [Hn|Hn].
    + apply (IHlang1 Hn E1).
    + apply (IHlang2 Hn E2).
  - apply orb_false_iff in Hn. destruct Hn. auto.
  - apply orb_false_iff in Hn. destruct Hn. auto.
  - intros E. apply append_empty in E. destruct E as [E1 _].
    apply (IHlang1 Hn E1).
  - auto.
Qed.

Lemma lang_seq_inv r1 r2 w :
  lang (re.Seq r1 r2) w ->
  exists w1 w2, w = w1 +++ w2 /\ lang r1 w1 /\ lang r2 w2.
Proof. intros H. inversion H; subst. eauto. Qed.

(** ** Comprehensions and loops *)

Lemma mapM_Forall2 {A B} (f : A -> result B) l : forall l',
  mapM f l = Ok l' -> Forall2 (fun x y => f x = Ok y) l l'.
Proof.
  induction l as [|x t IH]; intros l' H; simpl in H.
  - inversion H. constructor.
  - destruct (f x) as [y|] eqn:E; simpl in H; [|discriminate].
    destruct (mapM f t) as [ys|]; simpl in H; [|discriminate].
    inversion H; subst. constructor; auto.
Qed.

(** ** The groups that take part in every match *)

Lemma nth_error_set_cap_other i p v c :
  p <> i -> nth_error (re.set_cap i v c) p = nth_error c p.
Proof.
  revert i p. induction c as [|x t IH]; intros [|i] [|p] H; simpl;
    try reflexivity; try (exfalso; apply H; reflexivity).
  apply IH. intros E. apply H. rewrite E. reflexivity.
Qed.

Lemma frame_weaken i j i' j' c c' :
  i' <= i -> j <= j' -> frame i j c c' -> frame i' j' c c'.
Proof.
  intros Hi Hj [L H]. split; [exact L|]. intros p Hp. apply H. lia.
Qed.

Lemma frame_trans i j c1 c2 c3 :
  frame i j c1 c2 -> frame i j c2 c3 -> frame i j c1 c3.
Proof.
  intros [L1 H1] [L2 H2]. split; [congruence|].
  intros p Hp. rewrite H2, H1; auto.
Qed.

(** Groups that are as many and the same everywhere are the same. *)
Lemma frame_none i c c' : frame i i c c' -> c' = c.
Proof.
  intros [L H].
  assert (E : forall p, nth_error c' p = nth_error c p).
  { intros p. apply H. lia. }
  clear H. revert c L E. induction c' as [|x t IH]; intros [|y u] L E;
    simpl in L; try discriminate L; [reflexivity|].
  f_equal.
  - specialize (E 0). simpl in E. congruence.
  - apply IH; [lia|]. intros p. apply (E (S p)).
Qed.

Lemma sure_caps_bound r : forall j body,
  In (j, body) (sure_caps r) -> j < re.ngroups r.
Proof.
  induction r as [|f|r1 IH1 r2 IH2|r1 IH1 r2 IH2|r1 IH1|r1 IH1|r1 IH1|r1 IH1|];
    intros j body H; cbn [sure_caps re.ngroups] in *; try contradiction.
  - apply in_app_or in H. destruct H as [H|H].
    + apply IH1 in H. lia.
    + apply in_map_iff in H. destruct H as ([j2 b2] & E & H).
      inversion E; subst. apply IH2 in H. simpl. lia.
  - destruct H as [E|H].
    + inversion E; subst. lia.
    + apply in_map_iff in H. destruct H as ([j2 b2] & E & H).
      inversion E; subst. apply IH1 in H. simpl. lia.
Qed.

Lemma caps_hold_frame i l c c' bound j :
  (forall p body, In (p, body) l -> p < bound) ->
  frame (i + bound) j c c' -> caps_hold i l c -> caps_hold i l c'.
Proof.
  intros Hb [_ Hf] H. unfold caps_hold in *. rewrite Forall_forall in *.
  intros [p body] Hin. specialize (H _ Hin). simpl in *.
  destruct H as (w & Hn & Hw). exists w. split; [|exact Hw].
  rewrite Hf; [exact Hn|]. apply Hb in Hin. lia.
Qed.

Lemma caps_hold_shift i d l c :
  caps_hold (i + d) l c
  -> caps_hold i (map (fun jb => (d + fst jb, snd jb)) l) c.
Proof.
  unfold caps_hold. rewrite !Forall_forall. intros H [j body] Hin.
  apply in_map_iff in Hin. destruct Hin as ([j2 b2] & E & Hin).
  inversion E; subst. specialize (H _ Hin). simpl in *.
  rewrite Nat.add_assoc. exact H.
Qed.

Lemma rep_frame {R} r i j
  (body : string -> re.caps -> (string -> re.caps -> option R) -> option R)
  (k : string -> re.caps -> option R) :
  (forall s c k' x, j <= length c -> body s c k' = Some x ->
     exists w s' c',
       s = w +++ s' /\ lang r w /\ frame i j c c' /\ k' s' c' = Some x) ->
  forall fuel s c x,
    j <= length c ->
    re.rep body k fuel s c = Some x ->
    exists w s' c',
      s = w +++ s' /\ lang (re.Star r) w /\ frame i j c c'
      /\ k s' c' = Some x.
Proof.
  intros Hb. induction fuel as [|fuel IH]; intros s c x Hlen H;
    cbn [re.rep] in H.
  - exists "", s, c. repeat split; [constructor | exact H].
  - destruct (body s c _) as [y|] eqn:E.
    + inversion H; subst y; clear H.
      apply Hb in E; [|exact Hlen].
      destruct E as (w1 & s1 & c1 & -> & Hw1 & Hf1 & Hk).
      destruct (Nat.ltb _ _); [|discriminate].
      apply IH in Hk; [|destruct Hf1 as [L1 _]; rewrite L1; exact Hlen].
      destruct Hk as (w2 & s2 & c2 & -> & Hw2 & Hf2 & Hk).
      exists (w1 +++ w2), s2, c2. rewrite append_assoc.
      split; [reflexivity|]. split; [constructor; assumption|].
      split; [|exact Hk]. eapply frame_trans; eauto.
    + exists "", s, c. repeat split; [constructor | exact H].
Qed.

(** A successful match consumed a text of the pattern, left the groups of
    the other parts of the pattern alone, and filled the groups that take
    part in every match with texts of their bodies. *)
Lemma m_groups r : forall R n i s c (k : string -> re.caps -> option R) x,
  i + re.ngroups r <= length c ->
  re.m n r i s c k = Some x -> groups_run r i s c k x.
Proof.
  induction r as [|f|r1 IH1 r2 IH2|r1 IH1 r2 IH2|r1 IH1|r1 IH1|r1 IH1|r1 IH1|];
    intros R n i s c k x Hlen H; cbn [re.m] in H;
    cbn [re.ngroups] in Hlen; unfold groups_run; cbn [sure_caps re.ngroups].
  - exists "", s, c.
    repeat split; [constructor | constructor | exact H].
  - destruct s as [|a t]; [discriminate|].
    destruct (f a) eqn:Ef; [|discriminate].
    exists (String a ""), t, c.
    repeat split; [constructor; exact Ef | constructor | exact H].
  - apply IH1 in H; [|lia].
    destruct H as (w1 & s1 & c1 & -> & Hw1 & Hf1 & Hc1 & H).
    apply IH2 in H; [|destruct Hf1 as [L1 _]; rewrite L1; lia].
    destruct H as (w2 & s2 & c2 & -> & Hw2 & Hf2 & Hc2 & H).
    exists (w1 +++ w2), s2, c2. rewrite append_assoc.
    split; [reflexivity|]. split; [constructor; assumption|].
    split; [|split; [|exact H]].
    + apply frame_trans with (c2 := c1);
        (eapply frame_weaken; [| |eassumption]; lia).
    + apply Forall_app. split.
      * eapply caps_hold_frame; [apply sure_caps_bound|exact Hf2|exact Hc1].
      * apply caps_hold_shift. exact Hc2.
  - destruct (re.m n r1 i s c k) as [y|] eqn:E.
    + inversion H; subst y. apply IH1 in E; [|lia].
      destruct E as (w & s' & c' & Hs & Hw & Hf & _ & Hk).
      exists w, s', c'. split; [exact Hs|].
      split; [apply lang_alt_l; exact Hw|].
      split; [|split; [constructor|exact Hk]].
      eapply frame_weaken; [| |exact Hf]; lia.
    + apply IH2 in H; [|lia].
      destruct H as (w & s' & c' & Hs & Hw & Hf & _ & Hk).
      exists w, s', c'. split; [exact Hs|].
      split; [apply lang_alt_r; exact Hw|].
      split; [|split; [constructor|exact Hk]].
      eapply frame_weaken; [| |exact Hf]; lia.
  - eapply (rep_frame r1 i (i + re.ngroups r1)) in H; [| |exact Hlen].
    + destruct H as (w & s' & c' & Hs & Hw & Hf & Hk).
      exists w, s', c'. repeat split; try apply Hf; auto. constructor.
    + intros s0 c0 k' x0 L H0. apply IH1 in H0; [|exact L].
      destruct H0 as (w & s' & c' & Hs & Hw & Hf & _ & Hk).
      exists w, s', c'. auto.
  - apply IH1 in H; [|exact Hlen].
    destruct H as (w1 & s1 & c1 & -> & Hw1 & Hf1 & _ & H).
    eapply (rep_frame r1 i (i + re.ngroups r1)) in H.
    + destruct H as (w2 & s2 & c2 & -> & Hw2 & Hf2 & Hk).
      exists (w1 +++ w2), s2, c2. rewrite append_assoc.
      split; [reflexivity|]. split; [constructor; assumption|].
      split; [eapply frame_trans; eauto|]. split; [constructor|exact Hk].
    + intros s0 c0 k' x0 L H0. apply IH1 in H0; [|exact L].
      destruct H0 as (w & s' & c' & Hs & Hw & Hf & _ & Hk).
      exists w, s', c'. auto.
    + destruct Hf1 as [L1 _]. rewrite L1. exact Hlen.
  - apply IH1 in H; [|lia].
    destruct H as (w & s' & c' & -> & Hw & Hf & Hc & H).
    rewrite consumed_append in H. destruct Hf as [L Hf].
    exists w, s', (re.set_cap i w c').
    split; [reflexivity|]. split; [constructor; exact Hw|].
    split; [|split; [|exact H]].
    + split; [rewrite set_cap_length; exact L|].
      intros p Hp. rewrite nth_error_set_cap_other; [|lia].
      apply Hf. lia.
    + constructor.
      * exists w. simpl. rewrite Nat.add_0_r.
        split; [|exact Hw]. apply nth_error_set_cap. lia.
      * unfold caps_hold in *. rewrite Forall_forall in *.
        intros [j body] Hin. apply in_map_iff in Hin.
        destruct Hin as ([j2 b2] & E & Hin). inversion E; subst.
        specialize (Hc _ Hin). simpl in *.
        destruct Hc as (w2 & Hn & Hw2). exists w2. split; [|exact Hw2].
        rewrite nth_error_set_cap_other; [|lia].
        replace (i + S j2) with (S i + j2) by lia. exact Hn.
  - destruct (re.m n r1 i s c _); [discriminate|].
    exists "", s, c.
    repeat split; [constructor | constructor | exact H].
  - destruct (Nat.eqb _ _); [|discriminate].
    exists "", s, c.
    repeat split; [constructor | constructor | exact H].
Qed.

(** The groups of a match: as many as the pattern has, and those that
    take part in every match hold texts of their bodies. *)
Lemma match_at_groups n r s s' c' :
  re.match_at n r s = Some (s', c') ->
  length c' = re.ngroups r /\ caps_hold 0 (sure_caps r) c'.
Proof.
  unfold re.match_at. intros H. apply m_groups in H.
  - destruct H as (w & s1 & c1 & _ & _ & [L _] & Hc & H).
    inversion H; subst. split; [|exact Hc].
    rewrite L. apply repeat_length.
  - rewrite repeat_length. simpl. lia.
Qed.

(** ** The number patterns match what [float] reads *)

Lemma lang_alt_inv r1 r2 w : lang (re.Alt r1 r2) w -> lang r1 w \/ lang r2 w.
Proof. intros H. inversion H; subst; auto. Qed.

Lemma lang_eps_inv w : lang re.Eps w -> w = "".
Proof. intros H. inversion H; subst; reflexivity. Qed.

Lemma lang_cls_inv f w :
  lang (re.Cls f) w -> exists a, w = String a "" /\ f a = true.
Proof. intros H. inversion H; subst; eauto. Qed.

Lemma lang_char a w : lang (re.Cls (Ascii.eqb a)) w -> w = String a "".
Proof.
  intros H. apply lang_cls_inv in H. destruct H as (b & -> & E).
  apply Ascii.eqb_eq in E. subst. reflexivity.
Qed.

Lemma lang_plus_cls f w :
  lang (re.Plus (re.Cls f)) w -> all_chars f w = true /\ w <> "".
Proof.
  intros H. split.
  - apply (lang_chars f (re.Plus (re.Cls f)) w (fun a Ha => Ha) H).
  - apply (lang_nonempty (re.Plus (re.Cls f)) w eq_refl H).
Qed.

Lemma lang_star_cls f w : lang (re.Star (re.Cls f)) w -> all_chars f w = true.
Proof. apply (lang_chars f (re.Star (re.Cls f)) w (fun a Ha => Ha)). Qed.

Lemma lang_sign w : lang (maybe SIGN) w -> sign_text w.
Proof.
  intros H. apply lang_alt_inv in H. destruct H as [H|H].
  - apply lang_alt_inv in H. destruct H as [H|H]; apply lang_char in H;
      subst; unfold sign_text; auto.
  - apply lang_eps_inv in H. left. exact H.
Qed.

Lemma length_nonempty d : d <> "" -> String.length d <> 0.
Proof. destruct d; [congruence | discriminate]. Qed.

Lemma integer_shape w :
  lang INTEGER w ->
  exists sg d,
    w = sg +++ d /\ sign_text sg /\ all_chars is_digit d = true /\ d <> "".
Proof.
  intros H. apply lang_seq_inv in H. destruct H as (sg & d & -> & Hs & Hd).
  apply lang_sign in Hs. apply lang_plus_cls in Hd. destruct Hd as [Hd Hn].
  exists sg, d. auto.
Qed.

Lemma float_shape w :
  lang FLOAT w ->
  exists sg d1 d2,
    w = sg +++ d1 +++ String "." d2 /\ sign_text sg
    /\ all_chars is_digit d1 = true /\ all_chars is_digit d2 = true
    /\ String.length d1 + String.length d2 <> 0.
Proof.
  intros H. apply lang_seq_inv in H. destruct H as (sg & u & -> & Hs & Hu).
  apply lang_sign in Hs. apply lang_alt_inv in Hu.
  destruct Hu as [Hu|Hu];
    apply lang_seq_inv in Hu; destruct Hu as (d1 & u2 & -> & H1 & Hu);
    apply lang_seq_inv in Hu; destruct Hu as (p & d2 & -> & Hp & H2);
    apply lang_char in Hp; subst p.
  - apply lang_star_cls in H1. apply lang_plus_cls in H2.
    destruct H2 as [H2 Hn]. apply length_nonempty in Hn.
    exists sg, d1, d2. repeat split; auto. lia.
  - apply lang_plus_cls in H1. destruct H1 as [H1 Hn].
    apply lang_star_cls in H2. apply length_nonempty in Hn.
    exists sg, d1, d2. repeat split; auto. lia.
Qed.

Lemma exponent_shape w :
  lang (one_of_these [escape "E"; escape "e"] +> INTEGER) w -> exp_text w.
Proof.
  intros H. apply lang_seq_inv in H. destruct H as (e & u & -> & He & Hu).
  apply integer_shape in Hu. destruct Hu as (sg & d & -> & Hs & Hd & Hn).
  right. apply lang_alt_inv in He.
  destruct He as [He|He]; apply lang_char in He; subst e;
    eexists _, sg, d; (split; [reflexivity|]); auto.
Qed.

Lemma number_text_integer w : lang INTEGER w -> number_text w.
Proof.
  intros H. apply integer_shape in H. destruct H as (sg & d & -> & Hs & Hd & Hn).
  apply length_nonempty in Hn.
  exists sg, d, "", 0, "". rewrite !append_nil_r.
  repeat split; auto; [left; auto | left; auto | lia].
Qed.

Lemma number_text_float w : lang FLOAT w -> number_text w.
Proof.
  intros H. apply float_shape in H.
  destruct H as (sg & d1 & d2 & -> & Hs & H1 & H2 & Hn).
  exists sg, d1, (String "." d2), (String.length d2), "".
  rewrite !append_nil_r. repeat split; auto.
  - right. exists d2. auto.
  - left. reflexivity.
Qed.

Lemma number_text_exponential_integer w :
  lang EXPONENTIAL_INTEGER w -> number_text w.
Proof.
  intros H. apply lang_seq_inv in H. destruct H as (u & ex & -> & Hu & He).
  apply integer_shape in Hu. destruct Hu as (sg & d & -> & Hs & Hd & Hn).
  apply exponent_shape in He. apply length_nonempty in Hn.
  exists sg, d, "", 0, ex. rewrite <- append_assoc.
  repeat split; auto; [left; auto | lia].
Qed.

Lemma number_text_exponential_float w :
  lang EXPONENTIAL_FLOAT w -> number_text w.
Proof.
  intros H. apply lang_seq_inv in H. destruct H as (u & ex & -> & Hu & He).
  apply float_shape in Hu.
  destruct Hu as (sg & d1 & d2 & -> & Hs & H1 & H2 & Hn).
  apply exponent_shape in He.
  exists sg, d1, (String "." d2), (String.length d2), ex.
  rewrite <- !append_assoc. repeat split; auto.
  right. exists d2. auto.
Qed.

Lemma number_text_number w : lang NUMBER w -> number_text w.
Proof.
  intros H. apply lang_alt_inv in H. destruct H as [H|H].
  { apply number_text_exponential_float. exact H. }
  apply lang_alt_inv in H. destruct H as [H|H].
  { apply number_text_exponential_integer. exact H. }
  apply lang_alt_inv in H. destruct H as [H|H].
  - apply number_text_float. exact H.
  - apply number_text_integer. exact H.
Qed.

Lemma read_digits_run d : forall rest acc cnt,
  all_chars is_digit d = true -> starts_with is_digit rest = false ->
  exists v, read_digits (d +++ rest) acc cnt = (v, cnt + String.length d, rest).
Proof.
  induction d as [|a d IH]; intros rest acc cnt Hd Hr.
  - exists acc. rewrite Nat.add_0_r. destruct rest as [|b t]; [reflexivity|].
    cbn [starts_with] in Hr. cbn [String.append read_digits]. rewrite Hr.
    reflexivity.
  - cbn [all_chars] in Hd. apply andb_true_iff in Hd. destruct Hd as [Ha Hd].
    cbn [String.append read_digits]. rewrite Ha.
    destruct (IH rest (10 * acc + Z.of_nat (code a - 48))%Z (S cnt) Hd Hr)
      as [v Hv].
    exists v. rewrite Hv. cbn [String.length]. f_equal. f_equal. lia.
Qed.

Lemma read_sign_text sg body :
  sign_text sg ->
  starts_with (fun a => Ascii.eqb a "-" || Ascii.eqb a "+") body = false ->
  exists neg, read_sign (sg +++ body) = (neg, body).
Proof.
  intros [-> | [-> | ->]] Hb.
  - exists false. destruct body as [|a t]; [reflexivity|].
    cbn [starts_with] in Hb. apply orb_false_iff in Hb. destruct Hb as [H1 H2].
    cbn [String.append read_sign]. rewrite H1, H2. reflexivity.
  - exists false. reflexivity.
  - exists true. reflexivity.
Qed.

Lemma starts_with_digits P d rest :
  (forall a, is_digit a = true -> P a = false) ->
  all_chars is_digit d = true -> starts_with P rest = false ->
  starts_with P (d +++ rest) = false.
Proof.
  intros HP Hd Hr. destruct d as [|a d]; [exact Hr|].
  cbn [all_chars] in Hd. apply andb_true_iff in Hd. destruct Hd as [Ha _].
  cbn [String.append starts_with]. apply HP. exact Ha.
Qed.

Lemma digit_classes a :
  is_digit a = true ->
  (Ascii.eqb a "-" || Ascii.eqb a "+") = false
  /\ Ascii.eqb a "." = false /\ is_exp_char a = false
  /\ is_space a = false.
Proof.
  destruct a as [[] [] [] [] [] [] [] []]; intros H;
    try discriminate H; repeat split.
Qed.

Lemma exp_text_head ex :
  exp_text ex ->
  starts_with is_digit ex = false
  /\ starts_with (fun a => Ascii.eqb a "-" || Ascii.eqb a "+") ex = false
  /\ starts_with (fun a => Ascii.eqb a ".") ex = false.
Proof.
  intros [-> | (a & sg & d & -> & Ha & _)]; [repeat split|].
  cbn [starts_with]. destruct a as [[] [] [] [] [] [] [] []];
    try discriminate Ha; repeat split.
Qed.

(** The exponent part, read after the mantissa. *)
Lemma decimal_exponent ex :
  exp_text ex ->
  ex = ""
  \/ exists a t ev cnt,
       ex = String a t /\ is_exp_char a = true
       /\ (let '(eneg, t1) := read_sign t in
           read_digits t1 0%Z 0 = (ev, S cnt, "")).
Proof.
  intros [-> | (a & sg & d & -> & Ha & Hs & Hd & Hn)]; [left; reflexivity|].
  right. 
  destruct (read_sign_text sg d Hs) as [neg Hneg].
  { destruct d as [|b d]; [congruence|]. cbn [all_chars] in Hd.
    apply andb_true_iff in Hd. destruct Hd as [Hb _].
    cbn [starts_with]. apply (digit_classes b Hb). }
  destruct (read_digits_run d "" 0%Z 0 Hd eq_refl) as [ev Hev].
  rewrite append_nil_r in Hev.
  destruct d as [|b d]; [congruence|].
  exists a, (sg +++ String b d), ev, (String.length d).
  split; [reflexivity|]. split; [exact Ha|].
  rewrite Hneg. exact Hev.
Qed.

(** [float] reads every text of the number patterns. *)
Lemma decimal_value_number_text w :
  number_text w -> exists q, decimal_value w = Some q.
Proof.
  intros (sg & d & fr & nf & ex & -> & Hs & Hd & Hf & He & Hn).
  pose proof (exp_text_head ex He) as (Hx1 & Hx2 & Hx3).
  assert (Hfr : starts_with is_digit (fr +++ ex) = false
                /\ starts_with (fun a => Ascii.eqb a "-" || Ascii.eqb a "+")
                     (fr +++ ex) = false).
  { destruct Hf as [[-> _] | (d2 & -> & _)]; [split; assumption|].
    split; reflexivity. }
  destruct Hfr as [Hfr1 Hfr2].
  destruct (read_sign_text sg (d +++ fr +++ ex) Hs) as [neg Hneg].
  { apply starts_with_digits; [|exact Hd|exact Hfr2].
    intros a Ha. apply (digit_classes a Ha). }
  destruct (read_digits_run d (fr +++ ex) 0%Z 0 Hd Hfr1) as [ip Hip].
  unfold decimal_value. rewrite Hneg, Hip. cbn [Nat.add].
  assert (Hmant : exists mant,
            match fr +++ ex with
            | String a t =>
                if Ascii.eqb a "." then read_digits t ip 0
                else (ip, 0, fr +++ ex)
            | EmptyString => (ip, 0, fr +++ ex)
            end = (mant, nf, ex)).
  { destruct Hf as [[-> ->] | (d2 & -> & Hd2 & ->)].
    - exists ip. cbn [String.append]. destruct ex as [|a t]; [reflexivity|].
      cbn [starts_with] in Hx3. rewrite Hx3. reflexivity.
    - cbn [String.append].
      destruct (read_digits_run d2 ex ip 0 Hd2 Hx1) as [v Hv].
      exists v. exact Hv. }
  destruct Hmant as [mant Hmant]. rewrite Hmant.
  destruct (Nat.eqb (String.length d + nf) 0) eqn:E;
    [apply Nat.eqb_eq in E; contradiction|].
  destruct (decimal_exponent ex He) as [-> | (a & t & ev & cnt & -> & Ha & Ht)].
  - eexists. reflexivity.
  - unfold is_exp_char in Ha. rewrite Ha.
    destruct (read_sign t) as [eneg t1]. rewrite Ht. eexists. reflexivity.
Qed.

Lemma lstrip_nonspace w : all_chars nonspace w = true -> lstrip w = w.
Proof.
  destruct w as [|a t]; [reflexivity|]. cbn [all_chars]. intros H.
  apply andb_true_iff in H. destruct H as [Ha _].
  unfold nonspace in Ha. apply negb_true_iff in Ha.
  cbn [lstrip]. rewrite Ha. reflexivity.
Qed.

Lemma rstrip_nonspace w : all_chars nonspace w = true -> rstrip w = w.
Proof.
  induction w as [|a t IH]; [reflexivity|]. cbn [all_chars]. intros H.
  apply andb_true_iff in H. destruct H as [Ha Ht].
  unfold nonspace in Ha. apply negb_true_iff in Ha.
  cbn [rstrip]. rewrite (IH Ht). destruct t; [rewrite Ha|]; reflexivity.
Qed.

Lemma strip_nonspace w : all_chars nonspace w = true -> strip w = w.
Proof.
  intros H. unfold strip. rewrite lstrip_nonspace by exact H.
  apply rstrip_nonspace. exact H.
Qed.

Lemma number_patterns_nonspace : cls_ok nonspace NUMBER /\ cls_ok nonspace FLOAT.
Proof. split; apply cls_okb_ok; vm_compute; reflexivity. Qed.

Section Floats.
Context {F : Type} (rnd : Q -> F).

Lemma float_of_number w :
  lang NUMBER w -> exists q, float_of_str rnd w = Ok (rnd q).
Proof.
  intros H. unfold float_of_str.
  rewrite strip_nonspace
    by (apply (lang_chars _ _ _ (proj1 number_patterns_nonspace) H)).
  destruct (decimal_value_number_text w (number_text_number w H)) as [q Hq].
  exists q. rewrite Hq. reflexivity.
Qed.

Lemma float_of_float w :
  lang FLOAT w -> exists q, float_of_str rnd w = Ok (rnd q).
Proof.
  intros H. unfold float_of_str.
  rewrite strip_nonspace
    by (apply (lang_chars _ _ _ (proj2 number_patterns_nonspace) H)).
  destruct (decimal_value_number_text w (number_text_float w H)) as [q Hq].
  exists q. rewrite Hq. reflexivity.
Qed.

End Floats.

(** ** What [first_capture] and [all_captures] return *)

Lemma finditer_search r s :
  match re.search r s with
  | None => fst (re.finditer r s) = []
  | Some f => exists fs, fst (re.finditer r s) = f :: fs
  end.
Proof.
  unfold re.search, re.finditer. cbn [re.scan].
  destruct (re.find (String.length s) r s) as [f|]; [|reflexivity].
  destruct (re.f_match f) as [|b w].
  - destruct (re.f_after f) as [|a t]; [exists []; reflexivity|].
    destruct (re.scan _ _ r t) as [[|g gs] tl]; eexists; reflexivity.
  - destruct (re.scan _ _ r (re.f_after f)) as [gs tl].
    eexists; reflexivity.
Qed.

Lemma all_captures_none r s :
  apf.has_match r s = false <-> apf.all_captures r s = [].
Proof.
  unfold apf.has_match, apf.all_captures, re.findall.
  pose proof (finditer_search r s) as H.
  destruct (re.search r s) as [f|].
  - destruct H as [fs ->]. split; intros E; discriminate E.
  - rewrite H. split; reflexivity.
Qed.

Lemma search_groups r s f :
  re.search r s = Some f ->
  length (re.f_caps f) = re.ngroups r
  /\ caps_hold 0 (sure_caps r) (re.f_caps f).
Proof.
  apply (find_caps _ r
           (fun c => length c = re.ngroups r /\ caps_hold 0 (sure_caps r) c)).
  intros s0 s' c'. apply match_at_groups.
Qed.

Lemma finditer_groups r s :
  Forall (fun f => length (re.f_caps f) = re.ngroups r
                   /\ caps_hold 0 (sure_caps r) (re.f_caps f))
         (fst (re.finditer r s)).
Proof.
  apply (finditer_caps r
           (fun c => length c = re.ngroups r /\ caps_hold 0 (sure_caps r) c)).
  intros n s0 s' c'. apply match_at_groups.
Qed.

(** With two groups or more, [first_capture] gives [None] without a match
    and the tuple of the groups with one. *)
Lemma first_capture_tuple r s :
  2 <= re.ngroups r ->
  (apf.has_match r s = false /\ apf.first_capture r s = PNone)
  \/ (exists c,
        apf.has_match r s = true /\ apf.first_capture r s = PTuple c
        /\ length c = re.ngroups r /\ caps_hold 0 (sure_caps r) c).
Proof.
  intros Hn. unfold apf.has_match, apf.first_capture.
  destruct (re.search r s) as [f|] eqn:E; [|left; auto].
  right. exists (re.f_caps f). apply search_groups in E.
  destruct (Nat.eqb_spec (re.ngroups r) 1) as [E1|_]; [lia|].
  unfold re.groups. tauto.
Qed.

(** The items of [all_captures] for a pattern with two groups or more: the
    tuples of the groups of the successive matches. *)
Lemma all_captures_groups r s :
  2 <= re.ngroups r ->
  Forall (fun it =>
            exists c,
              it = FTup (map (fun g => match g with
                                       | Some x => x
                                       | None => ""
                                       end) c)
              /\ length c = re.ngroups r /\ caps_hold 0 (sure_caps r) c)
         (apf.all_captures r s).
Proof.
  intros Hn. unfold apf.all_captures, re.findall.
  pose proof (finditer_groups r s) as H.
  induction H as [|f fs Hf _ IH]; cbn [map]; constructor; [|exact IH].
  exists (re.f_caps f). split; [|exact Hf].
  unfold re.findall_item.
  destruct (re.ngroups r) as [|[|k]] eqn:E; try lia. reflexivity.
Qed.

(** Three groups that take part in every match. *)
Lemma caps_three b0 b1 b2 c :
  length c = 3 -> caps_hold 0 [(0, b0); (1, b1); (2, b2)] c ->
  exists w0 w1 w2,
    c = [Some w0; Some w1; Some w2]
    /\ lang b0 w0 /\ lang b1 w1 /\ lang b2 w2.
Proof.
  intros L H.
  destruct c as [|x0 [|x1 [|x2 [|? ?]]]]; try discriminate L.
  inversion H as [|? ? (w0 & E0 & H0) H']; subst.
  inversion H' as [|? ? (w1 & E1 & H1) H'']; subst.
  inversion H'' as [|? ? (w2 & E2 & H2) _]; subst.
  simpl in E0, E1, E2. inversion E0; inversion E1; inversion E2; subst.
  exists w0, w1, w2. auto.
Qed.

Section Extractors.
Context {F : Type} (rnd : Q -> F).

Lemma floats_of_three w0 w1 w2 :
  lang NUMBER w0 -> lang NUMBER w1 -> lang NUMBER w2 ->
  exists a b c,
    mapM (py_float rnd) [Some w0; Some w1; Some w2] = Ok [a; b; c].
Proof.
  intros H0 H1 H2.
  destruct (float_of_number rnd w0 H0) as [q0 E0].
  destruct (float_of_number rnd w1 H1) as [q1 E1].
  destruct (float_of_number rnd w2 H2) as [q2 E2].
  exists (rnd q0), (rnd q1), (rnd q2).
  cbn [mapM py_float]. rewrite E0, E1, E2. reflexivity.
Qed.

Lemma low_p_outcome s :
  (apf.has_match low_p_pattern s = false
   /\ low_p_parameters rnd s = Ok None)
  \/ (apf.has_match low_p_pattern s = true
      /\ exists a b c, low_p_parameters rnd s = Ok (Some [[a; b; c]])).
Proof.
  unfold low_p_parameters.
  destruct (first_capture_tuple low_p_pattern s) as [[Hm ->]|(c & Hm & -> & L & Hc)];
    [simpl; lia | left; auto |].
  right. split; [exact Hm|].
  apply caps_three in Hc; [|exact L].
  destruct Hc as (w0 & w1 & w2 & -> & H0 & H1 & H2).
  destruct (floats_of_three w0 w1 w2 H0 H1 H2) as (a & b & c & E).
  exists a, b, c. cbn [py_iter bind]. rewrite E. reflexivity.
Qed.

End Extractors.

(** ** Groups that are set hold texts of their bodies *)

Lemma caps_valid_set G i body w c :
  In (i, body) G -> lang body w -> caps_valid G c ->
  caps_valid G (re.set_cap i w c).
Proof.
  intros Hin Hw Hc p v Hp.
  destruct (Nat.eq_dec p i) as [->|Hne].
  - destruct (Nat.lt_ge_cases i (length c)) as [L|L].
    + rewrite nth_error_set_cap in Hp by exact L.
      inversion Hp; subst. eauto.
    + assert (nth_error (re.set_cap i w c) i = None) as E.
      { apply nth_error_None. rewrite set_cap_length. exact L. }
      rewrite E in Hp. discriminate Hp.
  - rewrite nth_error_set_cap_other in Hp by exact Hne. apply Hc. exact Hp.
Qed.

Lemma rep_valid {R} r G
  (body : string -> re.caps -> (string -> re.caps -> option R) -> option R)
  (k : string -> re.caps -> option R) :
  (forall s c k' x, caps_valid G c -> body s c k' = Some x ->
     exists w s' c',
       s = w +++ s' /\ lang r w /\ caps_valid G c' /\ k' s' c' = Some x) ->
  forall fuel s c x,
    caps_valid G c ->
    re.rep body k fuel s c = Some x ->
    exists w s' c',
      s = w +++ s' /\ lang (re.Star r) w /\ caps_valid G c'
      /\ k s' c' = Some x.
Proof.
  intros Hb. induction fuel as [|fuel IH]; intros s c x Hc H;
    cbn [re.rep] in H.
  - exists "", s, c. repeat split; [constructor | exact Hc | exact H].
  - destruct (body s c _) as [y|] eqn:E.
    + inversion H; subst y; clear H.
      apply Hb in E; [|exact Hc].
      destruct E as (w1 & s1 & c1 & -> & Hw1 & Hc1 & Hk).
      destruct (Nat.ltb _ _); [|discriminate].
      apply IH in Hk; [|exact Hc1].
      destruct Hk as (w2 & s2 & c2 & -> & Hw2 & Hc2 & Hk).
      exists (w1 +++ w2), s2, c2. rewrite append_assoc.
      repeat split; [constructor; assumption | exact Hc2 | exact Hk].
    + exists "", s, c. repeat split; [constructor | exact Hc | exact H].
Qed.

Lemma m_valid r : forall R n i s c (k : string -> re.caps -> option R) x G,
  (forall j body, In (j, body) (all_caps r) -> In (i + j, body) G) ->
  caps_valid G c ->
  re.m n r i s c k = Some x ->
  exists w s' c',
    s = w +++ s' /\ lang r w /\ caps_valid G c' /\ k s' c' = Some x.
Proof.
  induction r as [|f|r1 IH1 r2 IH2|r1 IH1 r2 IH2|r1 IH1|r1 IH1|r1 IH1|r1 IH1|];
    intros R n i s c k x G HG Hc H; cbn [re.m] in H; cbn [all_caps] in HG.
  - exists "", s, c. repeat split; [constructor | exact Hc | exact H].
  - destruct s as [|a t]; [discriminate|].
    destruct (f a) eqn:Ef; [|discriminate].
    exists (String a ""), t, c.
    repeat split; [constructor; exact Ef | exact Hc | exact H].
  - assert (HG1 : forall j body, In (j, body) (all_caps r1)
                                 -> In (i + j, body) G).
    { intros j body Hin. apply HG. apply in_or_app. left. exact Hin. }
    assert (HG2 : forall j body, In (j, body) (all_caps r2)
                                 -> In (i + re.ngroups r1 + j, body) G).
    { intros j body Hin. rewrite <- Nat.add_assoc. apply HG.
      apply in_or_app. right.
      apply in_map_iff. exists (j, body). split; [reflexivity | exact Hin]. }
    apply (IH1 _ _ _ _ _ _ _ G HG1 Hc) in H.
    destruct H as (w1 & s1 & c1 & -> & Hw1 & Hc1 & H).
    apply (IH2 _ _ _ _ _ _ _ G HG2 Hc1) in H.
    destruct H as (w2 & s2 & c2 & -> & Hw2 & Hc2 & H).
    exists (w1 +++ w2), s2, c2. rewrite append_assoc.
    repeat split; [constructor; assumption | exact Hc2 | exact H].
  - assert (HG1 : forall j body, In (j, body) (all_caps r1)
                                 -> In (i + j, body) G).
    { intros j body Hin. apply HG. apply in_or_app. left. exact Hin. }
    assert (HG2 : forall j body, In (j, body) (all_caps r2)
                                 -> In (i + re.ngroups r1 + j, body) G).
    { intros j body Hin. rewrite <- Nat.add_assoc. apply HG.
      apply in_or_app. right.
      apply in_map_iff. exists (j, body). split; [reflexivity | exact Hin]. }
    destruct (re.m n r1 i s c k) as [y|] eqn:E.
    + inversion H; subst y.
      apply (IH1 _ _ _ _ _ _ _ G HG1 Hc) in E.
      destruct E as (w & s' & c' & Hs & Hw & Hc' & Hk).
      exists w, s', c'. repeat split; auto. apply lang_alt_l. exact Hw.
    + apply (IH2 _ _ _ _ _ _ _ G HG2 Hc) in H.
      destruct H as (w & s' & c' & Hs & Hw & Hc' & Hk).
      exists w, s', c'. repeat split; auto. apply lang_alt_r. exact Hw.
  - eapply (rep_valid r1 G) in H; [exact H | | exact Hc].
    intros s0 c0 k' x0 Hc0 H0. apply (IH1 _ _ _ _ _ _ _ G HG Hc0 H0).
  - apply (IH1 _ _ _ _ _ _ _ G HG Hc) in H.
    destruct H as (w1 & s1 & c1 & -> & Hw1 & Hc1 & H).
    eapply (rep_valid r1 G) in H; [| | exact Hc1].
    + destruct H as (w2 & s2 & c2 & -> & Hw2 & Hc2 & H).
      exists (w1 +++ w2), s2, c2. rewrite append_assoc.
      repeat split; [constructor; assumption | exact Hc2 | exact H].
    + intros s0 c0 k' x0 Hc0 H0. apply (IH1 _ _ _ _ _ _ _ G HG Hc0 H0).
  - assert (HG1 : forall j body, In (j, body) (all_caps r1)
                                 -> In (S i + j, body) G).
    { intros j body Hin. replace (S i + j) with (i + S j) by lia. apply HG.
      right. apply in_map_iff. exists (j, body).
      split; [reflexivity | exact Hin]. }
    apply (IH1 _ _ _ _ _ _ _ G HG1 Hc) in H.
    destruct H as (w & s' & c' & -> & Hw & Hc' & H).
    rewrite consumed_append in H.
    exists w, s', (re.set_cap i w c').
    repeat split; [constructor; exact Hw | | exact H].
    apply caps_valid_set with (body := r1); auto.
    rewrite <- (Nat.add_0_r i). apply HG. left. reflexivity.
  - destruct (re.m n r1 i s c _); [discriminate|].
    exists "", s, c. repeat split; [constructor | exact Hc | exact H].
  - destruct (Nat.eqb _ _); [|discriminate].
    exists "", s, c. repeat split; [constructor | exact Hc | exact H].
Qed.

Lemma nth_error_repeat_none {A} n p (x : A) :
  nth_error (repeat (@None A) n) p <> Some (Some x).
Proof.
  revert p. induction n as [|n IH]; intros [|p]; simpl; try discriminate.
  apply IH.
Qed.

Lemma match_at_valid n r s s' c' :
  re.match_at n r s = Some (s', c') -> caps_valid (all_caps r) c'.
Proof.
  unfold re.match_at. intros H.
  apply (m_valid r _ _ _ _ _ _ _ (all_caps r)) in H.
  - destruct H as (w & s1 & c1 & _ & _ & Hc & H). inversion H; subst. exact Hc.
  - intros j body Hin. exact Hin.
  - intros p w Hp. exfalso. apply (nth_error_repeat_none _ _ _ Hp).
Qed.

Lemma search_valid r s f :
  re.search r s = Some f -> caps_valid (all_caps r) (re.f_caps f).
Proof.
  apply (find_caps _ r (caps_valid (all_caps r))).
  intros s0 s' c'. apply match_at_valid.
Qed.

Lemma first_capture_valid r s c :
  apf.first_capture r s = PTuple c -> caps_valid (all_caps r) c.
Proof.
  unfold apf.first_capture. destruct (re.search r s) as [f|] eqn:E;
    [|discriminate].
  destruct (Nat.eqb _ _).
  - destruct (hd None (re.groups f)); discriminate.
  - intros H. inversion H; subst. apply (search_valid r s f E).
Qed.

(** ** The outcomes of the extractors *)

(** [low_p_parameters] never raises: without a match of the LOW pattern it
    returns [None]; with one, the three groups of the first match are
    number texts, which [float] reads, and the result is one row of three
    floats. *)
Theorem low_p_parameters_one_row_of_three :
  forall (F : Type) (rnd : Q -> F) (s : string),
    (apf.has_match low_p_pattern s = false
     /\ low_p_parameters rnd s = Ok None)
    \/ (exists w0 w1 w2 a b c,
          apf.first_capture low_p_pattern s
          = PTuple [Some w0; Some w1; Some w2]
          /\ float_of_str rnd w0 = Ok a /\ float_of_str rnd w1 = Ok b
          /\ float_of_str rnd w2 = Ok c
          /\ low_p_parameters rnd s = Ok (Some [[a; b; c]])).
Proof.
  intros F rnd s. unfold low_p_parameters.
  destruct (first_capture_tuple low_p_pattern s)
    as [[Hm ->] | (c & Hm & -> & L & Hc)];
    [simpl; lia | left; auto |].
  right. apply caps_three in Hc; [|exact L].
  destruct Hc as (w0 & w1 & w2 & -> & H0 & H1 & H2).
  destruct (float_of_number rnd w0 H0) as [q0 E0].
  destruct (float_of_number rnd w1 H1) as [q1 E1].
  destruct (float_of_number rnd w2 H2) as [q2 E2].
  exists w0, w1, w2, (rnd q0), (rnd q1), (rnd q2).
  repeat split; auto.
  cbn [py_iter bind mapM py_float]. rewrite E0, E1, E2. reflexivity.
Qed.

Lemma troe_pattern1_groups :
  all_caps troe_pattern1 = [(0, NUMBER); (1, NUMBER); (2, NUMBER); (3, NUMBER)]
  /\ sure_caps troe_pattern1 = [(0, NUMBER); (1, NUMBER); (2, NUMBER)].
Proof. split; reflexivity. Qed.

(** The four outcomes of [troe_parameters].  Without a match of the
    4-parameter pattern the 3-parameter pattern decides: [None], or three
    floats and [None].  With a match of the 4-parameter pattern the result
    is four floats when its optional fourth group took part, and a
    [TypeError] when it did not, whether or not the 3-parameter pattern
    matches.  Nothing else is returned or raised. *)
Theorem troe_parameters_outcomes :
  forall (F : Type) (rnd : Q -> F) (s : string),
    (apf.has_match troe_pattern1 s = false
     /\ apf.has_match troe_pattern2 s = false
     /\ troe_parameters rnd s = Ok None)
    \/ (apf.has_match troe_pattern1 s = false
        /\ apf.has_match troe_pattern2 s = true
        /\ exists a b c,
             troe_parameters rnd s = Ok (Some [Some a; Some b; Some c; None]))
    \/ (exists w0 w1 w2 w3,
          apf.first_capture troe_pattern1 s
          = PTuple [Some w0; Some w1; Some w2; Some w3]
          /\ exists a b c d,
               troe_parameters rnd s
               = Ok (Some [Some a; Some b; Some c; Some d]))
    \/ (exists w0 w1 w2,
          apf.first_capture troe_pattern1 s
          = PTuple [Some w0; Some w1; Some w2; None]
          /\ troe_parameters rnd s = Raise TypeError).
Proof.
  intros F rnd s. unfold troe_parameters.
  destruct (first_capture_tuple troe_pattern1 s)
    as [[Hm1 E1] | (c & Hm1 & E1 & L & Hc)]; [simpl; lia | |].
  - rewrite E1.
    destruct (first_capture_tuple troe_pattern2 s)
      as [[Hm2 ->] | (c & Hm2 & -> & L & Hc)]; [simpl; lia | left; auto |].
    right; left. apply caps_three in Hc; [|exact L].
    destruct Hc as (w0 & w1 & w2 & -> & H0 & H1 & H2).
    destruct (floats_of_three rnd w0 w1 w2 H0 H1 H2) as (a & b & c & E).
    split; [exact Hm1|]. split; [exact Hm2|]. exists a, b, c.
    cbn [py_iter bind]. rewrite E. reflexivity.
  - pose proof (first_capture_valid _ _ _ E1) as Hv. rewrite E1.
    destruct c as [|x0 [|x1 [|x2 [|x3 [|? ?]]]]]; try discriminate L.
    rewrite (proj2 troe_pattern1_groups) in Hc.
    inversion Hc as [|? ? (w0 & E0 & H0) Hc']; subst.
    inversion Hc' as [|? ? (w1 & E1' & H1) Hc'']; subst.
    inversion Hc'' as [|? ? (w2 & E2 & H2) _]; subst.
    simpl in E0, E1', E2. inversion E0; inversion E1'; inversion E2; subst.
    destruct (float_of_number rnd w0 H0) as [q0 F0].
    destruct (float_of_number rnd w1 H1) as [q1 F1].
    destruct (float_of_number rnd w2 H2) as [q2 F2].
    destruct x3 as [w3|].
    + right; right; left. exists w0, w1, w2, w3. split; [reflexivity|].
      destruct (Hv 3 w3 eq_refl) as (body & Hin & H3).
      rewrite (proj1 troe_pattern1_groups) in Hin.
      assert (body = NUMBER) as ->.
      { destruct Hin as [E|[E|[E|[E|[]]]]];
          first [discriminate E | injection E as Eb; symmetry; exact Eb]. }
      destruct (float_of_number rnd w3 H3) as [q3 F3].
      exists (rnd q0), (rnd q1), (rnd q2), (rnd q3).
      cbn [py_iter bind mapM py_float]. rewrite F0, F1, F2, F3. reflexivity.
    + right; right; right. exists w0, w1, w2. split; [reflexivity|].
      cbn [py_iter bind mapM py_float]. rewrite F0, F1, F2. reflexivity.
Qed.

Lemma mapM_all_ok {A B} (f : A -> result B) (P : B -> Prop) l :
  Forall (fun x => exists y, f x = Ok y /\ P y) l ->
  exists l', mapM f l = Ok l' /\ Forall P l'.
Proof.
  induction 1 as [|x t (y & Hy & Py) _ (l' & Hl & Pl)].
  - exists []. split; [reflexivity | constructor].
  - exists (y :: l'). cbn [mapM]. rewrite Hy. cbn [bind]. rewrite Hl.
    split; [reflexivity | constructor; assumption].
Qed.

Lemma plog_pattern_groups :
  re.ngroups plog_pattern = 4
  /\ sure_caps plog_pattern
     = [(0, NUMBER); (1, NUMBER); (2, NUMBER); (3, NUMBER)].
Proof. split; reflexivity. Qed.

(** A block captured by the PLOG pattern converts: a pressure and three
    values. *)
Lemma plog_blocks_convert {F} (rnd : Q -> F) s :
  Forall (fun it => exists b, plog_block rnd it = Ok b /\ length (snd b) = 3)
         (apf.all_captures plog_pattern s).
Proof.
  eapply Forall_impl; [|apply all_captures_groups; simpl; lia].
  intros it (c & -> & L & Hc).
  rewrite (proj2 plog_pattern_groups) in Hc.
  rewrite (proj1 plog_pattern_groups) in L.
  destruct c as [|x0 [|x1 [|x2 [|x3 [|? ?]]]]]; try discriminate L.
  inversion Hc as [|? ? (w0 & E0 & H0) Hc1]; subst.
  inversion Hc1 as [|? ? (w1 & E1 & H1) Hc2]; subst.
  inversion Hc2 as [|? ? (w2 & E2 & H2) Hc3]; subst.
  inversion Hc3 as [|? ? (w3 & E3 & H3) _]; subst.
  simpl in E0, E1, E2, E3.
  inversion E0; inversion E1; inversion E2; inversion E3; subst.
  destruct (float_of_number rnd w0 H0) as [q0 F0].
  destruct (float_of_number rnd w1 H1) as [q1 F1].
  destruct (float_of_number rnd w2 H2) as [q2 F2].
  destruct (float_of_number rnd w3 H3) as [q3 F3].
  exists (rnd q0, [rnd q1; rnd q2; rnd q3]). split; [|reflexivity].
  unfold plog_block.
  cbn [map fitem_index fitem_slice_from fitem_iter nth_error skipn bind mapM].
  rewrite F0, F1, F2, F3. reflexivity.
Qed.

(** [plog_parameters] never raises: every block the PLOG pattern captures
    converts to a pressure and three values, so the result is [None]
    without a block and the grouping of the blocks by pressure with one. *)
Theorem plog_parameters_never_raises :
  forall (F : Type) (rnd : Q -> F)
         (F_eq_dec : forall x y : F, {x = y} + {x <> y}) (s : string),
  exists blocks,
    mapM (plog_block rnd) (apf.all_captures plog_pattern s) = Ok blocks
    /\ Forall (fun b => length (snd b) = 3) blocks
    /\ (blocks = [] <-> apf.has_match plog_pattern s = false)
    /\ plog_parameters rnd F_eq_dec s
       = Ok (match blocks with
             | [] => None
             | _ => Some (group_all F_eq_dec (fun v => [v])
                            (fun old v => old ++ [v]) blocks [])
             end).
Proof.
  intros F rnd F_eq_dec s.
  destruct (mapM_all_ok (plog_block rnd) (fun b => length (snd b) = 3) _
              (plog_blocks_convert rnd s)) as (blocks & Hb & Hl).
  exists blocks. split; [exact Hb|]. split; [exact Hl|].
  pose proof (mapM_length _ _ _ Hb) as Hlen.
  split.
  - rewrite all_captures_none.
    destruct blocks, (apf.all_captures plog_pattern s); simpl in Hlen;
      try discriminate Hlen; split; intros E; try reflexivity;
      discriminate E.
  - unfold plog_parameters.
    destruct (apf.all_captures plog_pattern s) as [|x t] eqn:E.
    + destruct blocks; [reflexivity | discriminate Hlen].
    + rewrite (foldM_group F_eq_dec _ _ (plog_block rnd) _
                 (plog_step_group rnd F_eq_dec) _ _ _ Hb).
      destruct blocks; [discriminate Hlen | reflexivity].
Qed.

Lemma dict_set_not_empty {K V} (K_eq_dec : forall x y : K, {x = y} + {x <> y})
  k (v : V) d : dict_set K_eq_dec k v d <> [].
Proof.
  destruct d as [|[k' v'] t]; simpl; [discriminate|].
  destruct (K_eq_dec k k'); discriminate.
Qed.

Lemma dict_set_keys_all {K V} (K_eq_dec : forall x y : K, {x = y} + {x <> y})
  (P : K -> Prop) k (v : V) d :
  P k -> Forall P (dict_keys d) -> Forall P (dict_keys (dict_set K_eq_dec k v d)).
Proof.
  intros Hk Hd. rewrite dict_keys_set.
  destruct (dict_get K_eq_dec k d); [exact Hd|].
  apply Forall_app. split; [exact Hd | constructor; [exact Hk | constructor]].
Qed.

Lemma factor_pattern_groups :
  re.ngroups factor_pattern = 2
  /\ sure_caps factor_pattern = [(0, species_name); (1, NUMBER)].
Proof. split; reflexivity. Qed.

(** A pair captured by the factor pattern converts: a species name and a
    float. *)
Lemma bath_pairs_convert {F} (rnd : Q -> F) line :
  Forall (fun it => exists name w val,
                      it = FTup [name; w] /\ lang species_name name
                      /\ float_of_str rnd w = Ok val)
         (apf.all_captures factor_pattern line).
Proof.
  eapply Forall_impl; [|apply all_captures_groups; simpl; lia].
  intros it (c & -> & L & Hc).
  rewrite (proj2 factor_pattern_groups) in Hc.
  rewrite (proj1 factor_pattern_groups) in L.
  destruct c as [|x0 [|x1 [|? ?]]]; try discriminate L.
  inversion Hc as [|? ? (w0 & E0 & H0) Hc1]; subst.
  inversion Hc1 as [|? ? (w1 & E1 & H1) _]; subst.
  simpl in E0, E1. inversion E0; inversion E1; subst.
  destruct (float_of_number rnd w1 H1) as [q1 F1].
  exists w0, w1, (rnd q1). auto.
Qed.

Lemma foldM_bath_step {F} (rnd : Q -> F) baths :
  Forall (fun it => exists name w val,
                      it = FTup [name; w] /\ lang species_name name
                      /\ float_of_str rnd w = Ok val) baths ->
  forall d,
    Forall (lang species_name) (dict_keys d) ->
    exists d',
      foldM (bath_step rnd) baths d = Ok d'
      /\ Forall (lang species_name) (dict_keys d')
      /\ (baths <> [] -> d' <> []).
Proof.
  induction 1 as [|it t (name & w & val & -> & Hn & Hv) _ IH]; intros d Hd.
  - exists d. repeat split; auto.
  - cbn [foldM]. unfold bath_step at 1.
    cbn [fitem_index nth_error bind]. rewrite Hv. cbn [bind].
    destruct (IH (dict_set string_dec name val d)) as (d' & E & Hk & Hne).
    { apply dict_set_keys_all; assumption. }
    exists d'. split; [exact E|]. split; [exact Hk|]. intros _.
    destruct t as [|it' t'].
    + cbn [foldM] in E. inversion E; subst. apply dict_set_not_empty.
    + apply Hne. discriminate.
Qed.

(** The loop over the lines never fails, and keeps the factors [None] or
    a mapping that is not empty, with species names as keys. *)
Lemma foldM_line_step_ok {F} (rnd : Q -> F) lines : forall st,
  match st with
  | None => True
  | Some d => d <> [] /\ Forall (lang species_name) (dict_keys d)
  end ->
  exists r,
    foldM (line_step rnd) lines st = Ok r
    /\ match r with
       | None => True
       | Some d => d <> [] /\ Forall (lang species_name) (dict_keys d)
       end.
Proof.
  induction lines as [|line t IH]; intros st Hst.
  - exists st. auto.
  - cbn [foldM]. rewrite line_step_baths.
    pose proof (bath_pairs_convert rnd line) as Hb. unfold line_baths.
    destruct (negb _); [|cbn [bind]; apply IH; exact Hst].
    destruct (apf.all_captures factor_pattern line) as [|it baths] eqn:E;
      [cbn [bind]; apply IH; exact Hst|].
    destruct (foldM_bath_step rnd (it :: baths) Hb [] (Forall_nil _))
      as (d' & Ed & Hk & Hne).
    rewrite Ed. cbn [bind]. apply IH. split; [|exact Hk].
    apply Hne. discriminate.
Qed.

(** [buffer_enhance_factors] never raises, and the mapping it returns is
    never empty: it is [None], or at least one species with its factor,
    every key being a text of the species-name pattern.  Every pair the
    factor pattern captures converts, since its second group is a number
    text. *)
Theorem buffer_enhance_factors_never_raises :
  forall (F : Type) (rnd : Q -> F) (s : string),
  exists r,
    buffer_enhance_factors rnd s = Ok r
    /\ match r with
       | None => True
       | Some d => d <> [] /\ Forall (lang species_name) (dict_keys d)
       end.
Proof.
  intros F rnd s. unfold buffer_enhance_factors.
  destruct (_ || _); [|exists None; auto].
  apply foldM_line_step_ok. exact I.
Qed.

(** ** Coefficient rows *)

Lemma split_ws_word w : forall rest cur,
  all_chars nonspace w = true ->
  split_ws (w +++ rest) cur
  = split_ws rest (rev (list_ascii_of_string w) ++ cur).
Proof.
  induction w as [|a w IH]; intros rest cur H; [reflexivity|].
  cbn [all_chars] in H. apply andb_true_iff in H. destruct H as [Ha Hw].
  unfold nonspace in Ha. apply negb_true_iff in Ha.
  cbn [String.append split_ws list_ascii_of_string rev]. rewrite Ha.
  rewrite IH by exact Hw. rewrite <- app_assoc. reflexivity.
Qed.

Lemma split_ws_spaces l : forall rest,
  all_chars is_space l = true ->
  split_ws (l +++ rest) [] = split_ws rest [].
Proof.
  induction l as [|a l IH]; intros rest H; [reflexivity|].
  cbn [all_chars] in H. apply andb_true_iff in H. destruct H as [Ha Hl].
  cbn [String.append split_ws]. rewrite Ha. cbn [flush]. apply IH. exact Hl.
Qed.

(** A word followed by whitespace, or by nothing, is the first word. *)
Lemma split_ws_first w rest :
  w <> "" -> all_chars nonspace w = true ->
  rest = "" \/ starts_with is_space rest = true ->
  split_ws (w +++ rest) [] = w :: split_ws rest [].
Proof.
  intros Hn Hw Hr. rewrite split_ws_word by exact Hw. rewrite app_nil_r.
  assert (Hf : forall acc,
             flush (rev (list_ascii_of_string w)) acc = w :: acc).
  { intros acc. unfold flush.
    destruct (rev (list_ascii_of_string w)) as [|x l] eqn:E.
    - exfalso. apply Hn. apply (f_equal (@rev ascii)) in E.
      rewrite rev_involutive in E. simpl in E.
      rewrite <- (string_of_list_ascii_of_string w), E. reflexivity.
    - rewrite <- E, rev_involutive, string_of_list_ascii_of_string.
      reflexivity. }
  destruct Hr as [->|Hr].
  - cbn [split_ws]. apply Hf.
  - destruct rest as [|a t]; [discriminate Hr|]. cbn [starts_with] in Hr.
    cbn [split_ws]. rewrite Hr. cbn [flush]. apply Hf.
Qed.

Lemma linespace_is_space a : is_linespace a = true -> is_space a = true.
Proof.
  destruct a as [[] [] [] [] [] [] [] []]; intros H;
    try discriminate H; reflexivity.
Qed.

Lemma number_not_empty w : lang NUMBER w -> w <> "".
Proof. apply lang_nonempty. reflexivity. Qed.

Lemma number_nonspace w : lang NUMBER w -> all_chars nonspace w = true.
Proof. apply (lang_chars _ _ _ (proj1 number_patterns_nonspace)). Qed.

Lemma starts_with_append_nonempty P l rest :
  l <> "" -> all_chars P l = true -> starts_with P (l +++ rest) = true.
Proof.
  destruct l as [|a l]; [congruence|]. intros _ H.
  cbn [all_chars] in H. apply andb_true_iff in H. destruct H as [Ha _].
  exact Ha.
Qed.

(** The words of a text of the coefficient pattern: its three numbers. *)
Lemma coeff_words w :
  lang COEFF_PATTERN w ->
  exists n1 n2 n3,
    str_split w = [n1; n2; n3]
    /\ lang NUMBER n1 /\ lang NUMBER n2 /\ lang NUMBER n3.
Proof.
  intros H.
  apply lang_seq_inv in H. destruct H as (n1 & u1 & -> & H1 & H).
  apply lang_seq_inv in H. destruct H as (l1 & u2 & -> & L1 & H).
  apply lang_seq_inv in H. destruct H as (n2 & u3 & -> & H2 & H).
  apply lang_seq_inv in H. destruct H as (l2 & n3 & -> & L2 & H3).
  apply lang_plus_cls in L1. destruct L1 as [L1 N1].
  apply lang_plus_cls in L2. destruct L2 as [L2 N2].
  assert (S1 : all_chars is_space l1 = true).
  { apply (all_chars_weaken is_linespace); [exact linespace_is_space|exact L1]. }
  assert (S2 : all_chars is_space l2 = true).
  { apply (all_chars_weaken is_linespace); [exact linespace_is_space|exact L2]. }
  exists n1, n2, n3. split; [|auto]. unfold str_split.
  rewrite split_ws_first;
    [ | apply number_not_empty; exact H1 | apply number_nonspace; exact H1
      | right; apply starts_with_append_nonempty; assumption ].
  rewrite split_ws_spaces by exact S1.
  rewrite split_ws_first;
    [ | apply number_not_empty; exact H2 | apply number_nonspace; exact H2
      | right; apply starts_with_append_nonempty; assumption ].
  rewrite split_ws_spaces by exact S2.
  rewrite <- (append_nil_r n3) at 1.
  rewrite split_ws_first;
    [ | apply number_not_empty; exact H3 | apply number_nonspace; exact H3
      | left; reflexivity ].
  reflexivity.
Qed.

(** The items of [all_captures] for a pattern with one group, which takes
    part in every match: the texts of the group. *)
Lemma all_captures_one_group r body s :
  re.ngroups r = 1 -> sure_caps r = [(0, body)] ->
  Forall (fun it => exists w, it = FStr w /\ lang body w)
         (apf.all_captures r s).
Proof.
  intros Hn Hs. rewrite all_captures_strings by exact Hn.
  pose proof (finditer_groups r s) as H.
  induction H as [|f fs [L Hc] _ IH]; cbn [map]; constructor; [|exact IH].
  rewrite Hs in Hc. inversion Hc as [|? ? (w & Hw & Hl) _]; subst.
  exists w. split; [|exact Hl]. unfold group1.
  destruct (re.f_caps f) as [|x t]; [discriminate Hw|].
  simpl in Hw. inversion Hw; subst. reflexivity.
Qed.

Lemma high_p_pattern_groups :
  re.ngroups high_p_pattern = 1
  /\ sure_caps high_p_pattern = [(0, COEFF_PATTERN)].
Proof. split; reflexivity. Qed.

(** [high_p_parameters] never raises, and each of its rows holds exactly
    three values: the coefficient group of a match is three number texts
    separated by spaces or tabs, which [split] takes apart again. *)
Theorem high_p_parameters_rows_of_three :
  forall (V : Type) (ap_cast : string -> V) (s : string),
    (apf.has_match high_p_pattern s = false
     /\ high_p_parameters ap_cast s = Ok None)
    \/ (apf.has_match high_p_pattern s = true
        /\ exists rows,
             high_p_parameters ap_cast s = Ok (Some rows)
             /\ rows <> []
             /\ Forall (fun row =>
                          exists n1 n2 n3,
                            row = [ap_cast n1; ap_cast n2; ap_cast n3]
                            /\ lang NUMBER n1 /\ lang NUMBER n2
                            /\ lang NUMBER n3) rows).
Proof.
  intros V ap_cast s.
  pose proof (all_captures_one_group high_p_pattern COEFF_PATTERN s
                (proj1 high_p_pattern_groups) (proj2 high_p_pattern_groups))
    as Hc.
  destruct (mapM_all_ok
              (fun str => words <- fitem_split str ;; Ok (map ap_cast words))
              (fun row => exists n1 n2 n3,
                            row = [ap_cast n1; ap_cast n2; ap_cast n3]
                            /\ lang NUMBER n1 /\ lang NUMBER n2
                            /\ lang NUMBER n3)
              (apf.all_captures high_p_pattern s)) as (rows & Hr & Hrows).
  { eapply Forall_impl; [|exact Hc]. intros it (w & -> & Hw).
    destruct (coeff_words w Hw) as (n1 & n2 & n3 & E & H1 & H2 & H3).
    exists [ap_cast n1; ap_cast n2; ap_cast n3].
    split; [|exists n1, n2, n3; auto].
    cbn [fitem_split bind]. rewrite E. reflexivity. }
  pose proof (mapM_length _ _ _ Hr) as Hlen.
  unfold high_p_parameters.
  destruct (apf.has_match high_p_pattern s) eqn:Hm.
  - right. split; [reflexivity|].
    destruct (apf.all_captures high_p_pattern s) as [|x t] eqn:E.
    + apply all_captures_none in E. congruence.
    + exists rows. rewrite Hr. split; [reflexivity|]. split; [|exact Hrows].
      destruct rows; [discriminate Hlen | discriminate].
  - left. split; [reflexivity|].
    apply all_captures_none in Hm. rewrite Hm. reflexivity.
Qed.

(** ** [ratek_fit_info] *)

Lemma ratek_patterns_groups :
  re.ngroups trange_ptt = 2
  /\ (re.ngroups mean_ptt = 1 /\ sure_caps mean_ptt = [(0, FLOAT)])
  /\ (re.ngroups max_ptt = 1 /\ sure_caps max_ptt = [(0, FLOAT)]).
Proof. repeat split. Qed.

Lemma fitem_floats_convert {F} (rnd : Q -> F) r s :
  re.ngroups r = 1 -> sure_caps r = [(0, FLOAT)] ->
  exists vals,
    mapM (fitem_float rnd) (apf.all_captures r s) = Ok vals
    /\ length vals = length (apf.all_captures r s).
Proof.
  intros Hn Hs.
  destruct (mapM_all_ok (fitem_float rnd) (fun _ => True)
              (apf.all_captures r s)) as (vals & Hv & _).
  { eapply Forall_impl; [|apply (all_captures_one_group r FLOAT s Hn Hs)].
    intros it (w & -> & Hw).
    destruct (float_of_float rnd w Hw) as [q Hq].
    exists (rnd q). split; [exact Hq | exact I]. }
  exists vals. split; [exact Hv|]. apply (mapM_length _ _ _ Hv).
Qed.

(** The outcomes of [ratek_fit_info]: it never returns anything but the
    empty dictionary.  A TempRange match is unpacked and then appended with
    [apppend], which a list does not have: [AttributeError].  Without one,
    both lists of errors convert, and the last loop unpacks a float of
    [max_vals]: [TypeError] as soon as there is a MaxErr match.  What is
    left is a text with neither, for which the dictionary stays empty. *)
Theorem ratek_fit_info_outcomes :
  forall (F : Type) (rnd : Q -> F) (s : string),
    ratek_fit_info rnd s
    = if apf.has_match trange_ptt s then Raise AttributeError
      else if apf.has_match max_ptt s then Raise TypeError
      else Ok [].
Proof.
  intros F rnd s. unfold ratek_fit_info.
  destruct ratek_patterns_groups as (Ht & [Hn1 Hs1] & [Hn2 Hs2]).
  destruct (apf.has_match trange_ptt s) eqn:Hm.
  - pose proof (all_captures_tuples trange_ptt s) as Hc.
    rewrite Ht in Hc. specialize (Hc (le_n 2)).
    destruct (apf.all_captures trange_ptt s) as [|it rest] eqn:E.
    + apply all_captures_none in E. congruence.
    + inversion Hc as [|? ? (l & -> & Hl) _]; subst.
      destruct l as [|t1 [|t2 [|? ?]]]; try discriminate Hl. reflexivity.
  - apply all_captures_none in Hm. rewrite Hm. cbn [foldM bind].
    destruct (fitem_floats_convert rnd mean_ptt s Hn1 Hs1) as (mv & -> & _).
    destruct (fitem_floats_convert rnd max_ptt s Hn2 Hs2) as (xv & -> & Hl).
    cbn [bind].
    destruct (apf.has_match max_ptt s) eqn:Hx.
    + destruct (apf.all_captures max_ptt s) as [|it rest] eqn:E.
      * apply all_captures_none in E. congruence.
      * destruct xv as [|x xv]; [discriminate Hl|]. reflexivity.
    + apply all_captures_none in Hx. rewrite Hx in Hl.
      destruct xv; [reflexivity | discriminate Hl].
Qed.

(** ** The rows of Chebyshev coefficients *)

Lemma m_seq_eq {R} n r1 r2 i s c (k : string -> re.caps -> option R) :
  re.m n (r1 +> r2) i s c k
  = re.m n r1 i s c (fun s1 c1 => re.m n r2 (i + re.ngroups r1) s1 c1 k).
Proof. reflexivity. Qed.

Lemma m_star_eq {R} n r i s c (k : string -> re.caps -> option R) :
  re.m n (re.Star r) i s c k
  = re.rep (re.m n r i) k (S (String.length s)) s c.
Proof. reflexivity. Qed.

(** A pattern without groups leaves the groups as they are. *)
Lemma m_unchanged {R} n r i s c (k : string -> re.caps -> option R) x :
  re.ngroups r = 0 -> i <= length c ->
  re.m n r i s c k = Some x ->
  exists w s', s = w +++ s' /\ lang r w /\ k s' c = Some x.
Proof.
  intros Hn Hi H. apply m_groups in H; [|lia].
  destruct H as (w & s' & c' & Hs & Hw & Hf & _ & H).
  rewrite Hn, Nat.add_0_r in Hf. apply frame_none in Hf. subst c'.
  exists w, s'. auto.
Qed.

(** Two nested groups [(A(B))]. *)
Lemma m_nested {R} A B n i s c (k : string -> re.caps -> option R) x :
  re.ngroups A = 0 -> re.ngroups B = 0 -> S (S i) <= length c ->
  re.m n (re.Cap (A +> re.Cap B)) i s c k = Some x ->
  exists wa wb s',
    lang A wa /\ lang B wb
    /\ k s' (re.set_cap i (wa +++ wb) (re.set_cap (S i) wb c)) = Some x.
Proof.
  intros HA HB Hlen H. cbn [re.m] in H. rewrite HA, Nat.add_0_r in H.
  apply m_unchanged in H; [|exact HA|lia].
  destruct H as (wa & s1 & -> & Hwa & H).
  apply m_unchanged in H; [|exact HB|lia].
  destruct H as (wb & s2 & -> & Hwb & H).
  rewrite consumed_append in H.
  rewrite <- append_assoc, consumed_append in H.
  exists wa, wb, s2. auto.
Qed.

Lemma rep_invariant {R} (Inv : re.caps -> Prop)
  (body : string -> re.caps -> (string -> re.caps -> option R) -> option R)
  (k : string -> re.caps -> option R) :
  (forall s c k' x, Inv c -> body s c k' = Some x ->
     exists s' c', Inv c' /\ k' s' c' = Some x) ->
  forall fuel s c x,
    Inv c -> re.rep body k fuel s c = Some x ->
    exists s' c', Inv c' /\ k s' c' = Some x.
Proof.
  intros Hb. induction fuel as [|fuel IH]; intros s c x Hc H;
    cbn [re.rep] in H.
  - exists s, c. auto.
  - destruct (body s c _) as [y|] eqn:E.
    + inversion H; subst y; clear H.
      apply Hb in E; [|exact Hc]. destruct E as (s1 & c1 & Hc1 & Hk).
      destruct (Nat.ltb _ _); [|discriminate].
      apply IH in Hk; [exact Hk | exact Hc1].
    + exists s, c. auto.
Qed.

Lemma padded_pair_of wa wb :
  lang SPACES wa -> lang EXPONENTIAL_FLOAT wb ->
  padded_pair (Some (wa +++ wb)) (Some wb).
Proof.
  intros Ha Hb. apply lang_plus_cls in Ha. destruct Ha as [Ha _].
  exists wa, wb. auto.
Qed.

(** The groups of a match of the coefficient-row pattern. *)
Lemma match_at_cheb_row n s s' c' :
  re.match_at n alpha_elements_pattern s = Some (s', c') -> cheb_row_caps c'.
Proof.
  unfold re.match_at, alpha_elements_pattern, series. intros H.
  change (re.ngroups _) with 4 in H. cbn [repeat] in H.
  rewrite m_seq_eq in H.
  apply m_unchanged in H; [|reflexivity|simpl; lia].
  destruct H as (_ & s1 & _ & _ & H).
  rewrite m_seq_eq in H.
  apply m_unchanged in H; [|reflexivity|simpl; lia].
  destruct H as (_ & s2 & _ & _ & H).
  rewrite m_seq_eq in H.
  apply m_unchanged in H; [|reflexivity|simpl; lia].
  destruct H as (_ & s3 & _ & _ & H).
  rewrite m_seq_eq in H. rewrite m_seq_eq in H.
  apply m_nested in H; [|reflexivity|reflexivity|simpl; lia].
  destruct H as (wa & wb & s4 & Hwa & Hwb & H).
  cbn [re.set_cap] in H. rewrite m_star_eq in H.
  apply (rep_invariant cheb_row_caps) in H.
  - destruct H as (s5 & c5 & Hc5 & H).
    apply m_unchanged in H; [|reflexivity|].
    + destruct H as (_ & s6 & _ & _ & H). inversion H; subst. exact Hc5.
    + destruct Hc5 as (x0 & x1 & x2 & x3 & -> & _). simpl. lia.
  - intros s0 c0 k' x0 Hc0 H0.
    destruct Hc0 as (y0 & y1 & y2 & y3 & -> & Hp & _).
    rewrite m_seq_eq in H0.
    apply m_unchanged in H0; [|reflexivity|simpl; lia].
    destruct H0 as (_ & t1 & _ & _ & H0).
    apply m_nested in H0; [|reflexivity|reflexivity|simpl; lia].
    destruct H0 as (la & lb & t2 & Hla & Hlb & H0).
    eexists _, _. split; [|exact H0].
    exists y0, y1, (Some (la +++ lb)), (Some lb).
    split; [reflexivity|]. split; [exact Hp|].
    right. apply padded_pair_of; assumption.
  - exists (Some (wa +++ wb)), (Some wb), None, None.
    split; [reflexivity|]. split; [apply padded_pair_of; assumption|].
    left. auto.
Qed.

Lemma all_captures_caps r (P : re.caps -> Prop) s :
  2 <= re.ngroups r ->
  (forall n s0 s' c', re.match_at n r s0 = Some (s', c') -> P c') ->
  Forall (fun it =>
            exists c,
              it = FTup (map (fun g => match g with
                                       | Some x => x
                                       | None => ""
                                       end) c)
              /\ P c)
         (apf.all_captures r s).
Proof.
  intros Hn HP. unfold apf.all_captures, re.findall.
  pose proof (finditer_caps r P s HP) as H.
  induction H as [|f fs Hf _ IH]; cbn [map]; constructor; [|exact IH].
  exists (re.f_caps f). split; [|exact Hf].
  unfold re.findall_item.
  destruct (re.ngroups r) as [|[|k]] eqn:E; try lia. reflexivity.
Qed.

Lemma lstrip_spaces l w :
  all_chars is_space l = true -> lstrip (l +++ w) = lstrip w.
Proof.
  induction l as [|a l IH]; intros H; [reflexivity|].
  cbn [all_chars] in H. apply andb_true_iff in H. destruct H as [Ha Hl].
  cbn [String.append lstrip]. rewrite Ha. apply IH. exact Hl.
Qed.

Lemma Forall2_Forall_r {A B} (R : A -> B -> Prop) (P : A -> Prop)
  (Q : B -> Prop) l l' :
  (forall x y, P x -> R x y -> Q y) ->
  Forall2 R l l' -> Forall P l -> Forall Q l'.
Proof.
  intros H H2. induction H2 as [|x y l l' Hxy _ IH]; intros HP;
    [constructor|].
  inversion HP; subst. constructor; [eapply H; eauto | apply IH; assumption].
Qed.

Section ChebRows.
Context {F : Type} (rnd : Q -> F).

Lemma float_of_str_padded l w :
  all_chars is_space l = true ->
  float_of_str rnd (l +++ w) = float_of_str rnd w.
Proof.
  intros H. unfold float_of_str, strip. rewrite lstrip_spaces by exact H.
  reflexivity.
Qed.

(** From a tuple of two groups or more, as many values as groups. *)
Lemma tuple_values {A} r s (f : option string -> result A) vals :
  2 <= re.ngroups r ->
  (vals0 <- py_iter (apf.first_capture r s) ;; mapM f vals0) = Ok vals ->
  length vals = re.ngroups r.
Proof.
  intros Hn H.
  destruct (first_capture_tuple r s Hn) as [[_ E] | (c & _ & E & L & _)];
    rewrite E in H; cbn [py_iter bind] in H; [discriminate H|].
  rewrite (mapM_length _ _ _ H). exact L.
Qed.

End ChebRows.

(** ** Which coefficients a row holds *)

Lemma lang_escape t : forall w, lang (escape t) w -> w = t.
Proof.
  induction t as [|a t IH]; intros w H; cbn [escape] in H.
  - apply lang_eps_inv. exact H.
  - destruct t as [|b t].
    + apply lang_char. exact H.
    + apply lang_seq_inv in H. destruct H as (w1 & w2 & -> & H1 & H2).
      apply lang_char in H1. apply IH in H2. subst. reflexivity.
Qed.

(** Lifting a fact on the text and the groups of a match to [find], to
    the scan and to [finditer]. *)
Lemma find_found n r (P : string -> re.caps -> Prop) :
  (forall s s' c', re.match_at n r s = Some (s', c') ->
                   P (re.consumed s s') c') ->
  forall s f, re.find n r s = Some f -> P (re.f_match f) (re.f_caps f).
Proof.
  intros Hm. induction s as [|a t IH]; intros f H; cbn [re.find] in H.
  - destruct (re.match_at n r "") as [[s' c']|] eqn:E; [|discriminate].
    inversion H; subst f. apply (Hm _ _ _ E).
  - destruct (re.match_at n r (String a t)) as [[s' c']|] eqn:E.
    + inversion H; subst f. apply (Hm _ _ _ E).
    + destruct (re.find n r t) as [g|] eqn:G; [|discriminate].
      inversion H; subst f. apply (IH g eq_refl).
Qed.

Lemma scan_found n r (P : string -> re.caps -> Prop) :
  (forall s s' c', re.match_at n r s = Some (s', c') ->
                   P (re.consumed s s') c') ->
  forall fuel s fs tl,
    re.scan fuel n r s = (fs, tl) ->
    Forall (fun f => P (re.f_match f) (re.f_caps f)) fs.
Proof.
  intros Hm. induction fuel as [|fuel IH]; intros s fs tl H; cbn [re.scan] in H.
  - inversion H. constructor.
  - destruct (re.find n r s) as [f|] eqn:E; [|inversion H; constructor].
    pose proof (find_found n r P Hm _ _ E) as Hf.
    destruct (re.f_match f) as [|b w] eqn:Ef.
    + destruct (re.f_after f) as [|a t].
      * inversion H; subst. repeat constructor. rewrite Ef. exact Hf.
      * destruct (re.scan fuel n r t) as [gs tl'] eqn:G.
        specialize (IH _ _ _ G). destruct gs as [|g gs].
        -- inversion H; subst. repeat constructor. rewrite Ef. exact Hf.
        -- inversion H; subst fs tl. inversion IH; subst.
           constructor; [rewrite Ef; exact Hf|]. constructor; assumption.
    + destruct (re.scan fuel n r (re.f_after f)) as [gs tl'] eqn:G.
      specialize (IH _ _ _ G). inversion H; subst fs tl.
      constructor; [rewrite Ef; exact Hf | exact IH].
Qed.

Lemma finditer_found r (P : string -> re.caps -> Prop) s :
  (forall n s0 s' c', re.match_at n r s0 = Some (s', c') ->
                      P (re.consumed s0 s') c') ->
  Forall (fun f => P (re.f_match f) (re.f_caps f)) (fst (re.finditer r s)).
Proof.
  intros Hm. unfold re.finditer.
  destruct (re.scan _ _ r s) as [fs tl] eqn:E. simpl.
  eapply scan_found; [|exact E]. intros; eapply Hm; eauto.
Qed.

(** Two nested groups [(A(B))], with the text they consume. *)
Lemma m_nested_text {R} A B n i s c (k : string -> re.caps -> option R) x :
  re.ngroups A = 0 -> re.ngroups B = 0 -> S (S i) <= length c ->
  re.m n (re.Cap (A +> re.Cap B)) i s c k = Some x ->
  exists wa wb s',
    s = wa +++ wb +++ s' /\ lang A wa /\ lang B wb
    /\ k s' (re.set_cap i (wa +++ wb) (re.set_cap (S i) wb c)) = Some x.
Proof.
  intros HA HB Hlen H. cbn [re.m] in H. rewrite HA, Nat.add_0_r in H.
  apply m_unchanged in H; [|exact HA|lia].
  destruct H as (wa & s1 & -> & Hwa & H).
  apply m_unchanged in H; [|exact HB|lia].
  destruct H as (wb & s2 & -> & Hwb & H).
  rewrite consumed_append in H.
  rewrite <- append_assoc, consumed_append in H.
  exists wa, wb, s2. auto.
Qed.

(** The greedy loop keeps what its body keeps, of the text and the groups. *)
Lemma rep_invariant_text {R} (Inv : string -> re.caps -> Prop)
  (body : string -> re.caps -> (string -> re.caps -> option R) -> option R)
  (k : string -> re.caps -> option R) :
  (forall s c k' x, Inv s c -> body s c k' = Some x ->
     exists s' c', Inv s' c' /\ k' s' c' = Some x) ->
  forall fuel s c x,
    Inv s c -> re.rep body k fuel s c = Some x ->
    exists s' c', Inv s' c' /\ k s' c' = Some x.
Proof.
  intros Hb. induction fuel as [|fuel IH]; intros s c x Hc H;
    cbn [re.rep] in H.
  - exists s, c. auto.
  - destruct (body s c _) as [y|] eqn:E.
    + inversion H; subst y; clear H.
      apply Hb in E; [|exact Hc]. destruct E as (s1 & c1 & Hc1 & Hk).
      destruct (Nat.ltb _ _); [|discriminate].
      apply IH in Hk; [exact Hk | exact Hc1].
    + exists s, c. auto.
Qed.

Lemma coeff_run_app cs1 cs2 :
  coeff_run (cs1 ++ cs2) = coeff_run cs1 +++ coeff_run cs2.
Proof.
  induction cs1 as [|lc t IH]; [reflexivity|].
  cbn [app coeff_run]. rewrite IH, !append_assoc. reflexivity.
Qed.

Lemma coeff_ok_of sep la lb :
  lang SPACES sep -> lang SPACES la -> lang EXPONENTIAL_FLOAT lb ->
  coeff_ok (sep +++ la, lb).
Proof.
  intros Hs Ha Hb. apply lang_plus_cls in Hs, Ha.
  destruct Hs as [Hs Hn], Ha as [Ha _]. unfold coeff_ok. cbn [fst snd].
  split; [|split; [|exact Hb]].
  - intros E. apply append_empty in E. tauto.
  - rewrite all_chars_append, Hs, Ha. reflexivity.
Qed.

(** A match of the coefficient-row pattern: the text of a CHEB line, and
    the groups that go with its coefficients. *)
Lemma match_at_cheb_line n s s' c' :
  re.match_at n alpha_elements_pattern s = Some (s', c') ->
  exists sp0 cs sp1,
    re.consumed s s' = cheb_line sp0 cs sp1
    /\ all_chars is_space sp0 = true /\ all_chars is_space sp1 = true
    /\ Forall coeff_ok cs /\ cheb_line_caps cs c'.
Proof.
  unfold re.match_at, alpha_elements_pattern, series. intros H.
  change (re.ngroups _) with 4 in H. cbn [repeat] in H.
  rewrite m_seq_eq in H.
  apply m_unchanged in H; [|reflexivity|simpl; lia].
  destruct H as (w1 & s1 & -> & Hw1 & H). apply lang_escape in Hw1.
  rewrite m_seq_eq in H.
  apply m_unchanged in H; [|reflexivity|simpl; lia].
  destruct H as (sp0 & s2 & -> & Hsp0 & H). apply lang_star_cls in Hsp0.
  rewrite m_seq_eq in H.
  apply m_unchanged in H; [|reflexivity|simpl; lia].
  destruct H as (w3 & s3 & -> & Hw3 & H). apply lang_escape in Hw3.
  rewrite m_seq_eq in H. rewrite m_seq_eq in H.
  apply m_nested_text in H; [|reflexivity|reflexivity|simpl; lia].
  destruct H as (wa & wb & s4 & -> & Hwa & Hwb & H).
  cbn [re.set_cap] in H. rewrite m_star_eq in H.
  apply (rep_invariant_text
           (fun t c => exists cs,
                wa +++ wb +++ s4 = coeff_run cs +++ t
                /\ Forall coeff_ok cs /\ cheb_line_caps cs c)) in H.
  - destruct H as (s5 & c5 & (cs & Hs & Hok & Hc5) & H).
    apply m_unchanged in H; [|reflexivity|].
    + destruct H as (w6 & s6 & -> & Hw6 & H). inversion H; subst s6 c5.
      apply lang_seq_inv in Hw6. destruct Hw6 as (sp1 & w7 & -> & Hsp1 & Hw7).
      apply lang_star_cls in Hsp1. apply lang_escape in Hw7. subst w1 w3 w7.
      exists sp0, cs, sp1. rewrite Hs.
      split; [|auto].
      replace ("CHEB" +++ sp0 +++ "/" +++ coeff_run cs +++ (sp1 +++ "/") +++ s')
        with (cheb_line sp0 cs sp1 +++ s').
      * apply consumed_append.
      * unfold cheb_line. rewrite !append_assoc. reflexivity.
    + destruct Hc5 as (l1 & c1 & t & x2 & x3 & _ & -> & _). simpl. lia.
  - intros s0 c0 k' x0 (cs & Hs & Hok & Hc0) H0.
    destruct Hc0 as (l1 & c1 & t & y2 & y3 & -> & -> & _ & _).
    rewrite m_seq_eq in H0.
    apply m_unchanged in H0; [|reflexivity|simpl; lia].
    destruct H0 as (sep & t1 & -> & Hsep & H0).
    apply m_nested_text in H0; [|reflexivity|reflexivity|simpl; lia].
    destruct H0 as (la & lb & t2 & -> & Hla & Hlb & H0).
    eexists _, _. split; [|exact H0].
    exists (((l1, c1) :: t) ++ [(sep +++ la, lb)]).
    split; [|split].
    + rewrite Hs, coeff_run_app. cbn [coeff_run fst snd].
      rewrite !append_assoc. reflexivity.
    + apply Forall_app. split; [exact Hok|].
      constructor; [|constructor]. apply coeff_ok_of; assumption.
    + exists l1, c1, (t ++ [(sep +++ la, lb)]), (Some (la +++ lb)), (Some lb).
      split; [reflexivity|]. split; [reflexivity|]. split.
      * intros E. apply app_eq_nil in E. destruct E as [_ E]. discriminate E.
      * intros _. exists la. apply lang_plus_cls in Hla.
        rewrite map_app. cbn [map snd]. rewrite last_last. tauto.
  - exists [(wa, wb)]. split; [|split].
    + cbn [coeff_run fst snd]. rewrite !append_assoc. reflexivity.
    + constructor; [|constructor]. apply lang_plus_cls in Hwa.
      unfold coeff_ok. cbn [fst snd]. tauto.
    + exists wa, wb, [], None, None. repeat split; auto.
      intros N. exfalso. apply N. reflexivity.
Qed.

Lemma Forall2_map_left {A B C} (g : A -> B) (R : B -> C -> Prop) l l' :
  Forall2 R (map g l) l' -> Forall2 (fun x y => R (g x) y) l l'.
Proof.
  revert l'. induction l as [|x t IH]; intros l' H; inversion H; subst;
    constructor; auto.
Qed.

Lemma Forall2_with_Forall {A B} (P : A -> Prop) (R Q : A -> B -> Prop) l l' :
  (forall x y, P x -> R x y -> Q x y) ->
  Forall P l -> Forall2 R l l' -> Forall2 Q l l'.
Proof.
  intros H HP H2. induction H2 as [|x y l l' Hxy _ IH]; [constructor|].
  inversion HP; subst. constructor; [apply H; assumption | apply IH; assumption].
Qed.

Section ChebLines.
Context {F : Type} (rnd : Q -> F).

(** The row of a line converts only when the line has two coefficients or
    more, and then to the first coefficient twice and the last one
    twice. *)
Lemma cheb_line_floats cs c row :
  Forall coeff_ok cs -> cheb_line_caps cs c ->
  mapM (float_of_str rnd)
       (map (fun g => match g with Some x => x | None => "" end) c)
  = Ok row ->
  exists c1 a b,
    2 <= length cs
    /\ hd_error (map snd cs) = Some c1
    /\ float_of_str rnd c1 = Ok a
    /\ float_of_str rnd (last (map snd cs) "") = Ok b
    /\ row = [a; a; b; b].
Proof.
  intros Hok (l1 & c1 & t & x2 & x3 & -> & -> & Hnil & Hcons) H.
  inversion Hok as [|? ? (_ & Hl1 & _) _]; subst. cbn [fst] in Hl1.
  cbn [map mapM] in H. rewrite float_of_str_padded in H by exact Hl1.
  destruct (float_of_str rnd c1) as [a|] eqn:Ea; cbn [bind] in H;
    [|discriminate H].
  destruct t as [|lc t].
  - destruct (Hnil eq_refl) as [-> ->]. discriminate H.
  - destruct (Hcons ltac:(discriminate)) as (pad & Hpad & -> & ->).
    rewrite float_of_str_padded in H by exact Hpad.
    destruct (float_of_str rnd (last (map snd (lc :: t)) "")) as [b|] eqn:Eb;
      cbn [bind] in H; [|discriminate H].
    inversion H. exists c1, a, b.
    split; [simpl; lia|]. split; [reflexivity|]. split; [exact Ea|].
    split; [|reflexivity].
    change (map snd ((l1, c1) :: lc :: t))
      with (c1 :: map snd (lc :: t)).
    cbn [map]. cbn [map] in Eb. exact Eb.
Qed.

End ChebLines.

Lemma findall_item_cheb f :
  re.findall_item alpha_elements_pattern f
  = FTup (map (fun g => match g with Some x => x | None => "" end)
              (re.f_caps f)).
Proof. reflexivity. Qed.

(** What a Chebyshev record holds: two temperature limits, two pressure
    limits, two dimensions, and one row of coefficients for each match of
    the coefficient-row pattern, at least one.  The text of a match is a
    CHEB line with two coefficients or more, and its row has four entries
    whatever their number: the first coefficient of that line twice and
    the last one twice, because the pattern repeats its two nested groups
    and [findall] reports each group once. *)
Theorem chebyshev_parameters_rows :
  forall (F : Type) (rnd : Q -> F) (s : string) (p : cheb_params F),
    chebyshev_parameters rnd s = Ok (Some p) ->
    length (t_limits p) = 2 /\ length (p_limits p) = 2
    /\ length (alpha_dim p) = 2 /\ alpha_elm p <> []
    /\ Forall (fun row => exists a b, row = [a; a; b; b]) (alpha_elm p)
    /\ Forall2 (fun f row =>
                  exists sp0 cs sp1 c1 a b,
                    re.f_match f = cheb_line sp0 cs sp1
                    /\ all_chars is_space sp0 = true
                    /\ all_chars is_space sp1 = true
                    /\ Forall coeff_ok cs /\ 2 <= length cs
                    /\ hd_error (map snd cs) = Some c1
                    /\ float_of_str rnd c1 = Ok a
                    /\ float_of_str rnd (last (map snd cs) "") = Ok b
                    /\ row = [a; a; b; b])
               (fst (re.finditer alpha_elements_pattern s)) (alpha_elm p).
Proof.
  intros F rnd s p. unfold chebyshev_parameters.
  pose proof (tuple_values temp_pattern s (py_float rnd)) as Ht.
  pose proof (tuple_values pressure_pattern s (py_float rnd)) as Hp.
  pose proof (tuple_values alpha_dimension_pattern s py_int) as Hd.
  assert (Hgo :
    forall es0,
      (ts <- (vals <- py_iter (apf.first_capture temp_pattern s) ;;
              mapM (py_float rnd) vals) ;;
       ps <- (vals <- py_iter (apf.first_capture pressure_pattern s) ;;
              mapM (py_float rnd) vals) ;;
       ds <- (vals <- py_iter (apf.first_capture alpha_dimension_pattern s) ;;
              mapM py_int vals) ;;
       es <- es0 ;;
       Ok (Some (mkCheb ts ps ds es))) = Ok (Some p) ->
      exists es, es0 = Ok es /\ alpha_elm p = es
                 /\ length (t_limits p) = 2 /\ length (p_limits p) = 2
                 /\ length (alpha_dim p) = 2).
  { intros es0 H.
    destruct (vals <- py_iter (apf.first_capture temp_pattern s) ;;
              mapM (py_float rnd) vals) as [ts|] eqn:E1;
      cbn [bind] in H; [|discriminate H].
    destruct (vals <- py_iter (apf.first_capture pressure_pattern s) ;;
              mapM (py_float rnd) vals) as [ps|] eqn:E2;
      cbn [bind] in H; [|discriminate H].
    destruct (vals <- py_iter (apf.first_capture alpha_dimension_pattern s) ;;
              mapM py_int vals) as [ds|] eqn:E3;
      cbn [bind] in H; [|discriminate H].
    destruct es0 as [es|]; cbn [bind] in H; [|discriminate H].
    inversion H; subst p. exists es. cbn.
    rewrite (Ht ts), (Hp ps), (Hd ds); auto; simpl; lia. }
  intros H.
  assert (Hes : exists es,
             mapM (fun row => mapM (float_of_str rnd) (fitem_iter row))
                  (apf.all_captures alpha_elements_pattern s) = Ok es
             /\ alpha_elm p = es
             /\ apf.all_captures alpha_elements_pattern s <> []
             /\ length (t_limits p) = 2 /\ length (p_limits p) = 2
             /\ length (alpha_dim p) = 2).
  { destruct (apf.first_capture temp_pattern s) eqn:E1; try discriminate H;
      destruct (apf.first_capture pressure_pattern s) eqn:E2;
      try discriminate H;
      destruct (apf.first_capture alpha_dimension_pattern s) eqn:E3;
      try discriminate H;
      destruct (apf.all_captures alpha_elements_pattern s) eqn:E4;
      try discriminate H;
      apply Hgo in H; destruct H as (es & He & Ha & Hlens);
      exists es; (split; [exact He|]); (split; [exact Ha|]);
      (split; [discriminate | exact Hlens]). }
  destruct Hes as (es & He & Ha & Hne & L1 & L2 & L3).
  split; [exact L1|]. split; [exact L2|]. split; [exact L3|].
  rewrite Ha.
  assert (Hlines :
    Forall2 (fun f row =>
               exists sp0 cs sp1 c1 a b,
                 re.f_match f = cheb_line sp0 cs sp1
                 /\ all_chars is_space sp0 = true
                 /\ all_chars is_space sp1 = true
                 /\ Forall coeff_ok cs /\ 2 <= length cs
                 /\ hd_error (map snd cs) = Some c1
                 /\ float_of_str rnd c1 = Ok a
                 /\ float_of_str rnd (last (map snd cs) "") = Ok b
                 /\ row = [a; a; b; b])
            (fst (re.finditer alpha_elements_pattern s)) es).
  { apply mapM_Forall2 in He. unfold apf.all_captures, re.findall in He.
    apply Forall2_map_left in He.
    eapply Forall2_with_Forall; [| |exact He].
    - intros f row Hf Hrow. cbv beta in Hrow.
      rewrite findall_item_cheb in Hrow.
      cbn [fitem_iter] in Hrow. exact (Hf row Hrow).
    - apply (finditer_found alpha_elements_pattern
               (fun w c => forall row,
                    mapM (float_of_str rnd)
                      (map (fun g => match g with
                                     | Some x => x
                                     | None => ""
                                     end) c) = Ok row ->
                    exists sp0 cs sp1 c1 a b,
                      w = cheb_line sp0 cs sp1
                      /\ all_chars is_space sp0 = true
                      /\ all_chars is_space sp1 = true
                      /\ Forall coeff_ok cs /\ 2 <= length cs
                      /\ hd_error (map snd cs) = Some c1
                      /\ float_of_str rnd c1 = Ok a
                      /\ float_of_str rnd (last (map snd cs) "") = Ok b
                      /\ row = [a; a; b; b])).
      intros n s0 s' c' Hm row Hrow.
      destruct (match_at_cheb_line n s0 s' c' Hm)
        as (sp0 & cs & sp1 & Hw & H0 & H1 & Hok & Hc).
      destruct (cheb_line_floats rnd cs c' row Hok Hc Hrow)
        as (c1 & a & b & Hlen & Hhd & Ea & Eb & Er).
      exists sp0, cs, sp1, c1, a, b. tauto. }
  split; [|split; [|exact Hlines]].
  - intros ->. apply mapM_length in He.
    destruct (apf.all_captures alpha_elements_pattern s);
      [congruence | discriminate He].
  - clear -Hlines. induction Hlines as [|f row fs rows Hf _ IH];
      constructor; [|exact IH].
    destruct Hf as (sp0 & cs & sp1 & c1 & a & b & Hf). exists a, b.
    apply Hf.
Qed.

Lemma chebyshev_parameters_rows_witness :
  chebyshev_parameters exact three_coefficient_entry
  = Ok (Some (mkCheb [300%Q; 2000%Q] [(1 # 100)%Q; 100%Q] [3%Z; 1%Z]
                [[1%Q; 1%Q; 5%Q; 5%Q]]))
  /\ map re.f_match
         (fst (re.finditer alpha_elements_pattern three_coefficient_entry))
     = [cheb_line " " [(" ", "1.0E+00"); ("  ", "2.0E+00"); ("  ", "5.0E+00")]
          " "]
  /\ Forall2 (fun f row =>
                exists sp0 cs sp1 c1 a b,
                  re.f_match f = cheb_line sp0 cs sp1
                  /\ all_chars is_space sp0 = true
                  /\ all_chars is_space sp1 = true
                  /\ Forall coeff_ok cs /\ 2 <= length cs
                  /\ hd_error (map snd cs) = Some c1
                  /\ float_of_str exact c1 = Ok a
                  /\ float_of_str exact (last (map snd cs) "") = Ok b
                  /\ row = [a; a; b; b])
             (fst (re.finditer alpha_elements_pattern three_coefficient_entry))
             [[1%Q; 1%Q; 5%Q; 5%Q]].
Proof.
  split; [vm_compute; reflexivity|]. split; [vm_compute; reflexivity|].
  apply (chebyshev_parameters_rows Q exact three_coefficient_entry
           (mkCheb [300%Q; 2000%Q] [(1 # 100)%Q; 100%Q] [3%Z; 1%Z]
              [[1%Q; 1%Q; 5%Q; 5%Q]])).
  vm_compute. reflexivity.
Defined.

(** ** Names *)

Lemma interpret_reagent_names piece names :
  _interpret_reagent_count piece = Ok names ->
  Forall (fun nm => nm <> "" /\ all_chars nonspace nm = true) names.
Proof.
  unfold _interpret_reagent_count.
  destruct (apf.first_capture _ piece) as [|w|c] eqn:E; try discriminate.
  apply first_capture_valid in E.
  destruct c as [|[cnt|] [|[rgt|] [|? ?]]]; try discriminate.
  destruct (E 1 rgt eq_refl) as (body & Hin & Hl).
  assert (body = one_or_more NONSPACE) as ->.
  { destruct Hin as [Eq|[Eq|[]]];
      first [discriminate Eq | injection Eq as Eb; symmetry; exact Eb]. }
  apply lang_plus_cls in Hl. destruct Hl as [Hc Hn].
  destruct (if String.eqb cnt "" then Ok 1%Z else int_of_str cnt) as [z|];
    cbn [bind]; [|discriminate].
  intros H. inversion H; subst. apply Forall_forall. intros nm Hnm.
  apply repeat_spec in Hnm. subst nm. split; assumption.
Qed.

(** The names [_split_reagent_string] returns are never empty and hold
    no whitespace: each is the second group of the count pattern, one or
    more non-space characters. *)
Theorem split_reagent_string_names :
  forall (v : pyval) (names : list string),
    _split_reagent_string v = Ok names ->
    Forall (fun nm => nm <> "" /\ all_chars nonspace nm = true) names.
Proof.
  intros v names. unfold _split_reagent_string.
  destruct (apf.remove LINESPACES v) as [s1|]; cbn [bind]; [|discriminate].
  cbn [apf.remove bind].
  destruct (mapM _interpret_reagent_count _) as [rgts|] eqn:E;
    cbn [bind]; [|discriminate].
  intros H. inversion H; subst. apply mapM_Forall2 in E.
  apply Forall_concat.
  eapply Forall2_Forall_r with (P := fun _ => True); [|exact E|].
  - intros piece l _ Hl. apply (interpret_reagent_names piece l Hl).
  - apply Forall_forall. auto.
Qed.

Lemma split_reagent_string_names_witness :
  _split_reagent_string (PStr "2H + O2 (+M)") = Ok ["H"; "H"; "O2"]
  /\ Forall (fun nm => nm <> "" /\ all_chars nonspace nm = true)
            ["H"; "H"; "O2"].
Proof.
  split; [vm_compute; reflexivity|].
  apply (split_reagent_string_names (PStr "2H + O2 (+M)")).
  vm_compute. reflexivity.
Defined.

Lemma high_p_none {V} (ap_cast : string -> V) s :
  high_p_parameters ap_cast s = Ok None ->
  apf.has_match high_p_pattern s = false.
Proof.
  unfold high_p_parameters. intros H. apply all_captures_none.
  destruct (apf.all_captures high_p_pattern s) as [|x t]; [reflexivity|].
  destruct (mapM _ (x :: t)); discriminate H.
Qed.

(** With a match, [high_p_parameters] returns rows. *)
Lemma high_p_some {V} (ap_cast : string -> V) s :
  apf.has_match high_p_pattern s = true ->
  exists rows, high_p_parameters ap_cast s = Ok (Some rows) /\ rows <> [].
Proof.
  intros Hm. unfold high_p_parameters.
  pose proof (all_captures_one_group high_p_pattern COEFF_PATTERN s
                (proj1 high_p_pattern_groups)
                (proj2 high_p_pattern_groups)) as Hc.
  destruct (apf.all_captures high_p_pattern s) as [|x t] eqn:E.
  { apply all_captures_none in E. congruence. }
  destruct (mapM_all_ok
              (fun str => words <- fitem_split str ;; Ok (map ap_cast words))
              (fun _ => True) (x :: t)) as (rows & Hr & _).
  { eapply Forall_impl; [|exact Hc]. intros it (w & -> & _).
    eexists. split; [reflexivity | exact I]. }
  exists rows. rewrite Hr. split; [reflexivity|].
  apply mapM_length in Hr. destruct rows; [discriminate Hr | discriminate].
Qed.

Lemma first_line_matches s :
  apf.has_match reactants_pattern s = apf.has_match first_str s
  /\ apf.has_match products_pattern s = apf.has_match first_str s
  /\ apf.has_match high_p_pattern s = apf.has_match first_str s.
Proof.
  destruct first_line_patterns_erased as (E1 & E2 & E3).
  rewrite (has_match_erase reactants_pattern),
    (has_match_erase products_pattern), (has_match_erase high_p_pattern),
    E1, E2, E3.
  auto.
Qed.

(** Names come only from an entry the first-line pattern matches. *)
Lemma names_matched s names :
  reactant_names s = Ok names \/ product_names s = Ok names ->
  apf.has_match first_str s = true.
Proof.
  destruct first_line_patterns_erased as (E1 & E2 & _).
  destruct (apf.has_match first_str s) eqn:Hm; [reflexivity|].
  unfold reactant_names, product_names.
  rewrite (first_capture_no_match _ _ E1 Hm),
    (first_capture_no_match _ _ E2 Hm).
  intros [H|H]; discriminate H.
Qed.

(** An entry that yields reactant or product names is one the first-line
    pattern matches, and it also yields high-pressure coefficients: the three
    extractors use the same pattern, each with its own group. *)
Theorem names_of_matched_entry :
  forall (V : Type) (ap_cast : string -> V) (s : string)
         (names : list string),
    reactant_names s = Ok names \/ product_names s = Ok names ->
    apf.has_match first_str s = true
    /\ exists rows, high_p_parameters ap_cast s = Ok (Some rows) /\ rows <> [].
Proof.
  intros V ap_cast s names H.
  pose proof (names_matched s names H) as Hm.
  split; [exact Hm|].
  rewrite <- (proj2 (proj2 (first_line_matches s))) in Hm.
  apply (high_p_some ap_cast s Hm).
Qed.

Lemma names_of_matched_entry_witness :
  reactant_names "2H + O2 = H2O + OH 1.0E+10 0.5 100."
  = Ok ["H"; "H"; "O2"]
  /\ apf.has_match first_str "2H + O2 = H2O + OH 1.0E+10 0.5 100." = true
  /\ exists rows,
       high_p_parameters (fun w : string => w)
         "2H + O2 = H2O + OH 1.0E+10 0.5 100." = Ok (Some rows)
       /\ rows <> [].
Proof.
  split; [vm_compute; reflexivity|].
  apply (names_of_matched_entry string (fun w => w)
           "2H + O2 = H2O + OH 1.0E+10 0.5 100." ["H"; "H"; "O2"]).
  left. vm_compute. reflexivity.
Defined.

(** ** [data_block] and [data_dct] on the entries of a block *)

Lemma mapM_raise_at {A B} (f : A -> result B) good bad rest ys e :
  mapM f good = Ok ys -> f bad = Raise e ->
  mapM f (good ++ bad :: rest) = Raise e.
Proof.
  revert ys. induction good as [|x t IH]; intros ys Hg Hb; simpl in *.
  - rewrite Hb. reflexivity.
  - destruct (f x); simpl in *; [|discriminate].
    destruct (mapM f t) as [zs|]; simpl in *; [|discriminate].
    rewrite (IH zs eq_refl Hb). reflexivity.
Qed.

Lemma names_unmatched s :
  apf.has_match first_str s = false ->
  reactant_names s = Raise TypeError /\ product_names s = Raise TypeError.
Proof.
  intros Hm. destruct first_line_patterns_erased as (E1 & E2 & _).
  unfold reactant_names, product_names.
  rewrite (first_capture_no_match _ _ E1 Hm),
    (first_capture_no_match _ _ E2 Hm).
  split; reflexivity.
Qed.

(** The loop of [data_dct] over entries that all have a key. *)
Lemma data_dct_fold entries keys d :
  mapM rxn_key_of entries = Ok keys ->
  foldM data_dct_step entries d
  = Ok (group_all rxn_key_eq_dec (fun e => e)
          (fun old e => old +++ newline +++ e) (combine keys entries) d).
Proof.
  intros Hk.
  apply (foldM_group rxn_key_eq_dec _ _
           (fun x => k <- rxn_key_of x ;; Ok (k, x))).
  - intros d0 x. rewrite data_dct_step_group.
    destruct (rxn_key_of x); reflexivity.
  - apply mapM_pair_with. exact Hk.
Qed.

(** The entries before one the first-line pattern does not match being
    fine, [data_dct] and [data_block] both stop at that entry with the
    [TypeError] of [reactant_names]: neither skips an entry. *)
Theorem unmatched_entry_aborts :
  forall (F : Type) (rnd : Q -> F)
         (F_eq_dec : forall x y : F, {x = y} + {x <> y})
         (V : Type) (ap_cast : string -> V)
         (headlined_sections : string -> re.regex -> list string)
         (block_str : string) (good : list string) (bad : string)
         (rest : list string),
    data_strings headlined_sections block_str = good ++ bad :: rest ->
    apf.has_match first_str bad = false ->
    (forall keys,
        mapM rxn_key_of good = Ok keys ->
        data_dct headlined_sections block_str = Raise TypeError)
    /\ (forall recs,
           mapM (data_block_item rnd F_eq_dec ap_cast) good = Ok recs ->
           data_block rnd F_eq_dec ap_cast headlined_sections block_str
           = Raise TypeError).
Proof.
  intros F rnd F_eq_dec V ap_cast hs block good bad rest Hs Hm.
  destruct (names_unmatched bad Hm) as [Hr _]. split.
  - intros keys Hk. unfold data_dct. rewrite Hs, foldM_app.
    rewrite (data_dct_fold good keys [] Hk).
    cbn [bind foldM]. unfold data_dct_step at 1. rewrite Hr. reflexivity.
  - intros recs Hg. unfold data_block. rewrite Hs.
    apply (mapM_raise_at _ good bad rest recs TypeError Hg).
    unfold data_block_item. rewrite Hr. reflexivity.
Qed.

Lemma unmatched_entry_aborts_witness :
  data_strings by_lines unmatched_entry_block
  = ["H+O2=OH+O 1.0E+10 0.5 100."] ++ "2OH=H2O+O"
    :: ["H+O2=OH+O 2.0E+10 0.7 200."]
  /\ apf.has_match first_str "2OH=H2O+O" = false
  /\ data_dct by_lines unmatched_entry_block = Raise TypeError
  /\ data_block exact Q_eq_dec (fun w : string => w) by_lines
       unmatched_entry_block = Raise TypeError.
Proof.
  assert (Hs : data_strings by_lines unmatched_entry_block
               = ["H+O2=OH+O 1.0E+10 0.5 100."] ++ "2OH=H2O+O"
                 :: ["H+O2=OH+O 2.0E+10 0.7 200."])
    by (vm_compute; reflexivity).
  assert (Hm : apf.has_match first_str "2OH=H2O+O" = false)
    by (vm_compute; reflexivity).
  split; [exact Hs|]. split; [exact Hm|].
  destruct (unmatched_entry_aborts Q exact Q_eq_dec string (fun w => w)
              by_lines unmatched_entry_block _ _ _ Hs Hm) as [H1 H2].
  split.
  - apply (H1 [(["H"; "O2"], ["OH"; "O"])]). vm_compute. reflexivity.
  - eapply H2. vm_compute. reflexivity.
Defined.

(** What the records of [data_block] are: one for each entry of the block,
    in the order of the entries, holding what the eight extractors return
    for that entry.  A block yields records only if the first-line pattern
    matches every entry, and then every record has high-pressure
    coefficients. *)
Theorem data_block_records :
  forall (F : Type) (rnd : Q -> F)
         (F_eq_dec : forall x y : F, {x = y} + {x <> y})
         (V : Type) (ap_cast : string -> V)
         (headlined_sections : string -> re.regex -> list string)
         (block_str : string) (recs : list (rxn_data F V)),
    data_block rnd F_eq_dec ap_cast headlined_sections block_str = Ok recs ->
    Forall2 (fun e r =>
               apf.has_match first_str e = true
               /\ reactant_names e = Ok (rd_reactants r)
               /\ product_names e = Ok (rd_products r)
               /\ high_p_parameters ap_cast e = Ok (rd_high_p r)
               /\ rd_high_p r <> None
               /\ low_p_parameters rnd e = Ok (rd_low_p r)
               /\ troe_parameters rnd e = Ok (rd_troe r)
               /\ chebyshev_parameters rnd e = Ok (rd_chebyshev r)
               /\ plog_parameters rnd F_eq_dec e = Ok (rd_plog r)
               /\ buffer_enhance_factors rnd e = Ok (rd_buffer r))
            (data_strings headlined_sections block_str) recs.
Proof.
  intros F rnd F_eq_dec V ap_cast hs block recs H. unfold data_block in H.
  apply mapM_Forall2 in H. eapply Forall2_impl; [|exact H].
  intros e r Hr. unfold data_block_item in Hr.
  destruct (reactant_names e) as [rct|] eqn:E1; cbn [bind] in Hr;
    [|discriminate Hr].
  destruct (product_names e) as [prd|] eqn:E2; cbn [bind] in Hr;
    [|discriminate Hr].
  destruct (high_p_parameters ap_cast e) as [high|] eqn:E3; cbn [bind] in Hr;
    [|discriminate Hr].
  destruct (low_p_parameters rnd e) as [low|]; cbn [bind] in Hr;
    [|discriminate Hr].
  destruct (troe_parameters rnd e) as [troe|]; cbn [bind] in Hr;
    [|discriminate Hr].
  destruct (chebyshev_parameters rnd e) as [cheb|]; cbn [bind] in Hr;
    [|discriminate Hr].
  destruct (plog_parameters rnd F_eq_dec e) as [plog|]; cbn [bind] in Hr;
    [|discriminate Hr].
  destruct (buffer_enhance_factors rnd e) as [buf|]; cbn [bind] in Hr;
    [|discriminate Hr].
  inversion Hr; subst r. cbn.
  pose proof (names_matched e rct (or_introl E1)) as Hm.
  repeat split; try reflexivity; [exact Hm|].
  intros ->. apply high_p_none in E3.
  rewrite (proj2 (proj2 (first_line_matches e))) in E3. congruence.
Qed.

Lemma data_block_records_witness :
  exists recs,
    data_block exact Q_eq_dec (fun w : string => w) by_lines three_entry_block
    = Ok recs
    /\ map rd_key recs
       = [(["H"; "O2"], ["OH"; "O"]); (["OH"; "OH"], ["H2O"; "O"]);
          (["H"; "O2"], ["OH"; "O"])]
    /\ map rd_high_p recs
       = [Some [["1.0E+10"; "0.5"; "100."]]; Some [["3"; "4"; "5"]];
          Some [["2.0E+10"; "0.7"; "200."]]]
    /\ Forall2 (fun e r => apf.has_match first_str e = true
                           /\ rd_high_p r <> None)
               (data_strings by_lines three_entry_block) recs.
Proof.
  destruct (data_block exact Q_eq_dec (fun w : string => w) by_lines
              three_entry_block) as [recs|] eqn:E;
    [|vm_compute in E; discriminate E].
  exists recs. split; [reflexivity|].
  pose proof (data_block_records Q exact Q_eq_dec string (fun w => w)
                by_lines three_entry_block recs E) as H.
  split; [|split].
  - vm_compute in E. inversion E. reflexivity.
  - vm_compute in E. inversion E. reflexivity.
  - eapply Forall2_impl; [|exact H].
    intros e r (H1 & _ & _ & _ & H5 & _). split; assumption.
Defined.

Lemma data_block_keys {F V} (rnd : Q -> F) F_eq_dec (ap_cast : string -> V)
  entries : forall recs,
  mapM (data_block_item rnd F_eq_dec ap_cast) entries = Ok recs ->
  mapM rxn_key_of entries = Ok (map rd_key recs).
Proof.
  induction entries as [|e t IH]; intros recs H; cbn [mapM] in *.
  - inversion H. reflexivity.
  - destruct (data_block_item rnd F_eq_dec ap_cast e) as [r|] eqn:E;
      cbn [bind] in H; [|discriminate H].
    destruct (mapM _ t) as [rs|]; cbn [bind] in H; [|discriminate H].
    inversion H; subst recs. rewrite (IH rs eq_refl). cbn [bind map].
    unfold data_block_item in E. unfold rxn_key_of.
    destruct (reactant_names e) as [rct|]; cbn [bind] in *;
      [|discriminate E].
    destruct (product_names e) as [prd|]; cbn [bind] in *;
      [|discriminate E].
    destruct (high_p_parameters ap_cast e); cbn [bind] in E;
      [|discriminate E].
    destruct (low_p_parameters rnd e); cbn [bind] in E; [|discriminate E].
    destruct (troe_parameters rnd e); cbn [bind] in E; [|discriminate E].
    destruct (chebyshev_parameters rnd e); cbn [bind] in E;
      [|discriminate E].
    destruct (plog_parameters rnd F_eq_dec e); cbn [bind] in E;
      [|discriminate E].
    destruct (buffer_enhance_factors rnd e); cbn [bind] in E;
      [|discriminate E].
    inversion E. reflexivity.
Qed.

(** A block for which [data_block] returns records is one for which
    [data_dct] returns a dictionary; its keys are the (reactants, products)
    pairs of the records, each once, in the order of their first record,
    and the text under a key joins the entries of the records with that
    key. *)
Theorem data_block_then_data_dct :
  forall (F : Type) (rnd : Q -> F)
         (F_eq_dec : forall x y : F, {x = y} + {x <> y})
         (V : Type) (ap_cast : string -> V)
         (headlined_sections : string -> re.regex -> list string)
         (block_str : string) (recs : list (rxn_data F V)),
    data_block rnd F_eq_dec ap_cast headlined_sections block_str = Ok recs ->
    exists d,
      data_dct headlined_sections block_str = Ok d
      /\ dict_keys d = first_seen rxn_key_eq_dec [] (map rd_key recs)
      /\ forall k,
          dict_get rxn_key_eq_dec k d
          = match items_at rxn_key_eq_dec k
                    (combine (map rd_key recs)
                       (data_strings headlined_sections block_str)) with
            | [] => None
            | texts => Some (join_lines texts)
            end.
Proof.
  intros F rnd F_eq_dec V ap_cast hs block recs H. unfold data_block in H.
  pose proof (data_block_keys rnd F_eq_dec ap_cast _ _ H) as Hk.
  pose proof (mapM_length _ _ _ Hk) as Hlen.
  eexists. split; [|split].
  - unfold data_dct. apply (data_dct_fold _ _ [] Hk).
  - rewrite group_all_keys. simpl. f_equal.
    apply map_fst_combine. exact Hlen.
  - intros k. rewrite group_all_get. simpl.
    destruct (items_at rxn_key_eq_dec k _) as [|e t]; [reflexivity|].
    change (gathered _ _ None (e :: t))
      with (gathered (fun e : string => e) (fun old e => old +++ newline +++ e)
              (Some e) t).
    apply gathered_join.
Qed.

Lemma data_block_then_data_dct_witness :
  exists recs,
    data_block exact Q_eq_dec (fun w : string => w) by_lines three_entry_block
    = Ok recs
    /\ exists d,
         data_dct by_lines three_entry_block = Ok d
         /\ dict_keys d = first_seen rxn_key_eq_dec [] (map rd_key recs)
         /\ forall k,
             dict_get rxn_key_eq_dec k d
             = match items_at rxn_key_eq_dec k
                       (combine (map rd_key recs)
                          (data_strings by_lines three_entry_block)) with
               | [] => None
               | texts => Some (join_lines texts)
               end.
Proof.
  destruct (data_block exact Q_eq_dec (fun w : string => w) by_lines
              three_entry_block) as [recs|] eqn:E;
    [|vm_compute in E; discriminate E].
  exists recs. split; [reflexivity|].
  apply (data_block_then_data_dct Q exact Q_eq_dec string (fun w => w)
           by_lines three_entry_block recs E).
Defined.

(** ** What the functions can raise *)

Lemma mapM_raise {A B} (f : A -> result B) l e :
  mapM f l = Raise e -> exists x, In x l /\ f x = Raise e.
Proof.
  induction l as [|x t IH]; cbn [mapM]; [discriminate|].
  destruct (f x) as [y|e'] eqn:E; cbn [bind].
  - destruct (mapM f t) as [ys|e'']; cbn [bind]; [discriminate|].
    intros H. inversion H; subst. destruct (IH eq_refl) as (z & Hz & Ez).
    exists z. split; [right; exact Hz | exact Ez].
  - intros H. inversion H; subst. exists x. split; [left; reflexivity|].
    exact E.
Qed.


Lemma count_pattern_groups :
  sure_caps (STRING_START +> capturing (maybe DIGIT)
             +> capturing (one_or_more NONSPACE))
  = [(0, maybe DIGIT); (1, one_or_more NONSPACE)].
Proof. reflexivity. Qed.

Lemma lang_maybe_digit w :
  lang (maybe DIGIT) w ->
  w = "" \/ exists d, w = String d "" /\ is_digit d = true.
Proof.
  intros H. apply lang_alt_inv in H. destruct H as [H|H].
  - apply lang_cls_inv in H. right. exact H.
  - apply lang_eps_inv in H. left. exact H.
Qed.

(** The count pattern either does not match, a [TypeError] on unpacking
    [None], or gives an optional digit and a name, which always convert:
    the [ValueError] of [int] cannot happen. *)
Lemma interpret_reagent_count_outcomes piece :
  _interpret_reagent_count piece = Raise TypeError
  \/ exists names, _interpret_reagent_count piece = Ok names.
Proof.
  unfold _interpret_reagent_count.
  destruct (first_capture_tuple
              (STRING_START +> capturing (maybe DIGIT)
               +> capturing (one_or_more NONSPACE)) piece)
    as [[_ ->] | (c & _ & -> & L & Hc)];
    [simpl; lia | left; reflexivity |].
  right. rewrite count_pattern_groups in Hc.
  destruct c as [|x0 [|x1 [|? ?]]]; try discriminate L.
  inversion Hc as [|? ? (w0 & E0 & H0) Hc1]; subst.
  inversion Hc1 as [|? ? (w1 & E1 & H1) _]; subst.
  simpl in E0, E1. inversion E0; inversion E1; subst.
  apply lang_maybe_digit in H0.
  destruct H0 as [-> | (d & -> & Hd)].
  - eexists. reflexivity.
  - rewrite digit_not_empty, (int_of_digit d Hd). eexists. reflexivity.
Qed.

Lemma split_reagent_string_raise v e :
  _split_reagent_string v = Raise e -> e = TypeError.
Proof.
  unfold _split_reagent_string.
  destruct v as [|s|l]; cbn [apf.remove bind];
    try (intros H; inversion H; reflexivity).
  destruct (mapM _interpret_reagent_count _) as [rgts|e'] eqn:E;
    cbn [bind]; [discriminate|].
  intros H. inversion H; subst e'. apply mapM_raise in E.
  destruct E as (piece & _ & Hp).
  destruct (interpret_reagent_count_outcomes piece) as [Ht | [names Hn]];
    congruence.
Qed.


(** [_split_reagent_string], and with it [reactant_names] and
    [product_names], raises nothing but [TypeError]: for a capture that is
    not a string, or for a piece between two "+" that the count pattern
    does not match.  The count, an optional digit, always converts. *)
Theorem names_raise_type_error_only :
  forall (v : pyval) (s : string) (e : exn),
    _split_reagent_string v = Raise e
    \/ reactant_names s = Raise e \/ product_names s = Raise e ->
    e = TypeError.
Proof.
  intros v s e [H|[H|H]]; apply (split_reagent_string_raise _ _ H).
Qed.

Lemma names_raise_type_error_only_witness :
  _split_reagent_string (PStr "H + (+M)") = Raise TypeError
  /\ TypeError = TypeError.
Proof.
  split; [vm_compute; reflexivity|].
  apply (names_raise_type_error_only (PStr "H + (+M)") "" TypeError).
  left. vm_compute. reflexivity.
Defined.



Lemma integer_patterns_nonspace :
  cls_ok nonspace INTEGER /\ cls_ok nonspace EXPONENTIAL_FLOAT.
Proof. split; apply cls_okb_ok; vm_compute; reflexivity. Qed.

(** [int] reads every text of the integer pattern. *)
Lemma int_of_integer w : lang INTEGER w -> exists z, int_of_str w = Ok z.
Proof.
  intros H. unfold int_of_str.
  rewrite strip_nonspace
    by (apply (lang_chars _ _ _ (proj1 integer_patterns_nonspace) H)).
  apply integer_shape in H. destruct H as (sg & d & -> & Hs & Hd & Hn).
  destruct (read_sign_text sg d Hs) as [neg ->].
  { destruct d as [|b d]; [congruence|]. cbn [all_chars] in Hd.
    apply andb_true_iff in Hd. destruct Hd as [Hb _].
    cbn [starts_with]. apply (digit_classes b Hb). }
  destruct (read_digits_run d "" 0%Z 0 Hd eq_refl) as [v Hv].
  rewrite append_nil_r in Hv. rewrite Hv.
  destruct d as [|b d]; [congruence|]. cbn [String.length Nat.add].
  eexists. reflexivity.
Qed.

Lemma cheb_all_present_dec s : cheb_all_present s \/ ~ cheb_all_present s.
Proof.
  unfold cheb_all_present.
  destruct (apf.first_capture temp_pattern s);
    destruct (apf.first_capture pressure_pattern s);
    destruct (apf.first_capture alpha_dimension_pattern s);
    destruct (apf.all_captures alpha_elements_pattern s);
    first [ left; repeat split; discriminate
          | right; intros (H1 & H2 & H3 & H4); congruence ].
Qed.

Section ChebOutcomes.
Context {F : Type} (rnd : Q -> F).

Lemma float_of_exponential w :
  lang EXPONENTIAL_FLOAT w -> exists q, float_of_str rnd w = Ok (rnd q).
Proof.
  intros H. unfold float_of_str.
  rewrite strip_nonspace
    by (apply (lang_chars _ _ _ (proj2 integer_patterns_nonspace) H)).
  destruct (decimal_value_number_text w (number_text_exponential_float w H))
    as [q Hq].
  exists q. rewrite Hq. reflexivity.
Qed.

(** A tuple of two groups that take part in every match converts when
    every text of their body does. *)
Lemma pair_converts {A} r s (f : option string -> result A) body :
  re.ngroups r = 2 -> sure_caps r = [(0, body); (1, body)] ->
  (forall w, lang body w -> exists y, f (Some w) = Ok y) ->
  apf.first_capture r s = PNone
  \/ exists ys,
       (vals <- py_iter (apf.first_capture r s) ;; mapM f vals) = Ok ys.
Proof.
  intros Hn Hs Hf.
  destruct (first_capture_tuple r s) as [[_ E] | (c & _ & E & L & Hc)];
    [lia | left; exact E |].
  right. rewrite E. rewrite Hs in Hc. rewrite Hn in L.
  destruct c as [|x0 [|x1 [|? ?]]]; try discriminate L.
  inversion Hc as [|? ? (w0 & E0 & H0) Hc1]; subst.
  inversion Hc1 as [|? ? (w1 & E1 & H1) _]; subst.
  simpl in E0, E1. inversion E0; inversion E1; subst.
  destruct (Hf w0 H0) as [y0 F0]. destruct (Hf w1 H1) as [y1 F1].
  exists [y0; y1]. cbn [py_iter bind mapM]. rewrite F0, F1. reflexivity.
Qed.

Lemma cheb_limits_convert s :
  (apf.first_capture temp_pattern s = PNone
   \/ exists ts, (vals <- py_iter (apf.first_capture temp_pattern s) ;;
                  mapM (py_float rnd) vals) = Ok ts)
  /\ (apf.first_capture pressure_pattern s = PNone
      \/ exists ps, (vals <- py_iter (apf.first_capture pressure_pattern s) ;;
                     mapM (py_float rnd) vals) = Ok ps)
  /\ (apf.first_capture alpha_dimension_pattern s = PNone
      \/ exists ds,
           (vals <- py_iter (apf.first_capture alpha_dimension_pattern s) ;;
            mapM py_int vals) = Ok ds).
Proof.
  split; [|split].
  - apply (pair_converts temp_pattern s (py_float rnd) FLOAT);
      [reflexivity | reflexivity |].
    intros w Hw. destruct (float_of_float rnd w Hw) as [q Hq]. eauto.
  - apply (pair_converts pressure_pattern s (py_float rnd) FLOAT);
      [reflexivity | reflexivity |].
    intros w Hw. destruct (float_of_float rnd w Hw) as [q Hq]. eauto.
  - apply (pair_converts alpha_dimension_pattern s py_int INTEGER);
      [reflexivity | reflexivity |].
    intros w Hw. apply (int_of_integer w Hw).
Qed.

(** With its four blocks there, [chebyshev_parameters] comes down to the
    conversion of the coefficient rows. *)
Lemma cheb_present s :
  cheb_all_present s ->
  exists ts ps ds,
    chebyshev_parameters rnd s
    = (es <- mapM (fun row => mapM (float_of_str rnd) (fitem_iter row))
               (apf.all_captures alpha_elements_pattern s) ;;
       Ok (Some (mkCheb ts ps ds es))).
Proof.
  intros (H1 & H2 & H3 & H4).
  destruct (cheb_limits_convert s) as ([E1|[ts E1]] & [E2|[ps E2]] & [E3|[ds E3]]);
    try contradiction.
  exists ts, ps, ds. unfold chebyshev_parameters.
  destruct (apf.first_capture temp_pattern s); try contradiction;
    destruct (apf.first_capture pressure_pattern s); try contradiction;
    destruct (apf.first_capture alpha_dimension_pattern s);
    try contradiction;
    destruct (apf.all_captures alpha_elements_pattern s);
    try contradiction;
    rewrite E1, E2, E3; reflexivity.
Qed.

Lemma cheb_absent s :
  ~ cheb_all_present s -> chebyshev_parameters rnd s = Ok None.
Proof.
  intros H. unfold chebyshev_parameters, cheb_all_present in *.
  destruct (apf.first_capture temp_pattern s); try reflexivity;
    destruct (apf.first_capture pressure_pattern s); try reflexivity;
    destruct (apf.first_capture alpha_dimension_pattern s);
    try reflexivity;
    destruct (apf.all_captures alpha_elements_pattern s);
    try reflexivity;
    exfalso; apply H; repeat split; discriminate.
Qed.

(** The conversion of a row: it fails, with [ValueError], exactly when the
    row holds an empty string. *)
Lemma cheb_row_converts c :
  cheb_row_caps c ->
  let row := map (fun g => match g with Some x => x | None => "" end) c in
  (In "" row /\ mapM (float_of_str rnd) row = Raise ValueError)
  \/ (~ In "" row /\ exists vals, mapM (float_of_str rnd) row = Ok vals).
Proof.
  intros (x0 & x1 & x2 & x3 & -> & (l & w & -> & -> & Hl & Hw) & Hx).
  cbn [map mapM]. rewrite float_of_str_padded by exact Hl.
  destruct (float_of_exponential w Hw) as [q Hq]. rewrite Hq. cbn [bind].
  assert (Hne : forall u v, lang EXPONENTIAL_FLOAT v -> u +++ v <> "").
  { intros u v Hv E. apply append_empty in E.
    destruct E as [_ E]. revert E.
    apply (lang_nonempty EXPONENTIAL_FLOAT v eq_refl Hv). }
  destruct Hx as [[-> ->] | (l2 & w2 & -> & -> & Hl2 & Hw2)].
  - left. split; [right; right; left; reflexivity | reflexivity].
  - right. rewrite float_of_str_padded by exact Hl2.
    destruct (float_of_exponential w2 Hw2) as [q2 Hq2]. rewrite Hq2.
    cbn [bind]. split; [|eexists; reflexivity].
    intros [E|[E|[E|[E|[]]]]].
    + apply (Hne l w Hw E).
    + apply (Hne "" w Hw E).
    + apply (Hne l2 w2 Hw2 E).
    + apply (Hne "" w2 Hw2 E).
Qed.

End ChebOutcomes.

(** Each CHEB match converts unless it holds an empty group. *)
Lemma cheb_rows_convert {F} (rnd : Q -> F) s :
  Forall (fun it =>
            (In "" (fitem_iter it)
             /\ mapM (float_of_str rnd) (fitem_iter it) = Raise ValueError)
            \/ (~ In "" (fitem_iter it)
                /\ exists vals,
                     mapM (float_of_str rnd) (fitem_iter it) = Ok vals))
         (apf.all_captures alpha_elements_pattern s).
Proof.
  pose proof (all_captures_caps alpha_elements_pattern cheb_row_caps s
                ltac:(simpl; lia)
                (fun n s0 s' c' => match_at_cheb_row n s0 s' c')) as Hrows.
  eapply Forall_impl; [|exact Hrows]. intros it (c & -> & Hc).
  cbn [fitem_iter]. apply (cheb_row_converts rnd c Hc).
Qed.

Lemma cheb_raise {F} (rnd : Q -> F) s e :
  chebyshev_parameters rnd s = Raise e ->
  e = ValueError /\ cheb_all_present s
  /\ Exists (fun it => In "" (fitem_iter it))
            (apf.all_captures alpha_elements_pattern s).
Proof.
  intros H.
  assert (Hp : cheb_all_present s).
  { destruct (cheb_all_present_dec s) as [Hp|Hn]; [exact Hp|].
    rewrite (cheb_absent rnd s Hn) in H. discriminate H. }
  destruct (cheb_present rnd s Hp) as (ts & ps & ds & E). rewrite E in H.
  destruct (mapM _ _) as [es|e'] eqn:Em; cbn [bind] in H;
    [discriminate H|].
  inversion H; subst e'. apply mapM_raise in Em.
  destruct Em as (it & Hin & Hit).
  pose proof (cheb_rows_convert rnd s) as Hconv.
  rewrite Forall_forall in Hconv.
  destruct (Hconv it Hin) as [[He Hr] | [_ [vals Hv]]]; [|congruence].
  split; [congruence|]. split; [exact Hp|].
  apply Exists_exists. exists it. split; assumption.
Qed.



(** ** What makes [data_block] fail *)

Section DataBlockFailures.
Context {F : Type} (rnd : Q -> F)
        (F_eq_dec : forall x y : F, {x = y} + {x <> y}).
Context {V : Type} (ap_cast : string -> V).

Lemma high_p_ok s : exists r, high_p_parameters ap_cast s = Ok r.
Proof.
  destruct (apf.has_match high_p_pattern s) eqn:Hm.
  - destruct (high_p_some ap_cast s Hm) as (rows & -> & _). eauto.
  - apply all_captures_none in Hm. unfold high_p_parameters. rewrite Hm.
    eauto.
Qed.

Lemma low_p_ok s : exists r, low_p_parameters rnd s = Ok r.
Proof.
  destruct (low_p_outcome rnd s) as [[_ ->] | [_ (a & b & c & ->)]]; eauto.
Qed.

Lemma plog_ok s : exists r, plog_parameters rnd F_eq_dec s = Ok r.
Proof.
  destruct (mapM_all_ok (plog_block rnd) (fun b => length (snd b) = 3) _
              (plog_blocks_convert rnd s)) as (blocks & Hb & _).
  unfold plog_parameters.
  destruct (apf.all_captures plog_pattern s) as [|x t];
    [eexists; reflexivity|].
  rewrite (foldM_group F_eq_dec _ _ (plog_block rnd) _
             (plog_step_group rnd F_eq_dec) _ _ _ Hb).
  eexists. reflexivity.
Qed.

Lemma buffer_ok s : exists r, buffer_enhance_factors rnd s = Ok r.
Proof.
  unfold buffer_enhance_factors.
  destruct (_ || _); [|eexists; reflexivity].
  destruct (foldM_line_step_ok rnd (splitlines s) None I) as (r & Hr & _).
  exists r. exact Hr.
Qed.

(** An entry makes [data_block] fail only through its names, its TROE
    block or its Chebyshev blocks. *)
Lemma data_block_item_raise s e :
  data_block_item rnd F_eq_dec ap_cast s = Raise e ->
  reactant_names s = Raise e \/ product_names s = Raise e
  \/ troe_parameters rnd s = Raise e \/ chebyshev_parameters rnd s = Raise e.
Proof.
  unfold data_block_item.
  destruct (reactant_names s) as [rct|e1]; cbn [bind];
    [|intros H; inversion H; auto].
  destruct (product_names s) as [prd|e2]; cbn [bind];
    [|intros H; inversion H; auto].
  destruct (high_p_ok s) as [high ->]. cbn [bind].
  destruct (low_p_ok s) as [low ->]. cbn [bind].
  destruct (troe_parameters rnd s) as [troe|e3]; cbn [bind];
    [|intros H; inversion H; auto].
  destruct (chebyshev_parameters rnd s) as [cheb|e4]; cbn [bind];
    [|intros H; inversion H; auto].
  destruct (plog_ok s) as [plog ->]. cbn [bind].
  destruct (buffer_ok s) as [buf ->]. cbn [bind]. discriminate.
Qed.

End DataBlockFailures.

Lemma troe_raise {F} (rnd : Q -> F) s e :
  troe_parameters rnd s = Raise e -> e = TypeError.
Proof.
  assert (Hf : forall r c,
             apf.first_capture r s = PTuple c ->
             (forall p body, In (p, body) (all_caps r) -> body = NUMBER) ->
             mapM (py_float rnd) c = Raise e -> e = TypeError).
  { intros r c Hc HG H. apply first_capture_valid in Hc.
    apply mapM_raise in H. destruct H as ([w|] & Hin & Hx).
    - apply In_nth_error in Hin. destruct Hin as [p Hp].
      destruct (Hc p w Hp) as (body & Hb & Hw).
      rewrite (HG _ _ Hb) in Hw.
      destruct (float_of_number rnd w Hw) as [q Hq].
      cbn [py_float] in Hx. congruence.
    - cbn [py_float] in Hx. inversion Hx. reflexivity. }
  assert (G1 : forall p body, In (p, body) (all_caps troe_pattern1)
                              -> body = NUMBER).
  { intros p body Hin. rewrite (proj1 troe_pattern1_groups) in Hin.
    destruct Hin as [E|[E|[E|[E|[]]]]]; inversion E; reflexivity. }
  assert (G2 : forall p body, In (p, body) (all_caps troe_pattern2)
                              -> body = NUMBER).
  { intros p body Hin.
    change (all_caps troe_pattern2)
      with [(0, NUMBER); (1, NUMBER); (2, NUMBER)] in Hin.
    destruct Hin as [E|[E|[E|[]]]]; inversion E; reflexivity. }
  unfold troe_parameters.
  destruct (first_capture_tuple troe_pattern1 s)
    as [[_ E1] | (c1 & _ & E1 & _)]; [simpl; lia | |]; rewrite E1.
  - destruct (first_capture_tuple troe_pattern2 s)
      as [[_ E2] | (c2 & _ & E2 & _)]; [simpl; lia | |]; rewrite E2;
      [discriminate|].
    cbn [py_iter bind].
    destruct (mapM (py_float rnd) c2) as [params|e'] eqn:Em; cbn [bind];
      [discriminate|].
    intros H. inversion H; subst e'. apply (Hf _ _ E2 G2 Em).
  - cbn [py_iter bind].
    destruct (mapM (py_float rnd) c1) as [params|e'] eqn:Em; cbn [bind];
      [discriminate|].
    intros H. inversion H; subst e'. apply (Hf _ _ E1 G1 Em).
Qed.

(** What makes [data_block] fail: one of its entries, through its names
    or its TROE block, a [TypeError], or through its Chebyshev blocks, a
    [ValueError].  The extractors of the high-pressure, LOW and PLOG
    parameters and of the enhancement factors never make it fail, and it
    raises nothing else. *)
Theorem data_block_failures :
  forall (F : Type) (rnd : Q -> F)
         (F_eq_dec : forall x y : F, {x = y} + {x <> y})
         (V : Type) (ap_cast : string -> V)
         (headlined_sections : string -> re.regex -> list string)
         (block_str : string) (e : exn),
    data_block rnd F_eq_dec ap_cast headlined_sections block_str = Raise e ->
    exists entry,
      In entry (data_strings headlined_sections block_str)
      /\ ((e = TypeError
           /\ (reactant_names entry = Raise e
               \/ product_names entry = Raise e
               \/ troe_parameters rnd entry = Raise e))
          \/ (e = ValueError
              /\ chebyshev_parameters rnd entry = Raise e)).
Proof.
  intros F rnd F_eq_dec V ap_cast hs block e H. unfold data_block in H.
  apply mapM_raise in H. destruct H as (entry & Hin & H).
  exists entry. split; [exact Hin|].
  apply data_block_item_raise in H. destruct H as [H|[H|[H|H]]].
  - left. split; [apply (split_reagent_string_raise _ _ H) | tauto].
  - left. split; [apply (split_reagent_string_raise _ _ H) | tauto].
  - left. split; [apply (troe_raise rnd _ _ H) | tauto].
  - right. split; [apply (cheb_raise rnd _ _ H) | exact H].
Qed.

Lemma data_block_failures_witness :
  data_block exact Q_eq_dec (fun w : string => w) one_entry
    single_coefficient_entry = Raise ValueError
  /\ exists entry,
       In entry (data_strings one_entry single_coefficient_entry)
       /\ ((ValueError = TypeError
            /\ (reactant_names entry = Raise ValueError
                \/ product_names entry = Raise ValueError
                \/ troe_parameters exact entry = Raise ValueError))
           \/ (ValueError = ValueError
               /\ chebyshev_parameters exact entry = Raise ValueError)).
Proof.
  split; [vm_compute; reflexivity|].
  apply (data_block_failures Q exact Q_eq_dec string (fun w => w) one_entry
           single_coefficient_entry ValueError).
  vm_compute. reflexivity.
Defined.

(** ** Whitespace around a block *)

Lemma rstrip_spaces r : all_chars is_space r = true -> rstrip r = "".
Proof.
  induction r as [|a r IH]; [reflexivity|]. cbn [all_chars]. intros H.
  apply andb_true_iff in H. destruct H as [Ha Hr].
  cbn [rstrip]. rewrite (IH Hr), Ha. reflexivity.
Qed.

Lemma rstrip_append_spaces s r :
  all_chars is_space r = true -> rstrip (s +++ r) = rstrip s.
Proof.
  intros Hr. induction s as [|a s IH].
  - cbn [String.append]. rewrite rstrip_spaces by exact Hr. reflexivity.
  - cbn [String.append rstrip]. rewrite IH. reflexivity.
Qed.

Lemma lstrip_append_spaces s r :
  all_chars is_space r = true ->
  lstrip (s +++ r) = lstrip s +++ r \/ (lstrip (s +++ r) = "" /\ lstrip s = "").
Proof.
  intros Hr. induction s as [|a s IH].
  - right. cbn [String.append]. split; [|reflexivity].
    rewrite <- (append_nil_r r). rewrite lstrip_spaces by exact Hr.
    reflexivity.
  - cbn [String.append lstrip]. destruct (is_space a); [exact IH|].
    left. reflexivity.
Qed.

Lemma strip_padded l s r :
  all_chars is_space l = true -> all_chars is_space r = true ->
  strip (l +++ s +++ r) = strip s.
Proof.
  intros Hl Hr. unfold strip. rewrite lstrip_spaces by exact Hl.
  destruct (lstrip_append_spaces s r Hr) as [E | [E1 E2]].
  - rewrite E. apply rstrip_append_spaces. exact Hr.
  - rewrite E1, E2. reflexivity.
Qed.

(** Whitespace before and after a block changes nothing: [data_strings]
    strips the block before it is split, so [data_dct] and [data_block]
    return for the padded block what they return for the block. *)
Theorem data_strings_ignores_outer_whitespace :
  forall (F : Type) (rnd : Q -> F)
         (F_eq_dec : forall x y : F, {x = y} + {x <> y})
         (V : Type) (ap_cast : string -> V)
         (headlined_sections : string -> re.regex -> list string)
         (l s r : string),
    all_chars is_space l = true -> all_chars is_space r = true ->
    data_strings headlined_sections (l +++ s +++ r)
    = data_strings headlined_sections s
    /\ data_dct headlined_sections (l +++ s +++ r)
       = data_dct headlined_sections s
    /\ data_block rnd F_eq_dec ap_cast headlined_sections (l +++ s +++ r)
       = data_block rnd F_eq_dec ap_cast headlined_sections s.
Proof.
  intros F rnd F_eq_dec V ap_cast hs l s r Hl Hr.
  assert (E : data_strings hs (l +++ s +++ r) = data_strings hs s).
  { unfold data_strings. rewrite (strip_padded l s r Hl Hr). reflexivity. }
  unfold data_dct, data_block. rewrite E. auto.
Qed.

Lemma data_strings_ignores_outer_whitespace_witness :
  data_strings by_lines
    ((newline +++ "  ") +++ three_entry_block +++ (" " +++ newline))
  = data_strings by_lines three_entry_block
  /\ data_dct by_lines
       ((newline +++ "  ") +++ three_entry_block +++ (" " +++ newline))
     = data_dct by_lines three_entry_block
  /\ data_block exact Q_eq_dec (fun w : string => w) by_lines
       ((newline +++ "  ") +++ three_entry_block +++ (" " +++ newline))
     = data_block exact Q_eq_dec (fun w : string => w) by_lines
         three_entry_block.
Proof.
  apply (data_strings_ignores_outer_whitespace Q exact Q_eq_dec string
           (fun w => w) by_lines (newline +++ "  ") three_entry_block
           (" " +++ newline)); vm_compute; reflexivity.
Defined.
